(** * NuclEvtGen: the nuclear decay-cascade generator of MPMUtils

    A shallow embedding of [src/Physics/NuclEvtGen.cc] and the properties
    of its weighted selector, decay graph and chain sampler.

    Conventions of the embedding.
    - [double] is idealised as an exact rational ([Qc], canonical rationals
      with Leibniz equality): there is no rounding, no infinity and no NaN.
      A division whose divisor may be zero is written [fdiv] and is
      [Undefined] at zero.  [DBL_MAX] is the rational [2^1024 - 2^971].
    - [unsigned int] and [size_t] values are natural numbers; the containers
      are taken to hold fewer than [2^32] elements, so the only wrap-around
      the code can meet, the iterator difference [-1] cast to [unsigned] in
      [PSelector::select], is written out as its own case.
    - A pointer into a container owned by the system (a [NucLevel&], a
      [TransitionBase*], a [DecayAtom*]) is the index or key of the object
      in its owner, so that all holders of the pointer see the same object.
    - C++ exceptions, undefined behaviour (an index out of range, a
      division by zero) and unbounded recursion are the three abnormal
      outcomes of [outcome].
    - The record layer (Stringmap, SMFile) and the numerical collaborators
      (binding-energy tables, beta spectrum quantiles, the ambient random
      source) are outside the sources: records come in parsed, and the
      collaborators are functions carried by the objects that use them. *)

From Stdlib Require Import QArith Qcanon Lqa Lia Ascii String Sorted.
From stdpp Require Import base numbers list strings gmap.

Local Open Scope Qc_scope.

Definition DBL_MAX : Qc := Q2Qc ((2 ^ 1024 - 2 ^ 971) # 1).

(** ** Outcomes of a call *)

(** [SMExcept]: the exception class of the repository, by the name it is
    thrown under and the value inserted into it.  [smassert(c)] is a macro
    over the condition alone: what it throws can name the condition, never
    the run-time values behind it. *)
Inductive SMExcept : Type :=
  | UnknownLevel (name : string)
  | BadAugerZ (Z : nat)
  | MissingElement (Z : nat)
  | AssertionFailure (condition : string).

Inductive outcome (A : Type) : Type :=
  | Done (a : A)
  | Raise (e : SMExcept)
  | Undefined
  | Unbounded.
Arguments Done {A} a.
Arguments Raise {A} e.
Arguments Undefined {A}.
Arguments Unbounded {A}.

Definition obind {A B : Type} (o : outcome A) (f : A -> outcome B) : outcome B :=
  match o with
  | Done a => f a
  | Raise e => Raise e
  | Undefined => Undefined
  | Unbounded => Unbounded
  end.

Notation "'let!' x ':=' o 'in' f" := (obind o (fun x => f))
  (at level 10, x pattern, o at level 100, f at level 200).

Definition smassert (c : bool) (condition : string) : outcome unit :=
  if c then Done tt else Raise (AssertionFailure condition).

(** [v[i]] on a vector: undefined out of range. *)
Definition idx {A : Type} (v : list A) (i : nat) : outcome A :=
  match v !! i with
  | Some a => Done a
  | None => Undefined
  end.

(** [a / b] on doubles. *)
Definition fdiv (a b : Qc) : outcome Qc :=
  if decide (b = 0) then Undefined else Done (a / b).

(** Left-to-right loop over a vector with a fallible body. *)
Fixpoint ofold {A B : Type} (f : A -> B -> outcome A) (l : list B) (a : A) : outcome A :=
  match l with
  | [] => Done a
  | b :: l' => let! a' := f a b in ofold f l' a'
  end.

(** ** Emitted-particle events *)

(** Modelled from the spec: the declarations of [DecayType] and
    [NucDecayEvent] (header) are not among the sources.  An event carries
    its type, its kinetic energy and an isotropic direction; the fields the
    generator never writes (event number, vertex, time, weight) are left
    out. *)
Inductive DecayType : Type :=
  | D_GAMMA | D_ELECTRON | D_POSITRON | D_NEUTRINO | D_NONEVENT.

(** [randomDirection] turns two uniform values into a unit vector through
    [cos], [sin] and [sqrt]; the direction is kept as the two numbers that
    determine it, [cos(theta) = 2*u0 - 1] and [phi / 2pi = u1]. *)
Record direction : Type := mkdir { costheta : Qc; phi_turns : Qc }.

Module NucDecayEvent.
Record t : Type := mk { d : DecayType; E : Qc; p : direction }.
Definition new : t := mk D_NONEVENT 0 (mkdir 0 0).
Definition set_d (e : t) (x : DecayType) : t := mk x (E e) (p e).
Definition set_E (e : t) (x : Qc) : t := mk (d e) x (p e).
Definition set_p (e : t) (x : direction) : t := mk (d e) (E e) x.
End NucDecayEvent.

(** ** The machine a call runs on *)

(** [gRandom]: the ambient uniform source, the sequence of values its
    [Rndm()] returns and the number of values already taken. *)
Record TRandom : Type := mkrandom { draws : nat -> Qc; taken : nat }.

(** What a call leaves behind for the proofs: the selectors [select] was
    called on (by their cumulative weights), the transitions fired and the
    levels [genDecayChain] was entered at.  No code reads the trace. *)
Inductive mark : Type :=
  | Selecting (cumprob : list Qc)
  | Firing (transition : nat)
  | Entering (level : nat).

(** The state a call can touch: the decay system [sys], the ambient source,
    the function-static [rnd_tmp] of [PSelector::select], the caller's
    array of uniform values (a [double* rnd] is an offset into [mem]) and
    the caller's output vector [v]. *)
Record World (St : Type) : Type := mkworld {
  sys : St;
  gRandom : TRandom;
  rnd_tmp : Qc;
  mem : list Qc;
  v : list NucDecayEvent.t;
  trace : list mark;
}.
Arguments mkworld {St}.
Arguments sys {St}.
Arguments gRandom {St}.
Arguments rnd_tmp {St}.
Arguments mem {St}.
Arguments v {St}.
Arguments trace {St}.

Definition M (St A : Type) : Type := World St -> outcome A * World St.

Definition ret {St A : Type} (a : A) : M St A := fun w => (Done a, w).

Definition bind {St A B : Type} (m : M St A) (f : A -> M St B) : M St B :=
  fun w =>
    match m w with
    | (Done a, w') => f a w'
    | (Raise e, w') => (Raise e, w')
    | (Undefined, w') => (Undefined, w')
    | (Unbounded, w') => (Unbounded, w')
    end.

Notation "x <- m ;; f" := (bind m (fun x => f))
  (at level 100, m at next level, right associativity).
Notation "m ;;; f" := (bind m (fun _ => f))
  (at level 100, right associativity).

Definition lift {St A : Type} (o : outcome A) : M St A := fun w => (o, w).

Definition get_sys {St : Type} : M St St := fun w => (Done (sys w), w).
Definition put_sys {St : Type} (s : St) : M St unit :=
  fun w => (Done tt, mkworld s (gRandom w) (rnd_tmp w) (mem w) (v w) (trace w)).
Definition put_rnd_tmp {St : Type} (x : Qc) : M St unit :=
  fun w => (Done tt, mkworld (sys w) (gRandom w) x (mem w) (v w) (trace w)).
Definition note {St : Type} (m : mark) : M St unit :=
  fun w => (Done tt, mkworld (sys w) (gRandom w) (rnd_tmp w) (mem w) (v w) (trace w ++ [m])).

(** [v.push_back(evt)] *)
Definition push_back {St : Type} (evt : NucDecayEvent.t) : M St unit :=
  fun w => (Done tt, mkworld (sys w) (gRandom w) (rnd_tmp w) (mem w) (v w ++ [evt]) (trace w)).

(** [rnd[i]] read and written through a non-null [rnd]. *)
Definition load {St : Type} (rnd i : nat) : M St Qc :=
  fun w => (idx (mem w) (rnd + i), w).
Definition store {St : Type} (rnd i : nat) (x : Qc) : M St unit :=
  fun w =>
    match mem w !! (rnd + i)%nat with
    | Some _ => (Done tt, mkworld (sys w) (gRandom w) (rnd_tmp w)
                            (<[(rnd + i)%nat := x]> (mem w)) (v w) (trace w))
    | None => (Undefined, w)
    end.

(** [gRandom->Uniform(x1,x2)]: [x1 + (x2-x1)*Rndm()]. *)
Definition Uniform {St : Type} (x1 x2 : Qc) : M St Qc :=
  fun w =>
    let g := gRandom w in
    (Done (x1 + (x2 - x1) * draws g (taken g)),
     mkworld (sys w) (mkrandom (draws g) (S (taken g))) (rnd_tmp w) (mem w) (v w) (trace w)).

(** [randomDirection(x,y,z,rnd)]: [phi] is computed first, from [rnd[1]],
    then [costheta] from [rnd[0]]. *)
Definition randomDirection {St : Type} (rnd : option nat) : M St direction :=
  u1 <- match rnd with Some r => load r 1 | None => Uniform 0 1 end ;;
  u0 <- match rnd with Some r => load r 0 | None => Uniform 0 1 end ;;
  ret (mkdir (Q2Qc 2%Q * u0 - 1) u1).

(** [evt.randp(rnd)] *)
Definition randp {St : Type} (evt : NucDecayEvent.t) (rnd : option nat) : M St NucDecayEvent.t :=
  dir <- randomDirection rnd ;;
  ret (NucDecayEvent.set_p evt dir).

(** ** PSelector *)

Module PSelector.

Record t : Type := mk { cumprob : list Qc }.

(** [cumprob.back()] and [cumprob[i]]; the vector is never empty (see
    [new]) and every read of [cumprob[i]] below is guarded by an assertion
    on [i]. *)
Definition back (l : list Qc) : Qc := List.last l 0.
Definition at_ (l : list Qc) (i : nat) : Qc := List.nth i l 0.

(** Modelled from the spec: the class declaration (header) with the
    constructor, [addProb], [getCumProb] and [getN] is not among the
    sources.  "An ordered sequence of cumulative weights, starting at 0";
    "[addProb(w)] appends a new bin of weight [w], extending the cumulative
    total". *)
Definition new : t := mk [0].
Definition addProb (s : t) (p : Qc) : t :=
  mk (cumprob s ++ [p + back (cumprob s)]).
Definition getCumProb (s : t) : Qc := back (cumprob s).
Definition getN (s : t) : nat := length (cumprob s) - 1.

(** [std::upper_bound(first, last, x)]: the position of the first element
    greater than [x], [last] when there is none. *)
Fixpoint upper_bound (l : list Qc) (x : Qc) : nat :=
  match l with
  | [] => 0%nat
  | c :: l' => if decide (x < c) then 0%nat else S (upper_bound l' x)
  end.

(** The search of [select] once [*x] holds the scaled value: the selected
    bin and the value written back to [*x].  [selected] is the iterator
    difference minus one as an [unsigned int]: [-1] wraps to [2^32-1] and
    fails the assertion.  The divisor is positive whenever the assertion
    holds ([upper_bound] has stepped over [cumprob[selected]] and stopped at
    [cumprob[selected+1]]). *)
Definition locate (s : t) (x : Qc) : outcome (nat * Qc) :=
  match upper_bound (cumprob s) x with
  | O => Raise (AssertionFailure "selected<cumprob.size()-1")
  | S selected =>
      if decide (selected < length (cumprob s) - 1)%nat then
        Done (selected,
              (x - at_ (cumprob s) selected)
              / (at_ (cumprob s) (selected + 1) - at_ (cumprob s) selected))
      else Raise (AssertionFailure "selected<cumprob.size()-1")
  end.

(** [select(&x)] on a supplied [x], as a function of the value [x] points
    to: the returned bin and the final [*x]. *)
Definition select_x (s : t) (x : Qc) : outcome (nat * Qc) :=
  if decide (0 <= x /\ x <= 1) then locate s (x * back (cumprob s))
  else Raise (AssertionFailure "0. <= *x && *x <= 1.").

(** [select(x)]: [x] is null ([None]) or points into the caller's array. *)
Definition select {St : Type} (s : t) (x : option nat) : M St nat :=
  note (Selecting (cumprob s)) ;;;
  match x with
  | None =>
      r <- Uniform 0 (back (cumprob s)) ;;
      put_rnd_tmp r ;;;
      sr <- lift (locate s r) ;;
      put_rnd_tmp (snd sr) ;;;
      ret (fst sr)
  | Some rnd =>
      x0 <- load rnd 0 ;;
      lift (smassert (bool_decide (0 <= x0 /\ x0 <= 1)) "0. <= *x && *x <= 1.") ;;;
      store rnd 0 (x0 * back (cumprob s)) ;;;
      sr <- lift (locate s (x0 * back (cumprob s))) ;;
      store rnd 0 (snd sr) ;;;
      ret (fst sr)
  end.

Definition scale (s : t) (k : Qc) : t := mk ((fun p => p * k) <$> cumprob s).

Definition getProb (s : t) (n : nat) : outcome Qc :=
  if decide (n < length (cumprob s) - 1)%nat then
    fdiv (at_ (cumprob s) (n + 1) - at_ (cumprob s) n) (back (cumprob s))
  else Raise (AssertionFailure "n<cumprob.size()-1").

(** The weight of bin [n]: the width [cumprob[n+1] - cumprob[n]]. *)
Definition weight (s : t) (n : nat) : Qc :=
  at_ (cumprob s) (n + 1) - at_ (cumprob s) n.

(** The data-model invariant: cumulative weights start at 0 and never
    decrease. *)
Definition nondecreasing (l : list Qc) : Prop :=
  forall i j, (i <= j < length l)%nat -> at_ l i <= at_ l j.

Record wf (s : t) : Prop := {
  wf_head : exists l, cumprob s = 0 :: l;
  wf_mono : nondecreasing (cumprob s);
}.

End PSelector.


(** ** Collaborators and parsed records *)

(** Modelled from the spec: the binding-energy provider is not among the
    sources.  "A companion atomic binding-energy provider exposes, per
    atomic number and shell/subshell index, a binding energy in keV"; a
    lookup miss is "propagated as a configuration error". *)
Record BindingEnergyTable : Type := mkBET {
  getZ : nat;
  getSubshellBinding : nat -> nat -> Qc;
}.
Definition BindingEnergyLibrary : Type := nat -> option BindingEnergyTable.

(** The beta spectrum generator of a beta transition (its numerical side
    is not among the sources): the constructor arguments and the members
    the decay system writes. *)
Record BetaSpectrumGenerator : Type := mkBSG {
  bsg_A : nat;
  bsg_Z : Z;
  bsg_EP : Qc;
  bsg_forbidden : nat;
  bsg_M2_F : Qc;
  bsg_M2_GT : Qc;
}.

(** The records of the input file, as [Stringmap::getDefault] and the
    string helpers hand their fields to the constructors. *)

(** [level]: ["nm"] with the [atoi] of its dot-separated fields, ["E"],
    ["hl"], ["jpi"]. *)
Record LevelRec : Type := mkLevelRec {
  lv_nm : string;
  lv_nm_fields : list nat;
  lv_E : Qc;
  lv_hl : Qc;
  lv_jpi : string;
}.

(** One ["CE_<shell>"] field of a [gamma] record: the probability with its
    error, and the subshell ratios after ["@"] when there are any. *)
Record ShellRec : Type := mkShellRec {
  ce_x : Qc;
  ce_err : Qc;
  ce_subshells : option (list Qc);
}.

(** [gamma]: ["from"], ["to"], ["Igamma"] and the ["CE_<shell>"] fields in
    shell order, up to the first shell without one. *)
Record GammaRec : Type := mkGammaRec {
  g_from : string;
  g_to : string;
  g_Igamma : Qc;
  g_CE : list ShellRec;
}.

Record BetaRec : Type := mkBetaRec {
  b_from : string;
  b_to : string;
  b_I : Qc;
  b_positron : bool;
  b_forbidden : nat;
  b_M2_F : option Qc;
  b_M2_GT : option Qc;
}.

(** [ecapt]: ["to"] defaults to ["AUTO"]. *)
Record ECaptRec : Type := mkECaptRec {
  e_from : string;
  e_to : string;
  e_I : Qc;
}.

(** [AugerK]: ["Z"], every key of the record with the [atof] of its value,
    in key order, and ["Iauger"]. *)
Record AugerRec : Type := mkAugerRec {
  a_Z : nat;
  a_dat : list (string * Qc);
  a_Iauger : Qc;
}.

Record SMFile : Type := mkSMFile {
  sm_level : list LevelRec;
  sm_gamma : list GammaRec;
  sm_norm_gamma : string;
  sm_AugerK : list AugerRec;
  sm_beta : list BetaRec;
  sm_ecapt : list ECaptRec;
}.

(** ** NucLevel *)

Module NucLevel.

Record t : Type := mk {
  name : string;
  A : nat;
  Z : nat;
  n : nat;
  E : Qc;
  hl : Qc;
  jpi : string;
  fluxIn : Qc;
  fluxOut : Qc;
}.

Definition set_n (l : t) (x : nat) : t :=
  mk (name l) (A l) (Z l) x (E l) (hl l) (jpi l) (fluxIn l) (fluxOut l).
Definition set_fluxIn (l : t) (x : Qc) : t :=
  mk (name l) (A l) (Z l) (n l) (E l) (hl l) (jpi l) x (fluxOut l).
Definition set_fluxOut (l : t) (x : Qc) : t :=
  mk (name l) (A l) (Z l) (n l) (E l) (hl l) (jpi l) (fluxIn l) x.

(** [NucLevel::NucLevel(const Stringmap& m)] *)
Definition make (m : LevelRec) : outcome t :=
  let v := lv_nm_fields m in
  let! _ := smassert (bool_decide (length v = 3%nat)) "v.size()==3" in
  Done (mk (lv_nm m) (List.nth 0 v 0%nat) (List.nth 1 v 0%nat) (List.nth 2 v 0%nat)
           (lv_E m)
           (if decide (lv_hl m < 0) then DBL_MAX else lv_hl m)
           (lv_jpi m) 0 0).

(** Modelled from the spec: [NucLevel::scale] is declared in the header,
    which is not among the sources.  "All intensities and level fluxes are
    rescaled". *)
Definition scale (l : t) (s : Qc) : t :=
  set_fluxOut (set_fluxIn l (fluxIn l * s)) (fluxOut l * s).

(** [sortLevels] *)
Definition sortLevels (a b : t) : bool := bool_decide (E a < E b).

End NucLevel.

(** ** DecayAtom *)

Module DecayAtom.

Record t : Type := mk {
  BET : BindingEnergyTable;
  Eauger : Qc;
  Iauger : Qc;
  Ikxr : Qc;
  ICEK : Qc;
  IMissing : Qc;
  pAuger : Qc;
}.

Definition set_Iauger (a : t) (x : Qc) : t :=
  mk (BET a) (Eauger a) x (Ikxr a) (ICEK a) (IMissing a) (pAuger a).
Definition set_Ikxr (a : t) (x : Qc) : t :=
  mk (BET a) (Eauger a) (Iauger a) x (ICEK a) (IMissing a) (pAuger a).
Definition set_ICEK (a : t) (x : Qc) : t :=
  mk (BET a) (Eauger a) (Iauger a) (Ikxr a) x (IMissing a) (pAuger a).
Definition set_IMissing (a : t) (x : Qc) : t :=
  mk (BET a) (Eauger a) (Iauger a) (Ikxr a) (ICEK a) x (pAuger a).
Definition set_pAuger (a : t) (x : Qc) : t :=
  mk (BET a) (Eauger a) (Iauger a) (Ikxr a) (ICEK a) (IMissing a) x.

(** [DecayAtom::DecayAtom(BindingEnergyTable const* B)] *)
Definition make (B : BindingEnergyTable) : t :=
  mk B
     (if decide (2 < getZ B)%nat then
        getSubshellBinding B 0 0 - getSubshellBinding B 1 0 - getSubshellBinding B 1 1
      else 0)
     0 0 0 0 0.

Definition first_is (c : ascii) (k : string) : bool :=
  match k with
  | String c' _ => bool_decide (c' = c)
  | EmptyString => false
  end.

(** [DecayAtom::load].  The quotient [Iauger/(Iauger+Ikxr)] is thrown away
    when [Iauger] is zero, so the zero divisor is only met, and undefined,
    when it is not. *)
Definition load (a : t) (m : AugerRec) : outcome t :=
  let! a :=
    ofold (fun a kv =>
             let! _ := smassert (bool_decide (0 < String.length (fst kv))%nat)
                                "it->first.size()" in
             if first_is "a" (fst kv)
             then Done (set_Iauger a (Iauger a + snd kv / Q2Qc 100%Q))
             else if first_is "k" (fst kv)
             then Done (set_Ikxr a (Ikxr a + snd kv / Q2Qc 100%Q))
             else Done a)
          (a_dat m) a in
  let a := set_Iauger a (a_Iauger m / Q2Qc 100%Q) in
  let a := set_IMissing a (Iauger a + Ikxr a - ICEK a) in
  if decide (Iauger a = 0) then Done (set_pAuger (set_IMissing a 0) 0)
  else
    let! q := fdiv (Iauger a) (Iauger a + Ikxr a) in
    Done (set_pAuger a q).

End DecayAtom.

(** ** Transitions *)

(** The members of the three transition classes.  The class declarations
    (header) are not among the sources; the members are those the method
    bodies read and write. *)

Module ConversionGamma.

Record t : Type := mk {
  Egamma : Qc;
  shell : Z;
  subshell : Z;
  Igamma : Qc;
  shells : PSelector.t;
  shellUncert : list Qc;
  subshells : list PSelector.t;
}.

Definition set_shell (g : t) (x : Z) : t :=
  mk (Egamma g) x (subshell g) (Igamma g) (shells g) (shellUncert g) (subshells g).
Definition set_subshell (g : t) (x : Z) : t :=
  mk (Egamma g) (shell g) x (Igamma g) (shells g) (shellUncert g) (subshells g).
Definition set_Igamma (g : t) (x : Qc) : t :=
  mk (Egamma g) (shell g) (subshell g) x (shells g) (shellUncert g) (subshells g).
Definition set_shells (g : t) (x : PSelector.t) : t :=
  mk (Egamma g) (shell g) (subshell g) (Igamma g) x (shellUncert g) (subshells g).

(** The loop of [ConversionGamma::ConversionGamma] over the conversion
    shells: one bin of [shells], one uncertainty and one subshell selector
    per shell. *)
Definition add_shell (Ig : Qc) (acc : PSelector.t * list Qc * list PSelector.t)
    (sh : ShellRec) : PSelector.t * list Qc * list PSelector.t :=
  let '(shs, unc, subs) := acc in
  let ss := match ce_subshells sh with
            | None => [1]
            | Some l => l
            end in
  (PSelector.addProb shs (ce_x sh),
   unc ++ [ce_err sh * Ig],
   subs ++ [fold_left PSelector.addProb ss PSelector.new]).

(** [ConversionGamma::ConversionGamma(f, t, m)]: the members, and the
    [Itotal] it leaves in the base class.  [shell] and [subshell] are not
    initialised; they are written by [run] before they are read. *)
Definition make (f t_ : NucLevel.t) (m : GammaRec) : t * Qc :=
  let Eg := NucLevel.E f - NucLevel.E t_ in
  let Ig := g_Igamma m / Q2Qc 100%Q in
  let '(shs, unc, subs) :=
    fold_left (add_shell Ig) (g_CE m) (PSelector.new, [], []) in
  let shs := PSelector.addProb shs 1 in
  let shs := PSelector.scale shs Ig in
  (mk Eg (-1) (-1) Ig shs unc subs, PSelector.getCumProb shs).

(** Modelled from the spec: [getPVacant] and [nVacant] are defined in the
    header, which is not among the sources.  A conversion shell is vacated
    with the probability of its bin of [shells] (the last bin is the
    photon); "if the chosen shell is the K shell, register one K-shell
    vacancy". *)
Definition getPVacant (g : t) (n : nat) : outcome Qc :=
  if decide (n < PSelector.getN (shells g) - 1)%nat
  then PSelector.getProb (shells g) n
  else Done 0.
Definition nVacant (g : t) (n : nat) : nat :=
  if decide (Z.of_nat n = shell g) then 1%nat else 0%nat.

End ConversionGamma.

Module BetaDecayTrans.

Record t : Type := mk {
  positron : bool;
  BSG : BetaSpectrumGenerator;
  betaQuantiles : Qc -> Qc;
}.

Definition set_BSG (b : t) (x : BetaSpectrumGenerator) : t :=
  mk (positron b) x (betaQuantiles b).

(** [BetaDecayTrans::BetaDecayTrans(f, t, pstrn, forbidden)];
    [TF1_Quantiles] stands for the quantile table ROOT computes from the
    spectrum. *)
Definition make (TF1_Quantiles : BetaSpectrumGenerator -> Qc -> Qc)
    (f t_ : NucLevel.t) (pstrn : bool) (forbidden : nat) : t :=
  let same := bool_decide (NucLevel.jpi f = NucLevel.jpi t_) in
  let bsg := mkBSG (NucLevel.A t_)
                   (Z.of_nat (NucLevel.Z t_) * (if pstrn then -1 else 1))%Z
                   (NucLevel.E f - NucLevel.E t_)
                   forbidden
                   (if same then 1 else 0)
                   (if same then 0 else 1) in
  mk pstrn bsg (TF1_Quantiles bsg).

End BetaDecayTrans.

Module ECapture.

Record t : Type := mk { isKCapt : bool }.

(** [isKCapt] is not initialised; [run] writes it before [nVacant] reads it. *)
Definition make : t := mk false.

(** Modelled from the spec: [nVacant] is defined in the header, which is
    not among the sources.  The capture "left a K-shell vacancy" or not. *)
Definition nVacant (e : t) (n : nat) : nat :=
  if decide (n = 0%nat) then (if isKCapt e then 1%nat else 0%nat) else 0%nat.

End ECapture.

Module TransitionBase.

Inductive variant : Type :=
  | Gamma (g : ConversionGamma.t)
  | Beta (b : BetaDecayTrans.t)
  | ECapt (e : ECapture.t).

(** [toAtom] is the key of the atom in [atoms]; [from] and [to] are the
    indices of the levels in [levels]. *)
Record t : Type := mk {
  toAtom : nat;
  from : nat;
  to : nat;
  Itotal : Qc;
  kind : variant;
}.

Definition set_toAtom (T : t) (x : nat) : t := mk x (from T) (to T) (Itotal T) (kind T).
Definition set_Itotal (T : t) (x : Qc) : t := mk (toAtom T) (from T) (to T) x (kind T).
Definition set_kind (T : t) (x : variant) : t := mk (toAtom T) (from T) (to T) (Itotal T) x.

(** [TransitionBase::TransitionBase(f, t)]: [Itotal(0)]; [toAtom] is set by
    [addTransition]. *)
Definition make (f t_ : nat) (k : variant) : t := mk 0 f t_ 0 k.

(** Modelled from the spec: the virtual [getNDF] is defined in the header,
    which is not among the sources.  "The fixed number of independent
    uniform draws the transition consumes when fired (direction sampling
    contributes 2, shell/subshell/spectrum sampling contributes 0-2 more
    depending on variant)": a conversion gamma reads [rnd[0..1]], a beta
    [rnd[0..2]], an electron capture nothing of [rnd]. *)
Definition getNDF (T : t) : nat :=
  match kind T with
  | Gamma _ => 2
  | Beta _ => 3
  | ECapt _ => 0
  end.

(** [nVacant(n)]: no vacancy in the base class. *)
Definition nVacant (T : t) (n : nat) : nat :=
  match kind T with
  | Gamma g => ConversionGamma.nVacant g n
  | Beta _ => 0
  | ECapt e => ECapture.nVacant e n
  end.

(** Modelled from the spec: [TransitionBase::scale] is defined in the
    header, which is not among the sources.  "All intensities ... are
    rescaled".  [ConversionGamma::scale] is in the sources. *)
Definition scale (T : t) (s : Qc) : outcome t :=
  let T := set_Itotal T (Itotal T * s) in
  match kind T with
  | Gamma g =>
      let! ig := fdiv (ConversionGamma.Igamma g) s in
      let g := ConversionGamma.set_Igamma g ig in
      let g := ConversionGamma.set_shells g (PSelector.scale (ConversionGamma.shells g) s) in
      Done (set_kind T (Gamma g))
  | _ => Done T
  end.

End TransitionBase.

(** ** NucDecaySystem *)

Module NucDecaySystem.

Import TransitionBase.

(** [transitions] is the arena of the transition objects: the
    [TransitionBase*] kept in [transIn], [transOut] and [transitions] are
    positions in it. *)
Record t : Type := mk {
  BEL : BindingEnergyLibrary;
  levels : list NucLevel.t;
  levelIndex : gmap string nat;
  atoms : gmap nat DecayAtom.t;
  transitions : list TransitionBase.t;
  transIn : list (list nat);
  transOut : list (list nat);
  levelDecays : list PSelector.t;
  lStart : PSelector.t;
  tcut : Qc;
}.

Definition set_levels (s : t) (x : list NucLevel.t) : t :=
  mk (BEL s) x (levelIndex s) (atoms s) (transitions s) (transIn s) (transOut s)
     (levelDecays s) (lStart s) (tcut s).
Definition set_levelIndex (s : t) (x : gmap string nat) : t :=
  mk (BEL s) (levels s) x (atoms s) (transitions s) (transIn s) (transOut s)
     (levelDecays s) (lStart s) (tcut s).
Definition set_atoms (s : t) (x : gmap nat DecayAtom.t) : t :=
  mk (BEL s) (levels s) (levelIndex s) x (transitions s) (transIn s) (transOut s)
     (levelDecays s) (lStart s) (tcut s).
Definition set_transitions (s : t) (x : list TransitionBase.t) : t :=
  mk (BEL s) (levels s) (levelIndex s) (atoms s) x (transIn s) (transOut s)
     (levelDecays s) (lStart s) (tcut s).
Definition set_transIn (s : t) (x : list (list nat)) : t :=
  mk (BEL s) (levels s) (levelIndex s) (atoms s) (transitions s) x (transOut s)
     (levelDecays s) (lStart s) (tcut s).
Definition set_transOut (s : t) (x : list (list nat)) : t :=
  mk (BEL s) (levels s) (levelIndex s) (atoms s) (transitions s) (transIn s) x
     (levelDecays s) (lStart s) (tcut s).
Definition set_levelDecays (s : t) (x : list PSelector.t) : t :=
  mk (BEL s) (levels s) (levelIndex s) (atoms s) (transitions s) (transIn s) (transOut s)
     x (lStart s) (tcut s).
Definition set_lStart (s : t) (x : PSelector.t) : t :=
  mk (BEL s) (levels s) (levelIndex s) (atoms s) (transitions s) (transIn s) (transOut s)
     (levelDecays s) x (tcut s).
Definition set_tcut (s : t) (x : Qc) : t :=
  mk (BEL s) (levels s) (levelIndex s) (atoms s) (transitions s) (transIn s) (transOut s)
     (levelDecays s) (lStart s) x.

(** [getAtom(Z)]: the atom is created on first use; the pointer returned
    is the key [Z]. *)
Definition getAtom (s : t) (Z : nat) : outcome t :=
  match atoms s !! Z with
  | Some _ => Done s
  | None =>
      match BEL s Z with
      | Some B => Done (set_atoms s (<[Z := DecayAtom.make B]> (atoms s)))
      | None => Raise (MissingElement Z)
      end
  end.

(** [addTransition(T)]: [T] is the object about to be stored at the end of
    the arena. *)
Definition addTransition (s : t) (T : TransitionBase.t) : outcome t :=
  let! lto := idx (levels s) (to T) in
  let! s := getAtom s (NucLevel.Z lto) in
  let T := set_toAtom T (NucLevel.Z lto) in
  let tid := length (transitions s) in
  let! tin := idx (transIn s) (NucLevel.n lto) in
  let s := set_transIn s (<[NucLevel.n lto := tin ++ [tid]]> (transIn s)) in
  let! lfrom := idx (levels s) (from T) in
  let! tout := idx (transOut s) (NucLevel.n lfrom) in
  let s := set_transOut s (<[NucLevel.n lfrom := tout ++ [tid]]> (transOut s)) in
  let! ld := idx (levelDecays s) (NucLevel.n lfrom) in
  let s := set_levelDecays s
             (<[NucLevel.n lfrom := PSelector.addProb ld (Itotal T)]> (levelDecays s)) in
  let s := set_levels s
             (<[from T := NucLevel.set_fluxOut lfrom (NucLevel.fluxOut lfrom + Itotal T)]>
                (levels s)) in
  let! lto := idx (levels s) (to T) in
  let s := set_levels s
             (<[to T := NucLevel.set_fluxIn lto (NucLevel.fluxIn lto + Itotal T)]>
                (levels s)) in
  Done (set_transitions s (transitions s ++ [T])).

(** [setCutoff(t)] *)
Definition setCutoff (s : t) (tc : Qc) : outcome t :=
  let s := set_tcut s tc in
  let s := set_lStart s PSelector.new in
  ofold
    (fun s n =>
       let! _ := idx (levelDecays s) n in
       let! tout := idx (transOut s) n in
       let! ld :=
         ofold (fun ld tid =>
                  let! T := idx (transitions s) tid in
                  Done (PSelector.addProb ld (Itotal T)))
               tout PSelector.new in
       let s := set_levelDecays s (<[n := ld]> (levelDecays s)) in
       let pStart : Qc := if decide (n + 1 = length (levels s))%nat then 1 else 0 in
       let! lev := idx (levels s) n in
       let! pStart :=
         if decide (pStart = 0 /\ tcut s < NucLevel.hl lev /\ tout <> [])
         then
           let! tin := idx (transIn s) n in
           ofold (fun p tid =>
                    let! T := idx (transitions s) tid in
                    Done (p + Itotal T))
                 tin pStart
         else Done pStart in
       Done (set_lStart s (PSelector.addProb (lStart s) pStart)))
    (seq 0 (length (levels s))) s.

(** [levIndex(s)] *)
Definition levIndex (s : t) (nm : string) : outcome nat :=
  match levelIndex s !! nm with
  | Some n => Done n
  | None => Raise (UnknownLevel nm)
  end.

(** [for(...) transitions[i]->scale(k)] *)
Definition scale_transitions (s : t) (k : Qc) : outcome t :=
  ofold (fun s i =>
           let! T := idx (transitions s) i in
           let! T := TransitionBase.scale T k in
           Done (set_transitions s (<[i := T]> (transitions s))))
        (seq 0 (length (transitions s))) s.

(** [levels[i].scale(k); levelDecays[i].scale(k)] *)
Definition scale_level (k : Qc) (s : t) (i : nat) : outcome t :=
  let! l := idx (levels s) i in
  let s := set_levels s (<[i := NucLevel.scale l k]> (levels s)) in
  let! ld := idx (levelDecays s) i in
  Done (set_levelDecays s (<[i := PSelector.scale ld k]> (levelDecays s))).

(** [scale(s)] *)
Definition scale (s : t) (k : Qc) : outcome t :=
  let s := set_lStart s (PSelector.scale (lStart s) k) in
  let! s := scale_transitions s k in
  ofold (scale_level k) (seq 0 (length (levels s))) s.

(** [getNDF(n)].  The recursion follows the transitions and has no bound
    of its own in the source: [fuel] bounds its depth. *)
Fixpoint getNDF (fuel : nat) (s : t) (n : nat) : outcome nat :=
  match fuel with
  | O => Unbounded
  | S fuel =>
      if decide (length (levels s) <= n)%nat then
        ofold (fun ndf i =>
                 let! p := PSelector.getProb (lStart s) i in
                 if decide (p = 0) then Done ndf
                 else
                   let! lndf := getNDF fuel s i in
                   Done (if decide (ndf < lndf)%nat then lndf else ndf))
              (seq 0 (length (levels s))) 0%nat
      else
        let! tout := idx (transOut s) n in
        ofold (fun ndf tid =>
                 let! T := idx (transitions s) tid in
                 let! lto := idx (levels s) (to T) in
                 let! r := getNDF fuel s (NucLevel.n lto) in
                 let lndf := (TransitionBase.getNDF T + r)%nat in
                 Done (if decide (ndf < lndf)%nat then lndf else ndf))
              tout 0%nat
  end.

(** *** The constructor *)

(** [std::sort(levels.begin(), levels.end(), sortLevels)]: an insertion
    sort stands for it (levels of equal energy keep their order, which
    [std::sort] leaves unspecified). *)
Fixpoint insert_level (l : NucLevel.t) (ls : list NucLevel.t) : list NucLevel.t :=
  match ls with
  | [] => [l]
  | h :: tl => if NucLevel.sortLevels l h then l :: h :: tl else h :: insert_level l tl
  end.
Definition sort_levels (ls : list NucLevel.t) : list NucLevel.t :=
  fold_left (fun acc l => insert_level l acc) ls [].

(** The first loop of the constructor: one level, and one empty slot of
    [transIn], [transOut] and [levelDecays], per [level] record. *)
Definition load_levels (s : t) (levs : list LevelRec) : outcome t :=
  ofold (fun s l =>
           let! lev := NucLevel.make l in
           let s := set_levels s (levels s ++ [lev]) in
           let s := set_transIn s (transIn s ++ [[]]) in
           let s := set_transOut s (transOut s ++ [[]]) in
           Done (set_levelDecays s (levelDecays s ++ [PSelector.new])))
        levs s.

(** The numbering loop: [nlev] is the position of the level. *)
Definition number_level (s : t) (nlev : nat) : outcome t :=
  let! l := idx (levels s) nlev in
  let! _ := smassert (bool_decide (levelIndex s !! NucLevel.name l = None))
                     "levelIndex.find(l.name) == levelIndex.end()" in
  let s := set_levels s (<[nlev := NucLevel.set_n l nlev]> (levels s)) in
  Done (set_levelIndex s (<[NucLevel.name l := nlev]> (levelIndex s))).

Definition index_levels (s : t) : outcome t :=
  ofold number_level (seq 0 (length (levels s))) s.

(** "set up internal conversions".  The two [levIndex] calls are arguments
    of one call in the source; the model looks up [from] first. *)
Definition add_gamma (s : t) (g : GammaRec) : outcome t :=
  let! f := levIndex s (g_from g) in
  let! t_ := levIndex s (g_to g) in
  let! lf := idx (levels s) f in
  let! lt := idx (levels s) t_ in
  let cg := ConversionGamma.make lf lt g in
  addTransition s (set_Itotal (TransitionBase.make f t_ (Gamma (fst cg))) (snd cg)).

Definition add_gammas (s : t) (gammatrans : list GammaRec) : outcome t :=
  ofold add_gamma gammatrans s.

(** The ["groundstate"] normalisation. *)
Definition gsflux (s : t) : Qc :=
  fold_left (fun acc l => if decide (NucLevel.fluxOut l = 0)
                          then acc + NucLevel.fluxIn l else acc)
            (levels s) 0.

Definition normalise (s : t) (norm : string) : outcome t :=
  if decide (norm = "groundstate") then
    let! k := fdiv 1 (gsflux s) in
    let! s := scale_transitions s k in
    Done (set_levels s ((fun l => NucLevel.scale l k) <$> levels s))
  else Done s.

(** Modelled from the spec: the virtual [getPVacant] is defined in the
    header, which is not among the sources; only conversion gammas exist
    when the constructor calls it.  An electron capture vacates the K shell
    with the "missing" fraction of its atom. *)
Definition getPVacant (s : t) (T : TransitionBase.t) (n : nat) : outcome Qc :=
  match kind T with
  | Gamma g => ConversionGamma.getPVacant g n
  | Beta _ => Done 0
  | ECapt _ =>
      if decide (n = 0%nat) then
        match atoms s !! toAtom T with
        | Some a => Done (DecayAtom.IMissing a)
        | None => Undefined
        end
      else Done 0
  end.

(** "set up Augers" *)
Definition add_ICEK_of (s : t) (T : TransitionBase.t) : outcome t :=
  let! pv := getPVacant s T 0 in
  match atoms s !! toAtom T with
  | Some a =>
      Done (set_atoms s (<[toAtom T :=
              DecayAtom.set_ICEK a (DecayAtom.ICEK a + pv * Itotal T)]> (atoms s)))
  | None => Undefined
  end.

Definition add_ICEK (s : t) : outcome t :=
  ofold add_ICEK_of (transitions s) s.

Definition load_auger (s : t) (a : AugerRec) : outcome t :=
  let Z := a_Z a in
  if decide (Z = 0%nat) then Raise (BadAugerZ Z)
  else
    let! s := getAtom s Z in
    match atoms s !! Z with
    | Some at_ =>
        let! at_ := DecayAtom.load at_ a in
        Done (set_atoms s (<[Z := at_]> (atoms s)))
    | None => Undefined
    end.

Definition load_augers (s : t) (augers : list AugerRec) : outcome t :=
  ofold load_auger augers s.

(** "set up beta decays" *)
Definition add_beta (TF1_Quantiles : BetaSpectrumGenerator -> Qc -> Qc)
    (s : t) (bt : BetaRec) : outcome t :=
  let! f := levIndex s (b_from bt) in
  let! t_ := levIndex s (b_to bt) in
  let! lf := idx (levels s) f in
  let! lt := idx (levels s) t_ in
  let BD := BetaDecayTrans.make TF1_Quantiles lf lt (b_positron bt) (b_forbidden bt) in
  let BD :=
    if bool_decide (is_Some (b_M2_F bt) \/ is_Some (b_M2_GT bt)) then
      let g := BetaDecayTrans.BSG BD in
      BetaDecayTrans.set_BSG BD
        (mkBSG (bsg_A g) (bsg_Z g) (bsg_EP g) (bsg_forbidden g)
               (default 0 (b_M2_F bt)) (default 0 (b_M2_GT bt)))
    else BD in
  addTransition s
    (set_Itotal (TransitionBase.make f t_ (Beta BD)) (b_I bt / Q2Qc 100%Q)).

Definition add_betas (TF1_Quantiles : BetaSpectrumGenerator -> Qc -> Qc)
    (s : t) (betatrans : list BetaRec) : outcome t :=
  ofold (add_beta TF1_Quantiles) betatrans s.

(** "set up electron captures".  [Lorig] and [Ldest] are references into
    [levels]: the fluxes of [Ldest] are read as the transitions added so
    far have left them; of [Lorig] only [A], [Z] and [E] are read, which
    nothing writes. *)
Definition ecapt_allowed (Lorig Ldest : NucLevel.t) : bool :=
  bool_decide (NucLevel.A Ldest = NucLevel.A Lorig
               /\ (NucLevel.Z Ldest + 1)%nat = NucLevel.Z Lorig
               /\ NucLevel.E Ldest < NucLevel.E Lorig).

Definition add_ecapt_auto (iorig : nat) (Lorig : NucLevel.t) (s : t) (idest : nat)
    : outcome t :=
  let! Ldest := idx (levels s) idest in
  if ecapt_allowed Lorig Ldest then
    let missingFlux := NucLevel.fluxOut Ldest - NucLevel.fluxIn Ldest in
    if decide (missingFlux <= 0) then Done s
    else
      addTransition s
        (set_Itotal (TransitionBase.make iorig idest (ECapt ECapture.make)) missingFlux)
  else Done s.

Definition add_ecapt (s : t) (ec : ECaptRec) : outcome t :=
  let! iorig := levIndex s (e_from ec) in
  let! Lorig := idx (levels s) iorig in
  let to_ := e_to ec in
  if decide (to_ = "AUTO") then
    ofold (add_ecapt_auto iorig Lorig) (seq 0 (length (levels s))) s
  else
    let! idest := levIndex s to_ in
    let! Ldest := idx (levels s) idest in
    let! _ := smassert (ecapt_allowed Lorig Ldest)
                "Ldest.A == Lorig.A && Ldest.Z+1 == Lorig.Z && Ldest.E < Lorig.E" in
    addTransition s
      (set_Itotal (TransitionBase.make iorig idest (ECapt ECapture.make)) (e_I ec)).

Definition add_ecapts (s : t) (ecapts : list ECaptRec) : outcome t :=
  ofold add_ecapt ecapts s.

(** [NucDecaySystem::NucDecaySystem(Q, B, t)].  A constructor that throws
    leaves no object: the only system a caller ever holds is the one of
    [Done]. *)
Definition make (TF1_Quantiles : BetaSpectrumGenerator -> Qc -> Qc)
    (Q : SMFile) (B : BindingEnergyLibrary) (tc : Qc) : outcome t :=
  let s := mk B [] ∅ ∅ [] [] [] [] PSelector.new 0 in
  let! s := load_levels s (sm_level Q) in
  let s := set_levels s (sort_levels (levels s)) in
  let! s := index_levels s in
  let! s := add_gammas s (sm_gamma Q) in
  let! s := normalise s (sm_norm_gamma Q) in
  let! s := add_ICEK s in
  let! s := load_augers s (sm_AugerK Q) in
  let! s := add_betas TF1_Quantiles s (sm_beta Q) in
  let! s := add_ecapts s (sm_ecapt Q) in
  setCutoff s tc.

(** *** Chain generation *)

(** [*T] for a [TransitionBase* T], and the write of a member of [*T]. *)
Definition the_transition (T : nat) : M t TransitionBase.t :=
  s <- get_sys ;; lift (idx (transitions s) T).
Definition put_kind (T : nat) (k : variant) : M t unit :=
  s <- get_sys ;;
  tb <- lift (idx (transitions s) T) ;;
  put_sys (set_transitions s (<[T := set_kind tb k]> (transitions s))).

(** [*a] for a [DecayAtom* a]. *)
Definition the_atom (Z : nat) : M t DecayAtom.t :=
  s <- get_sys ;;
  lift (match atoms s !! Z with
        | Some a => Done a
        | None => Undefined
        end).

(** [DecayAtom::genAuger(v)], on the atom of key [Z]. *)
Definition genAuger (Z : nat) : M t unit :=
  a <- the_atom Z ;;
  u <- Uniform 0 1 ;;
  if decide (DecayAtom.pAuger a < u) then ret tt
  else
    let evt := NucDecayEvent.new in
    let evt := NucDecayEvent.set_d evt D_ELECTRON in
    let evt := NucDecayEvent.set_E evt (DecayAtom.Eauger a) in
    evt <- randp evt None ;;
    push_back evt.

(** [ConversionGamma::run(v, rnd)] on the transition [T]. *)
Definition ConversionGamma_run (T : nat) (g : ConversionGamma.t) (rnd : option nat) : M t unit :=
  sel <- PSelector.select (ConversionGamma.shells g) rnd ;;
  let g := ConversionGamma.set_shell g (Z.of_nat sel) in
  put_kind T (Gamma g) ;;;
  g <- (if decide (ConversionGamma.shell g < Z.of_nat (length (ConversionGamma.subshells g)))%Z
        then
          ss <- lift (idx (ConversionGamma.subshells g) sel) ;;
          sub <- PSelector.select ss rnd ;;
          ret (ConversionGamma.set_subshell g (Z.of_nat sub))
        else
          ret (ConversionGamma.set_shell (ConversionGamma.set_subshell g (-1)) (-1))) ;;
  put_kind T (Gamma g) ;;;
  let evt := NucDecayEvent.new in
  let evt := NucDecayEvent.set_E evt (ConversionGamma.Egamma g) in
  evt <- (if decide (ConversionGamma.shell g < 0)%Z
          then ret (NucDecayEvent.set_d evt D_GAMMA)
          else
            let evt := NucDecayEvent.set_d evt D_ELECTRON in
            tb <- the_transition T ;;
            a <- the_atom (toAtom tb) ;;
            ret (NucDecayEvent.set_E evt
                   (NucDecayEvent.E evt
                    - getSubshellBinding (DecayAtom.BET a)
                        (Z.to_nat (ConversionGamma.shell g))
                        (Z.to_nat (ConversionGamma.subshell g))))) ;;
  evt <- randp evt rnd ;;
  push_back evt.

(** [BetaDecayTrans::run(v, rnd)].  Without [rnd] the energy comes from
    [TF1::GetRandom], the quantile of one value of the ambient source. *)
Definition BetaDecayTrans_run (b : BetaDecayTrans.t) (rnd : option nat) : M t unit :=
  let evt := NucDecayEvent.new in
  let evt := NucDecayEvent.set_d evt
               (if BetaDecayTrans.positron b then D_POSITRON else D_ELECTRON) in
  evt <- randp evt rnd ;;
  e <- match rnd with
       | Some r => x <- load r 2 ;; ret (BetaDecayTrans.betaQuantiles b x)
       | None => x <- Uniform 0 1 ;; ret (BetaDecayTrans.betaQuantiles b x)
       end ;;
  push_back (NucDecayEvent.set_E evt e).

(** [ECapture::run(v, rnd)]: neither argument is used. *)
Definition ECapture_run (T : nat) (rnd : option nat) : M t unit :=
  tb <- the_transition T ;;
  u <- Uniform 0 1 ;;
  a <- the_atom (toAtom tb) ;;
  put_kind T (ECapt (ECapture.mk (bool_decide (u < DecayAtom.IMissing a)))).

(** [T->run(v, rnd)] *)
Definition run (T : nat) (rnd : option nat) : M t unit :=
  tb <- the_transition T ;;
  match kind tb with
  | Gamma g => ConversionGamma_run T g rnd
  | Beta b => BetaDecayTrans_run b rnd
  | ECapt _ => ECapture_run T rnd
  end.

Fixpoint repeat_ {A : Type} (k : nat) (m : M t A) : M t unit :=
  match k with
  | O => ret tt
  | S k => m ;;; repeat_ k m
  end.

(** [genDecayChain(v, rnd, n)].  The recursion has no bound of its own in
    the source: [fuel] bounds the number of nested calls. *)
Fixpoint genDecayChain (fuel : nat) (rnd : option nat) (n : nat) : M t unit :=
  match fuel with
  | O => lift Unbounded
  | S fuel =>
      note (Entering n) ;;;
      s <- get_sys ;;
      let init := bool_decide (length (levels s) <= n)%nat in
      n <- (if init then PSelector.select (lStart s) rnd else ret n) ;;
      lev <- lift (idx (levels s) n) ;;
      if bool_decide (NucLevel.fluxOut lev = 0)
         || (negb init && bool_decide (tcut s < NucLevel.hl lev))
      then ret tt
      else
        ld <- lift (idx (levelDecays s) n) ;;
        k <- PSelector.select ld rnd ;;
        tout <- lift (idx (transOut s) n) ;;
        T <- lift (idx tout k) ;;
        note (Firing T) ;;;
        run T rnd ;;;
        tb <- the_transition T ;;
        let rnd := (fun r => r + TransitionBase.getNDF tb)%nat <$> rnd in
        let nAugerK := TransitionBase.nVacant tb 0 in
        repeat_ nAugerK
          (s <- get_sys ;;
           lto <- lift (idx (levels s) (to tb)) ;;
           s <- lift (getAtom s (NucLevel.Z lto)) ;;
           put_sys s ;;;
           genAuger (NucLevel.Z lto)) ;;;
        s <- get_sys ;;
        lto <- lift (idx (levels s) (to tb)) ;;
        genDecayChain fuel rnd (NucLevel.n lto)
  end.

End NucDecaySystem.

(** ** Particle names *)

(** [particleName(t)] and [particleType(s)] *)
Definition particleName (t : DecayType) : string :=
  match t with
  | D_GAMMA => "gamma"
  | D_ELECTRON => "e-"
  | D_POSITRON => "e+"
  | D_NEUTRINO => "neutrino"
  | D_NONEVENT => "UNKNOWN"
  end.

Definition particleType (s : string) : DecayType :=
  if decide (s = "gamma") then D_GAMMA
  else if decide (s = "e-") then D_ELECTRON
  else if decide (s = "e+") then D_POSITRON
  else if decide (s = "neutrino") then D_NEUTRINO
  else D_NONEVENT.

(** ** NucDecayLibrary *)

Module NucDecayLibrary.

(** The members, as the functions below use them (the class declaration
    is in the header, which is not among the sources): [NDs] maps a name
    to its decay system, [cantdothis] is a set of names. *)
Record t : Type := mk {
  datpath : string;
  tcut : Qc;
  BEL : BindingEnergyLibrary;
  NDs : gmap string NucDecaySystem.t;
  cantdothis : gset string;
}.

Definition set_NDs (L : t) (x : gmap string NucDecaySystem.t) : t :=
  mk (datpath L) (tcut L) (BEL L) x (cantdothis L).
Definition set_cantdothis (L : t) (x : gset string) : t :=
  mk (datpath L) (tcut L) (BEL L) (NDs L) x.

(** What a call can throw: the exception of [getGenerator] itself, or one
    of the constructor of the decay system. *)
Inductive LibExcept : Type :=
  | MissingDecayData (fname : string)
  | Thrown (e : SMExcept).

Inductive result (A : Type) : Type :=
  | Ok (a : A)
  | Throw (e : LibExcept)
  | NotFinite
  | NoEnd.
Arguments Ok {A}.
Arguments Throw {A}.
Arguments NotFinite {A}.
Arguments NoEnd {A}.

(** [getGenerator(nm)].  The files are a function [disk] from a path to
    the records [SMFile(fname)] reads there, [None] where [fileExists]
    fails; the reference returned is to the system stored under [nm], given
    here with the library as the call leaves it.  An exception of the
    constructor leaves before [emplace]. *)
Definition getGenerator (TF1_Quantiles : BetaSpectrumGenerator -> Qc -> Qc)
    (disk : string -> option SMFile) (L : t) (nm : string)
    : result (NucDecaySystem.t * t) :=
  match NDs L !! nm with
  | Some s => Ok (s, L)
  | None =>
      let fname := (datpath L ++ "/" ++ nm ++ ".txt")%string in
      match disk fname with
      | None => Throw (MissingDecayData fname)
      | Some Q =>
          match NucDecaySystem.make TF1_Quantiles Q (BEL L) (tcut L) with
          | Done s => Ok (s, set_NDs L (<[nm := s]> (NDs L)))
          | Raise e => Throw (Thrown e)
          | Undefined => NotFinite
          | Unbounded => NoEnd
          end
      end
  end.

(** [hasGenerator(nm)]: [catch(...)] takes every exception. *)
Definition hasGenerator (TF1_Quantiles : BetaSpectrumGenerator -> Qc -> Qc)
    (disk : string -> option SMFile) (L : t) (nm : string) : result (bool * t) :=
  if decide (nm ∈ cantdothis L) then Ok (false, L)
  else
    match getGenerator TF1_Quantiles disk L nm with
    | Ok (_, L') => Ok (true, L')
    | Throw _ => Ok (false, set_cantdothis L ({[nm]} ∪ cantdothis L))
    | NotFinite => NotFinite
    | NoEnd => NoEnd
    end.

End NucDecayLibrary.

(** * Notions used by the statements *)

(** The [Itotal] of the transition behind a pointer, and the sum of the
    [Itotal] of a list of transition pointers. *)
Definition Itotal_of (s : NucDecaySystem.t) (tid : nat) : Qc :=
  match NucDecaySystem.transitions s !! tid with
  | Some T => TransitionBase.Itotal T
  | None => 0
  end.

Definition sum_Itotal (s : NucDecaySystem.t) (tids : list nat) : Qc :=
  fold_left (fun p tid => p + Itotal_of s tid) tids 0.

(** The selector over the [Itotal] of a list of transitions, bin by bin. *)
Definition decays_of (s : NucDecaySystem.t) (tids : list nat) : PSelector.t :=
  fold_left (fun ld tid => PSelector.addProb ld (Itotal_of s tid)) tids PSelector.new.

(** The start weight [setCutoff(tc)] gives to level [n]. *)
Definition pStart_of (s : NucDecaySystem.t) (tc : Qc) (n : nat) : Qc :=
  let pStart : Qc :=
    if decide (n + 1 = length (NucDecaySystem.levels s))%nat then 1 else 0 in
  match NucDecaySystem.levels s !! n, NucDecaySystem.transOut s !! n,
        NucDecaySystem.transIn s !! n with
  | Some lev, Some tout, Some tin =>
      if decide (pStart = 0 /\ tc < NucLevel.hl lev /\ tout <> [])
      then fold_left (fun p tid => p + Itotal_of s tid) tin pStart
      else pStart
  | _, _, _ => pStart
  end.

(** A selector with two bins, of weights 1 and 3. *)
Definition example_selector : PSelector.t :=
  PSelector.addProb (PSelector.addProb PSelector.new 1) (Q2Qc 3%Q).

(** The shape of the decay graph: one slot per level in [transIn],
    [transOut] and [levelDecays]; every stored transition pointer is live
    and filed under the level it leaves or reaches; the atom of every
    transition exists; the levels carry their own position. *)
Record graph_ok (s : NucDecaySystem.t) : Prop := {
  g_transIn_len :
    length (NucDecaySystem.transIn s) = length (NucDecaySystem.levels s);
  g_transOut_len :
    length (NucDecaySystem.transOut s) = length (NucDecaySystem.levels s);
  g_levelDecays_len :
    length (NucDecaySystem.levelDecays s) = length (NucDecaySystem.levels s);
  g_out : forall n tout tid,
    NucDecaySystem.transOut s !! n = Some tout -> tid ∈ tout ->
    exists T, NucDecaySystem.transitions s !! tid = Some T /\ TransitionBase.from T = n;
  g_in : forall n tin tid,
    NucDecaySystem.transIn s !! n = Some tin -> tid ∈ tin ->
    exists T, NucDecaySystem.transitions s !! tid = Some T /\ TransitionBase.to T = n;
  g_trans : forall tid T,
    NucDecaySystem.transitions s !! tid = Some T ->
    (TransitionBase.from T < length (NucDecaySystem.levels s))%nat
    /\ exists lto, NucDecaySystem.levels s !! TransitionBase.to T = Some lto
         /\ TransitionBase.toAtom T = NucLevel.Z lto
         /\ is_Some (NucDecaySystem.atoms s !! TransitionBase.toAtom T);
  g_n : forall i l, NucDecaySystem.levels s !! i = Some l -> NucLevel.n l = i;
}.

(** What [setCutoff(tc)] leaves: the graph as it was, every [levelDecays]
    selector rebuilt from the [Itotal] of the outgoing transitions, and the
    start selector over the start weights. *)
Definition after_setCutoff (s : NucDecaySystem.t) (tc : Qc) : NucDecaySystem.t :=
  NucDecaySystem.mk
    (NucDecaySystem.BEL s) (NucDecaySystem.levels s) (NucDecaySystem.levelIndex s)
    (NucDecaySystem.atoms s) (NucDecaySystem.transitions s)
    (NucDecaySystem.transIn s) (NucDecaySystem.transOut s)
    (decays_of s <$> NucDecaySystem.transOut s)
    (fold_left PSelector.addProb
       (pStart_of s tc <$> seq 0 (length (NucDecaySystem.levels s))) PSelector.new)
    tc.

(** The flux out of every level is the sum of the [Itotal] of its outgoing
    transitions. *)
Definition balanced (s : NucDecaySystem.t) : Prop :=
  forall n lev tout,
    NucDecaySystem.levels s !! n = Some lev ->
    NucDecaySystem.transOut s !! n = Some tout ->
    NucLevel.fluxOut lev = sum_Itotal s tout.

(** Every [levelDecays] selector has one bin per outgoing transition, of
    weight its [Itotal]. *)
Definition decays_synced (s : NucDecaySystem.t) : Prop :=
  NucDecaySystem.levelDecays s = decays_of s <$> NucDecaySystem.transOut s.

(** The start selector has one bin per level. *)
Definition start_synced (s : NucDecaySystem.t) : Prop :=
  length (PSelector.cumprob (NucDecaySystem.lStart s))
  = S (length (NucDecaySystem.levels s)).

(** The levels are in ascending order of energy. *)
Definition levels_sorted (s : NucDecaySystem.t) : Prop :=
  forall i j li lj, (i <= j)%nat ->
    NucDecaySystem.levels s !! i = Some li ->
    NucDecaySystem.levels s !! j = Some lj ->
    NucLevel.E li <= NucLevel.E lj.

(** [levelIndex] maps the name of each level to its position, and nothing
    else. *)
Definition index_ok (s : NucDecaySystem.t) : Prop :=
  forall nm i,
    NucDecaySystem.levelIndex s !! nm = Some i <->
    exists l, NucDecaySystem.levels s !! i = Some l /\ NucLevel.name l = nm.

(** The object [addTransition(T)] stores, and the system it leaves, for a
    transition between the levels [lfrom] and [lto]. *)
Definition stored (lto : NucLevel.t) (T : TransitionBase.t) : TransitionBase.t :=
  TransitionBase.set_toAtom T (NucLevel.Z lto).

(** The level at position [i] once [I] has gone from level [f] to level
    [t_]. *)
Definition bump (I : Qc) (f t_ i : nat) (l : NucLevel.t) : NucLevel.t :=
  let l1 := if decide (i = f) then NucLevel.set_fluxOut l (NucLevel.fluxOut l + I) else l in
  if decide (i = t_) then NucLevel.set_fluxIn l1 (NucLevel.fluxIn l1 + I) else l1.

Definition add_flux (I : Qc) (f t_ : nat) (ls : list NucLevel.t) : list NucLevel.t :=
  let ls := alter (fun l => NucLevel.set_fluxOut l (NucLevel.fluxOut l + I)) f ls in
  alter (fun l => NucLevel.set_fluxIn l (NucLevel.fluxIn l + I)) t_ ls.

Definition after_addTransition (s : NucDecaySystem.t) (atoms' : gmap nat DecayAtom.t)
    (lto : NucLevel.t) (T : TransitionBase.t) : NucDecaySystem.t :=
  let tid := length (NucDecaySystem.transitions s) in
  let f := TransitionBase.from T in
  let t_ := TransitionBase.to T in
  NucDecaySystem.mk
    (NucDecaySystem.BEL s)
    (add_flux (TransitionBase.Itotal T) f t_ (NucDecaySystem.levels s))
    (NucDecaySystem.levelIndex s)
    atoms'
    (NucDecaySystem.transitions s ++ [stored lto T])
    (alter (fun l => l ++ [tid]) t_ (NucDecaySystem.transIn s))
    (alter (fun l => l ++ [tid]) f (NucDecaySystem.transOut s))
    (alter (fun ld => PSelector.addProb ld (TransitionBase.Itotal T)) f
           (NucDecaySystem.levelDecays s))
    (NucDecaySystem.lStart s)
    (NucDecaySystem.tcut s).

(** The atoms after [getAtom(Z)]. *)
Definition atoms_with (s : NucDecaySystem.t) (Z : nat) (B : BindingEnergyTable)
    : gmap nat DecayAtom.t :=
  match NucDecaySystem.atoms s !! Z with
  | Some _ => NucDecaySystem.atoms s
  | None => <[Z := DecayAtom.make B]> (NucDecaySystem.atoms s)
  end.

(** What the constructor maintains while it adds transitions, and what
    every later operation keeps. *)
Record built (s : NucDecaySystem.t) : Prop := {
  bt_graph : graph_ok s;
  bt_balanced : balanced s;
  bt_sorted : levels_sorted s;
  bt_index : index_ok s;
}.

(** [T->scale(k)] when it is defined. *)
Definition scaled (k : Qc) (T : TransitionBase.t) : TransitionBase.t :=
  let T := TransitionBase.set_Itotal T (TransitionBase.Itotal T * k) in
  match TransitionBase.kind T with
  | TransitionBase.Gamma g =>
      let g := ConversionGamma.set_Igamma g (ConversionGamma.Igamma g / k) in
      let g := ConversionGamma.set_shells g
                 (PSelector.scale (ConversionGamma.shells g) k) in
      TransitionBase.set_kind T (TransitionBase.Gamma g)
  | _ => T
  end.

(** The level a well-formed [level] record makes. *)
Definition level_of (m : LevelRec) : NucLevel.t :=
  NucLevel.mk (lv_nm m)
    (List.nth 0 (lv_nm_fields m) 0%nat) (List.nth 1 (lv_nm_fields m) 0%nat)
    (List.nth 2 (lv_nm_fields m) 0%nat)
    (lv_E m) (if decide (lv_hl m < 0) then DBL_MAX else lv_hl m) (lv_jpi m) 0 0.

(** The system before any transition is added. *)
Record fresh (s : NucDecaySystem.t) : Prop := {
  fr_transitions : NucDecaySystem.transitions s = [];
  fr_transIn :
    NucDecaySystem.transIn s = replicate (length (NucDecaySystem.levels s)) [];
  fr_transOut :
    NucDecaySystem.transOut s = replicate (length (NucDecaySystem.levels s)) [];
  fr_levelDecays :
    NucDecaySystem.levelDecays s
    = replicate (length (NucDecaySystem.levels s)) PSelector.new;
  fr_flux : forall l, l ∈ NucDecaySystem.levels s ->
    NucLevel.fluxOut l = 0 /\ NucLevel.fluxIn l = 0;
  fr_levelIndex : NucDecaySystem.levelIndex s = ∅;
}.

(** The levels once numbered. *)
Definition numbered (ls : list NucLevel.t) : list NucLevel.t :=
  imap (fun i l => NucLevel.set_n l i) ls.

(** The order [sortLevels] sorts into. *)
Definition E_le (a b : NucLevel.t) : Prop := NucLevel.E a <= NucLevel.E b.

(** [levelIndex] after the first [k] levels are numbered. *)
Definition index_rel (ls : list NucLevel.t) (k : nat) (m : gmap string nat) : Prop :=
  forall nm i, m !! nm = Some i <->
    (i < k)%nat /\ exists l, ls !! i = Some l /\ NucLevel.name l = nm.


(** What no operation after the numbering changes in a level. *)
Definition level_static (l : NucLevel.t)
    : string * nat * nat * nat * Qc * Qc :=
  (NucLevel.name l, NucLevel.A l, NucLevel.Z l, NucLevel.n l, NucLevel.E l,
   NucLevel.hl l).

(** [s'] comes from [s] by operations that keep the levels, their index
    and the binding-energy library, and never remove an atom. *)
Record kept (s s' : NucDecaySystem.t) : Prop := {
  k_BEL : NucDecaySystem.BEL s' = NucDecaySystem.BEL s;
  k_levelIndex : NucDecaySystem.levelIndex s' = NucDecaySystem.levelIndex s;
  k_levels :
    level_static <$> NucDecaySystem.levels s'
    = level_static <$> NucDecaySystem.levels s;
  k_atoms : forall Z, is_Some (NucDecaySystem.atoms s !! Z) ->
                      is_Some (NucDecaySystem.atoms s' !! Z);
}.

(** Intensities are not negative; the shell selector of a conversion
    gamma is well formed and sums to the [Itotal] of the transition; every
    subshell selector has a positive total. *)
Definition sane_T (T : TransitionBase.t) : Prop :=
  0 <= TransitionBase.Itotal T
  /\ match TransitionBase.kind T with
     | TransitionBase.Gamma g =>
         PSelector.wf (ConversionGamma.shells g)
         /\ PSelector.getCumProb (ConversionGamma.shells g) = TransitionBase.Itotal T
         /\ Forall (fun ss => 0 < PSelector.getCumProb ss) (ConversionGamma.subshells g)
     | _ => True
     end.

Definition sane (s : NucDecaySystem.t) : Prop :=
  Forall sane_T (NucDecaySystem.transitions s)
  /\ Forall (fun l => 0 <= NucLevel.fluxIn l) (NucDecaySystem.levels s).

(** ** The input of the constructor *)

(** What a level keeps of its record. *)
Definition lv_static (l : NucLevel.t) : string * nat * nat * Qc :=
  (NucLevel.name l, NucLevel.A l, NucLevel.Z l, NucLevel.E l).

(** The level names of the input, and the level names its transition
    records refer to (["AUTO"] as the [to] of an electron capture is no
    reference). *)
Definition level_names (Q : SMFile) : list string := lv_nm <$> sm_level Q.

Definition ecapt_refs (ec : ECaptRec) : list string :=
  if decide (e_to ec = "AUTO") then [e_from ec] else [e_from ec; e_to ec].

Definition referenced (Q : SMFile) : list string :=
  (sm_gamma Q ≫= fun g => [g_from g; g_to g])
  ++ (sm_beta Q ≫= fun b => [b_from b; b_to b])
  ++ (sm_ecapt Q ≫= ecapt_refs).

(** What a system under construction has of its input. *)
Record from_input (Q : SMFile) (B : BindingEnergyLibrary) (s : NucDecaySystem.t)
    : Prop := {
  fi_built : built s;
  fi_BEL : NucDecaySystem.BEL s = B;
  fi_levels :
    lv_static <$> NucDecaySystem.levels s ≡ₚ lv_static <$> (level_of <$> sm_level Q);
}.

(** A well-formed input: level names with three fields, no two alike;
    every referenced level exists; the binding-energy library knows the
    element of every level and of every [AugerK] record; no [AugerK]
    record has [Z = 0] or an empty key; an electron capture with an
    explicit destination goes one element down, at the same mass number,
    to a lower energy. *)
Record well_formed (Q : SMFile) (B : BindingEnergyLibrary) : Prop := {
  wfi_fields : Forall (fun m => length (lv_nm_fields m) = 3%nat) (sm_level Q);
  wfi_unique : NoDup (level_names Q);
  wfi_refs : forall nm, nm ∈ referenced Q -> nm ∈ level_names Q;
  wfi_BEL : forall m, m ∈ sm_level Q -> is_Some (B (NucLevel.Z (level_of m)));
  wfi_auger : forall a, a ∈ sm_AugerK Q ->
    a_Z a <> 0%nat /\ is_Some (B (a_Z a))
    /\ Forall (fun kv => (0 < String.length (fst kv))%nat) (a_dat a);
  wfi_ecapt : forall ec, ec ∈ sm_ecapt Q -> e_to ec <> "AUTO" ->
    forall mf mt, mf ∈ sm_level Q -> mt ∈ sm_level Q ->
      lv_nm mf = e_from ec -> lv_nm mt = e_to ec ->
      NucLevel.A (level_of mt) = NucLevel.A (level_of mf)
      /\ (NucLevel.Z (level_of mt) + 1)%nat = NucLevel.Z (level_of mf)
      /\ NucLevel.E (level_of mt) < NucLevel.E (level_of mf);
}.

(** The value an exception carries. *)
Definition carried (e : SMExcept) : option string :=
  match e with
  | UnknownLevel nm => Some nm
  | BadAugerZ _ => None
  | MissingElement _ => None
  | AssertionFailure _ => None
  end.

(** The system after the levels are loaded, sorted and numbered, for the
    index [m]; and the steps of the constructor that lead there. *)
Definition with_levels (Q : SMFile) (B : BindingEnergyLibrary) (m : gmap string nat)
    : NucDecaySystem.t :=
  let N := length (sm_level Q) in
  NucDecaySystem.mk B
    (numbered (NucDecaySystem.sort_levels (level_of <$> sm_level Q))) m ∅ []
    (replicate N []) (replicate N []) (replicate N PSelector.new) PSelector.new 0.

Definition levels_step (Q : SMFile) (B : BindingEnergyLibrary)
    : outcome NucDecaySystem.t :=
  let s := NucDecaySystem.mk B [] ∅ ∅ [] [] [] [] PSelector.new 0 in
  let! s := NucDecaySystem.load_levels s (sm_level Q) in
  let s := NucDecaySystem.set_levels s
             (NucDecaySystem.sort_levels (NucDecaySystem.levels s)) in
  NucDecaySystem.index_levels s.

(** An input whose intensities make sense: none is negative, and the
    subshell ratios of every conversion shell have a positive sum. *)
Definition Qc_sum (l : list Qc) : Qc := fold_right Qcplus 0 l.

Definition sane_shell (sh : ShellRec) : Prop :=
  0 <= ce_x sh
  /\ match ce_subshells sh with
     | None => True
     | Some l => Forall (fun w => 0 <= w) l /\ 0 < Qc_sum l
     end.

Definition sane_gamma (g : GammaRec) : Prop :=
  0 <= g_Igamma g /\ Forall sane_shell (g_CE g).

Record sane_input (Q : SMFile) : Prop := {
  si_gamma : Forall sane_gamma (sm_gamma Q);
  si_beta : Forall (fun b => 0 <= b_I b) (sm_beta Q);
  si_ecapt : Forall (fun ec => 0 <= e_I ec) (sm_ecapt Q);
}.

(** The shape [add_gamma] and [add_beta] share: two names are resolved and
    a transition between the two levels is added. *)
Definition link (s : NucDecaySystem.t) (nmf nmt : string)
    (mkT : nat -> nat -> NucLevel.t -> NucLevel.t -> TransitionBase.t)
    : outcome NucDecaySystem.t :=
  let! f := NucDecaySystem.levIndex s nmf in
  let! t_ := NucDecaySystem.levIndex s nmt in
  let! lf := idx (NucDecaySystem.levels s) f in
  let! lt := idx (NucDecaySystem.levels s) t_ in
  NucDecaySystem.addTransition s (mkT f t_ lf lt).

(** The transitions the constructor makes of a [gamma], a [beta] and an
    [ecapt] record. *)
Definition gamma_T (g : GammaRec) (f t_ : nat) (lf lt : NucLevel.t) : TransitionBase.t :=
  let cg := ConversionGamma.make lf lt g in
  TransitionBase.set_Itotal
    (TransitionBase.make f t_ (TransitionBase.Gamma (fst cg))) (snd cg).

Definition beta_T (TF1_Quantiles : BetaSpectrumGenerator -> Qc -> Qc) (bt : BetaRec)
    (f t_ : nat) (lf lt : NucLevel.t) : TransitionBase.t :=
  let BD := BetaDecayTrans.make TF1_Quantiles lf lt (b_positron bt) (b_forbidden bt) in
  let BD :=
    if bool_decide (is_Some (b_M2_F bt) \/ is_Some (b_M2_GT bt)) then
      let g := BetaDecayTrans.BSG BD in
      BetaDecayTrans.set_BSG BD
        (mkBSG (bsg_A g) (bsg_Z g) (bsg_EP g) (bsg_forbidden g)
               (default 0 (b_M2_F bt)) (default 0 (b_M2_GT bt)))
    else BD in
  TransitionBase.set_Itotal
    (TransitionBase.make f t_ (TransitionBase.Beta BD)) (b_I bt / Q2Qc 100%Q).

Definition ecapt_T (I : Qc) (f t_ : nat) : TransitionBase.t :=
  TransitionBase.set_Itotal
    (TransitionBase.make f t_ (TransitionBase.ECapt ECapture.make)) I.

(** The ways a transition record between the levels named [nmf] and [nmt]
    can fail: one of the names is unknown, or the binding-energy library
    does not know the element of a level. *)
Definition link_error (Q : SMFile) (B : BindingEnergyLibrary) (nmf nmt : string)
    (e : SMExcept) : Prop :=
  (e = UnknownLevel nmf /\ nmf ∉ level_names Q)
  \/ (e = UnknownLevel nmt /\ nmt ∉ level_names Q)
  \/ (exists m, m ∈ sm_level Q /\ e = MissingElement (NucLevel.Z (level_of m))
        /\ B (NucLevel.Z (level_of m)) = None).

(** The binding-energy library knows the element of every level. *)
Definition BEL_covers (Q : SMFile) (B : BindingEnergyLibrary) : Prop :=
  forall m, m ∈ sm_level Q -> is_Some (B (NucLevel.Z (level_of m))).

(** What a step of the constructor owes, for a record that refers to the
    level names [refs] and is well formed when [wfx] holds and sane when
    [sanex] holds: a step that ends keeps the invariants and has found its
    names; a step that throws carries no name or a referenced, unknown
    one, and the record was not well formed. *)
Definition step_post (Q : SMFile) (B : BindingEnergyLibrary)
    (refs : list string) (wfx sanex : Prop)
    (s : NucDecaySystem.t) (o : outcome NucDecaySystem.t) : Prop :=
  match o with
  | Done s' =>
      from_input Q B s' /\ kept s s'
      /\ (forall nm, nm ∈ refs -> nm ∈ level_names Q)
      /\ (sanex -> sane s -> sane s')
  | Raise e =>
      (forall nm, carried e = Some nm -> nm ∈ refs /\ nm ∉ level_names Q)
      /\ ~ wfx
  | Undefined => True
  | Unbounded => False
  end.

(** A system as the constructor leaves it and every later operation keeps
    it. *)
Record ready (s : NucDecaySystem.t) : Prop := {
  rd_built : built s;
  rd_decays : decays_synced s;
  rd_start : start_synced s;
}.

(** The steps of the constructor between the numbering of the levels and
    the final [setCutoff]. *)
Definition transitions_step (q : BetaSpectrumGenerator -> Qc -> Qc) (Q : SMFile)
    (s : NucDecaySystem.t) : outcome NucDecaySystem.t :=
  let! s := NucDecaySystem.add_gammas s (sm_gamma Q) in
  let! s := NucDecaySystem.normalise s (sm_norm_gamma Q) in
  let! s := NucDecaySystem.add_ICEK s in
  let! s := NucDecaySystem.load_augers s (sm_AugerK Q) in
  let! s := NucDecaySystem.add_betas q s (sm_beta Q) in
  NucDecaySystem.add_ecapts s (sm_ecapt Q).

(** ** Chain generation *)

(** What chain generation never writes in a transition: everything but
    the outcome of its last firing ([shell], [subshell], [isKCapt]). *)
Definition static_kind (k : TransitionBase.variant) : TransitionBase.variant :=
  match k with
  | TransitionBase.Gamma g =>
      TransitionBase.Gamma (ConversionGamma.set_shell (ConversionGamma.set_subshell g 0) 0)
  | TransitionBase.Beta b => TransitionBase.Beta b
  | TransitionBase.ECapt _ => TransitionBase.ECapt (ECapture.mk false)
  end.

Definition static_T (T : TransitionBase.t) : TransitionBase.t :=
  TransitionBase.set_kind T (static_kind (TransitionBase.kind T)).

(** [s'] is [s] after some chain generation: the graph, the selectors and
    the cutoff are those of [s], atoms were only added, and the
    transitions differ by the outcome of their last firing at most. *)
Record evolves (s s' : NucDecaySystem.t) : Prop := {
  ev_BEL : NucDecaySystem.BEL s' = NucDecaySystem.BEL s;
  ev_levels : NucDecaySystem.levels s' = NucDecaySystem.levels s;
  ev_levelIndex : NucDecaySystem.levelIndex s' = NucDecaySystem.levelIndex s;
  ev_atoms : forall Z a, NucDecaySystem.atoms s !! Z = Some a ->
                         NucDecaySystem.atoms s' !! Z = Some a;
  ev_transitions :
    static_T <$> NucDecaySystem.transitions s'
    = static_T <$> NucDecaySystem.transitions s;
  ev_transIn : NucDecaySystem.transIn s' = NucDecaySystem.transIn s;
  ev_transOut : NucDecaySystem.transOut s' = NucDecaySystem.transOut s;
  ev_levelDecays : NucDecaySystem.levelDecays s' = NucDecaySystem.levelDecays s;
  ev_lStart : NucDecaySystem.lStart s' = NucDecaySystem.lStart s;
  ev_tcut : NucDecaySystem.tcut s' = NucDecaySystem.tcut s;
}.

(** The transitions fired and the number of calls of [genDecayChain], as
    a trace records them. *)
Definition fired (tr : list mark) : list nat :=
  omap (fun m => match m with Firing T => Some T | _ => None end) tr.

Definition entered (tr : list mark) : nat :=
  length (omap (fun m => match m with Entering n => Some n | _ => None end) tr).

Definition selected_on (tr : list mark) : list (list Qc) :=
  omap (fun m => match m with Selecting c => Some c | _ => None end) tr.

(** [Ts] is a walk down the graph from level [n]: each transition leaves
    the level the one before it reached. *)
Fixpoint is_path (s : NucDecaySystem.t) (n : nat) (Ts : list nat) : Prop :=
  match Ts with
  | [] => True
  | T :: rest =>
      exists tout tb,
        NucDecaySystem.transOut s !! n = Some tout /\ T ∈ tout
        /\ NucDecaySystem.transitions s !! T = Some tb
        /\ is_path s (TransitionBase.to tb) rest
  end.

(** The number of slots of the caller's array a walk steps over: the sum
    of [getNDF()] over its transitions. *)
Definition NDF_of (s : NucDecaySystem.t) (T : nat) : nat :=
  match NucDecaySystem.transitions s !! T with
  | Some tb => TransitionBase.getNDF tb
  | None => 0
  end.

Definition advance (s : NucDecaySystem.t) (Ts : list nat) : nat :=
  foldr (fun T acc => (NDF_of s T + acc)%nat) 0%nat Ts.

(** Every transition goes to a level of strictly lower energy. *)
Definition downhill (s : NucDecaySystem.t) : Prop :=
  forall T tb lf lt,
    NucDecaySystem.transitions s !! T = Some tb ->
    NucDecaySystem.levels s !! TransitionBase.from tb = Some lf ->
    NucDecaySystem.levels s !! TransitionBase.to tb = Some lt ->
    NucLevel.E lt < NucLevel.E lf.

(** ** Example data *)

(** A binding-energy library that knows every element, with every
    subshell bound by one unit; and a quantile function for beta spectra. *)
Definition example_BEL : BindingEnergyLibrary :=
  fun Z => Some (mkBET Z (fun _ _ => 1)).

Definition example_quantiles : BetaSpectrumGenerator -> Qc -> Qc :=
  fun g x => x * bsg_EP g.

(** A three-level cascade in nickel 60, top -> middle -> ground, the first
    gamma with one conversion shell, and an [AugerK] record for Z = 28. *)
Definition cascade_input : SMFile :=
  mkSMFile
    [ mkLevelRec "60.28.2" [60; 28; 2]%nat (Q2Qc 2505%Q) (Q2Qc (1 # 1000)) "4+";
      mkLevelRec "60.28.0" [60; 28; 0]%nat 0 (Q2Qc (-1)%Q) "0+";
      mkLevelRec "60.28.1" [60; 28; 1]%nat (Q2Qc 1332%Q) (Q2Qc (1 # 1000)) "2+" ]
    [ mkGammaRec "60.28.2" "60.28.1" (Q2Qc 100%Q) [mkShellRec 1 0 None];
      mkGammaRec "60.28.1" "60.28.0" (Q2Qc 100%Q) [] ]
    "none"
    [ mkAugerRec 28
        [("Iauger", Q2Qc 50%Q); ("Z", Q2Qc 28%Q); ("ka1", Q2Qc 50%Q)] (Q2Qc 50%Q) ]
    [] [].


(** The system built from the cascade, with cutoff 1; [cascade_empty] is
    what stands in for it were the constructor to fail. *)
Definition cascade_empty : NucDecaySystem.t :=
  NucDecaySystem.mk example_BEL [] ∅ ∅ [] [] [] [] PSelector.new 0.

Definition cascade : NucDecaySystem.t :=
  match NucDecaySystem.make example_quantiles cascade_input example_BEL 1 with
  | Done s => s
  | _ => cascade_empty
  end.

(** [w'] is [w] after some steps of chain generation that fired no
    transition: the system evolved, and [select] was called on selectors
    that satisfy [P] (given by their cumulative weights). *)
Definition picks (P : list Qc -> Prop) (w w' : World NucDecaySystem.t) : Prop :=
  evolves (sys w) (sys w')
  /\ exists cs, trace w' = trace w ++ (Selecting <$> cs) /\ Forall P cs.

(** The selectors [run] calls [select] on: the shells of a conversion
    gamma and the subshells of one of its shells. *)
Definition run_pick (tb : TransitionBase.t) (c : list Qc) : Prop :=
  match TransitionBase.kind tb with
  | TransitionBase.Gamma g =>
      c = PSelector.cumprob (ConversionGamma.shells g)
      \/ exists ss, ss ∈ ConversionGamma.subshells g /\ c = PSelector.cumprob ss
  | _ => False
  end.

(** [m], run in [w], comes to an end having fired no transition and
    called [select] on selectors that satisfy [P] only; when it returns a
    value, [R] holds of the value and the world it leaves. *)
Definition quiet {A : Type} (P : list Qc -> Prop)
    (R : A -> World NucDecaySystem.t -> Prop)
    (m : M NucDecaySystem.t A) (w : World NucDecaySystem.t) : Prop :=
  exists o w',
    m w = (o, w') /\ picks P w w' /\ o <> Unbounded
    /\ forall a, o = Done a -> R a w'.

(** A call of [select] on a selector of positive total. *)
Definition mark_ok (m : mark) : Prop :=
  match m with
  | Selecting c => 0 < PSelector.back c
  | _ => True
  end.

(** [genDecayChain] once the start level [n] is known ([init] tells
    whether it was drawn from [lStart]); [rec] is the recursive call. *)
Definition chain_body (rec : option nat -> nat -> M NucDecaySystem.t unit)
    (rnd : option nat) (s : NucDecaySystem.t) (init : bool) (n : nat)
    : M NucDecaySystem.t unit :=
  lev <- lift (idx (NucDecaySystem.levels s) n) ;;
  if bool_decide (NucLevel.fluxOut lev = 0)
     || (negb init && bool_decide (NucDecaySystem.tcut s < NucLevel.hl lev))
  then ret tt
  else
    ld <- lift (idx (NucDecaySystem.levelDecays s) n) ;;
    k <- PSelector.select ld rnd ;;
    tout <- lift (idx (NucDecaySystem.transOut s) n) ;;
    T <- lift (idx tout k) ;;
    note (Firing T) ;;;
    NucDecaySystem.run T rnd ;;;
    tb <- NucDecaySystem.the_transition T ;;
    let rnd := (fun r => r + TransitionBase.getNDF tb)%nat <$> rnd in
    let nAugerK := TransitionBase.nVacant tb 0 in
    NucDecaySystem.repeat_ nAugerK
      (s <- get_sys ;;
       lto <- lift (idx (NucDecaySystem.levels s) (TransitionBase.to tb)) ;;
       s <- lift (NucDecaySystem.getAtom s (NucLevel.Z lto)) ;;
       put_sys s ;;;
       NucDecaySystem.genAuger (NucLevel.Z lto)) ;;;
    s <- get_sys ;;
    lto <- lift (idx (NucDecaySystem.levels s) (TransitionBase.to tb)) ;;
    rec rnd (NucLevel.n lto).

(** What the marks [new] of a call of [genDecayChain] at level [n] with
    [fuel] nested calls allowed, of outcome [o], tell: the calls number
    the firings plus one at most, and exactly so when the call returns;
    the call runs out of fuel only after [fuel] firings; the transitions
    fired are a walk down from the start level, which is [n] when [n] is a
    level and else a level of positive start weight; and, in a sane system
    whose start selector has a positive total, every selector [select] was
    called on has a positive total. *)
Record chain_facts (s : NucDecaySystem.t) (fuel n : nat) (o : outcome unit)
    (new : list mark) : Prop := {
  cf_entered : (entered new <= S (length (fired new)))%nat;
  cf_done : o = Done tt -> entered new = S (length (fired new));
  cf_unbounded : o = Unbounded -> (fuel <= length (fired new))%nat;
  cf_path : exists n0,
    ((n < length (NucDecaySystem.levels s))%nat -> n0 = n)
    /\ ((length (NucDecaySystem.levels s) <= n)%nat -> fired new <> [] ->
        0 < PSelector.weight (NucDecaySystem.lStart s) n0)
    /\ is_path s n0 (fired new);
  cf_marks : sane s -> 0 < PSelector.getCumProb (NucDecaySystem.lStart s) ->
             Forall mark_ok new;
}.

Definition chain_post (fuel n : nat) (w : World NucDecaySystem.t)
    (r : outcome unit * World NucDecaySystem.t) : Prop :=
  evolves (sys w) (sys r.2)
  /\ exists new, trace r.2 = trace w ++ new /\ chain_facts (sys w) fuel n r.1 new.

(** The same for [chain_body] at the level [n0], where the nested calls
    have [fuel]. *)
Record body_facts (s : NucDecaySystem.t) (fuel n0 : nat) (o : outcome unit)
    (new : list mark) : Prop := {
  bf_entered : (entered new <= length (fired new))%nat;
  bf_done : o = Done tt -> entered new = length (fired new);
  bf_unbounded : o = Unbounded -> (fuel < length (fired new))%nat;
  bf_path : is_path s n0 (fired new);
  bf_marks : sane s -> 0 < PSelector.getCumProb (NucDecaySystem.lStart s) ->
             Forall mark_ok new;
}.

Definition body_post (fuel n0 : nat) (w : World NucDecaySystem.t)
    (r : outcome unit * World NucDecaySystem.t) : Prop :=
  evolves (sys w) (sys r.2)
  /\ exists new, trace r.2 = trace w ++ new /\ body_facts (sys w) fuel n0 r.1 new.

(** Steps that call [select] on selectors of positive total only, in a
    sane system. *)
Definition sound_picks (s : NucDecaySystem.t) (c : list Qc) : Prop :=
  sane s -> 0 < PSelector.back c.

(** What [scale(k)] leaves. *)
Definition after_scale (s : NucDecaySystem.t) (k : Qc) : NucDecaySystem.t :=
  NucDecaySystem.mk
    (NucDecaySystem.BEL s)
    ((fun l => NucLevel.scale l k) <$> NucDecaySystem.levels s)
    (NucDecaySystem.levelIndex s) (NucDecaySystem.atoms s)
    (scaled k <$> NucDecaySystem.transitions s)
    (NucDecaySystem.transIn s) (NucDecaySystem.transOut s)
    ((fun ld => PSelector.scale ld k) <$> NucDecaySystem.levelDecays s)
    (PSelector.scale (NucDecaySystem.lStart s) k)
    (NucDecaySystem.tcut s).

(** The systems a caller can hold: what the constructor returns, and what
    [setCutoff], [scale] and [genDecayChain] leave of such a system. *)
Inductive constructed : NucDecaySystem.t -> Prop :=
  | constructed_make q Q B tc s :
      NucDecaySystem.make q Q B tc = Done s -> constructed s
  | constructed_setCutoff s tc s' :
      constructed s -> NucDecaySystem.setCutoff s tc = Done s' -> constructed s'
  | constructed_scale s k s' :
      constructed s -> NucDecaySystem.scale s k = Done s' -> constructed s'
  | constructed_chain fuel rnd n (w : World NucDecaySystem.t) o w' :
      constructed (sys w) ->
      NucDecaySystem.genDecayChain fuel rnd n w = (o, w') -> constructed (sys w').

(** The same, from an input without negative intensities and with
    positive scale factors only: the weights handed to [addProb] are never
    negative. *)
Inductive constructed_sane : NucDecaySystem.t -> Prop :=
  | sane_make q Q B tc s :
      sane_input Q -> NucDecaySystem.make q Q B tc = Done s -> constructed_sane s
  | sane_setCutoff s tc s' :
      constructed_sane s -> NucDecaySystem.setCutoff s tc = Done s' ->
      constructed_sane s'
  | sane_scale s k s' :
      constructed_sane s -> 0 < k -> NucDecaySystem.scale s k = Done s' ->
      constructed_sane s'
  | sane_chain fuel rnd n (w : World NucDecaySystem.t) o w' :
      constructed_sane (sys w) ->
      NucDecaySystem.genDecayChain fuel rnd n w = (o, w') ->
      constructed_sane (sys w').


(** The cascade again, with the intensities normalised to the flux into
    the ground state; and the system built from it. *)
Definition normalised_input : SMFile :=
  mkSMFile (sm_level cascade_input) (sm_gamma cascade_input) "groundstate"
    (sm_AugerK cascade_input) (sm_beta cascade_input) (sm_ecapt cascade_input).

Definition normalised : NucDecaySystem.t :=
  match NucDecaySystem.make example_quantiles normalised_input example_BEL 1 with
  | Done s => s
  | _ => cascade_empty
  end.

(** A world around the cascade: the ambient source returns [u] at every
    draw, the caller's array is [buf], the output vector is empty. *)
Definition cascade_world (u : Qc) (buf : list Qc) : World NucDecaySystem.t :=
  mkworld cascade (mkrandom (fun _ => u) 0) 0 buf [] [].

Definition half : Qc := Q2Qc (1 # 2).

Definition cascade_buffer : list Qc :=
  [Q2Qc (1 # 4); half; Q2Qc (1 # 3); half; Q2Qc (3 # 4); half].

(** Two worlds a call cannot tell apart: the same system, the same state
    of the ambient source, the same array of uniform values and the same
    output vector.  ([rnd_tmp] is written before it is read, and no code
    reads the trace.) *)
Record same_inputs (w1 w2 : World NucDecaySystem.t) : Prop := {
  si_sys : sys w1 = sys w2;
  si_gRandom : gRandom w1 = gRandom w2;
  si_mem : mem w1 = mem w2;
  si_v : v w1 = v w2;
}.

Definition respects {A : Type} (m : M NucDecaySystem.t A) : Prop :=
  forall w1 w2, same_inputs w1 w2 ->
    (m w1).1 = (m w2).1 /\ same_inputs (m w1).2 (m w2).2.

(** [downhill], as a check on the transitions one by one. *)
Definition downhillb (s : NucDecaySystem.t) : bool :=
  forallb (fun tb =>
             match NucDecaySystem.levels s !! TransitionBase.from tb,
                   NucDecaySystem.levels s !! TransitionBase.to tb with
             | Some lf, Some lt => bool_decide (NucLevel.E lt < NucLevel.E lf)
             | _, _ => true
             end)
          (NucDecaySystem.transitions s).

(** [m] never leaves a world that [I] does not relate to the one it
    started in. *)
Definition keeps {A : Type}
    (I : World NucDecaySystem.t -> World NucDecaySystem.t -> Prop)
    (m : M NucDecaySystem.t A) : Prop :=
  forall w, I w (m w).2.

(** Every pointer [rnd] can be is one of [ok]. *)
Definition ok_ptr (ok : nat -> Prop) (rnd : option nat) : Prop :=
  forall r, rnd = Some r -> ok r.

(** An electron capture from the top level of the cascade to its ground
    state, of intensity 1. *)
Definition example_capture : TransitionBase.t :=
  TransitionBase.set_Itotal
    (TransitionBase.make 2 0 (TransitionBase.ECapt ECapture.make)) 1.

(** The [AugerK] record of the cascade and a fresh nickel atom. *)
Definition example_auger : AugerRec :=
  mkAugerRec 28
    [("Iauger", Q2Qc 50%Q); ("Z", Q2Qc 28%Q); ("ka1", Q2Qc 50%Q)] (Q2Qc 50%Q).

Definition example_atom : DecayAtom.t := DecayAtom.make (mkBET 28 (fun _ _ => 1)).

(** A library over a directory that holds the cascade as [Ni60.txt], and
    nothing else. *)
Definition example_disk (fname : string) : option SMFile :=
  if decide (fname = "data/Ni60.txt") then Some cascade_input else None.

Definition example_library : NucDecayLibrary.t :=
  NucDecayLibrary.mk "data" 1 example_BEL ∅ ∅.





(** * Properties *)

(** ** Rational arithmetic *)

Lemma Qc_eq_Q (x y : Qc) : x = y <-> (this x == this y)%Q.
Proof. split; [intros ->; reflexivity | apply Qc_is_canon]. Qed.

(** Moves a goal over [Qc] to [Q], where [lra], [nra] and [field] work. *)
Ltac qc_to_q :=
  repeat match goal with
  | H : @eq Qc _ _ |- _ => apply Qc_eq_Q in H
  | H : ~ @eq Qc _ _ |- _ => rewrite Qc_eq_Q in H
  | |- @eq Qc _ _ => apply Qc_is_canon
  | |- ~ @eq Qc _ _ => rewrite Qc_eq_Q
  end;
  unfold Qcle, Qclt, Qcdiv, Qcminus, Qcopp, Qcinv, Qcplus, Qcmult in *;
  cbn [this Q2Qc] in *;
  repeat match goal with
  | H : context [Qred _] |- _ => rewrite !Qred_correct in H
  | |- context [Qred _] => rewrite !Qred_correct
  end.

(** ** PSelector: reading the cumulative weights *)

Section PSelectorFacts.
Import PSelector.

Lemma at_fmap_mul (l : list Qc) (k : Qc) (i : nat) :
  at_ ((fun p => p * k) <$> l) i = at_ l i * k.
Proof.
  unfold at_. revert i. induction l as [|c l IH]; intros [|i]; simpl; try done; ring.
Qed.

Lemma back_fmap_mul (l : list Qc) (k : Qc) :
  back ((fun p => p * k) <$> l) = back l * k.
Proof.
  unfold back. induction l as [|c l IH]; simpl; [ring|].
  destruct l as [|c' l]; [done|]. exact IH.
Qed.

Lemma back_at (l : list Qc) : back l = at_ l (length l - 1).
Proof.
  unfold back, at_. induction l as [|c l IH]; [done|].
  destruct l as [|c' l]; [done|].
  change (List.last (c :: c' :: l) 0) with (List.last (c' :: l) 0).
  rewrite IH. simpl. by rewrite Nat.sub_0_r.
Qed.

Lemma back_snoc (l : list Qc) (c : Qc) : back (l ++ [c]) = c.
Proof. unfold back. apply last_last. Qed.

Lemma upper_bound_le (l : list Qc) (x : Qc) : (upper_bound l x <= length l)%nat.
Proof. induction l as [|c l IH]; simpl; [lia|]. case_decide; lia. Qed.

Lemma upper_bound_before (l : list Qc) (x : Qc) (i : nat) :
  (i < upper_bound l x)%nat -> at_ l i <= x.
Proof.
  unfold at_. revert i. induction l as [|c l IH]; simpl; intros i Hi; [lia|].
  case_decide as Hc; [lia|].
  destruct i as [|i]; simpl.
  - qc_to_q. lra.
  - apply IH. lia.
Qed.

Lemma upper_bound_at (l : list Qc) (x : Qc) :
  (upper_bound l x < length l)%nat -> x < at_ l (upper_bound l x).
Proof.
  unfold at_. induction l as [|c l IH]; simpl; intros Hi; [lia|].
  case_decide as Hc; [done|]. apply IH. lia.
Qed.




Lemma wf_at_nonneg (s : t) (i : nat) :
  wf s -> (i < length (cumprob s))%nat -> 0 <= at_ (cumprob s) i.
Proof.
  intros [[l Hl] Hm] Hi. pose proof (Hm 0%nat i ltac:(lia)) as H.
  rewrite Hl in H at 1. exact H.
Qed.



End PSelectorFacts.

(** ** PSelector: selection, sweep and rescaling *)

Section PSelectorSelect.
Import PSelector.


Lemma wf_new : wf new.
Proof.
  split; [by exists []|]. intros i j Hij. simpl in Hij.
  replace i with 0%nat by lia. replace j with 0%nat by lia. by qc_to_q.
Qed.

Lemma at_snoc_old (l : list Qc) (c : Qc) (i : nat) :
  (i < length l)%nat -> at_ (l ++ [c]) i = at_ l i.
Proof. intros Hi. unfold at_. by rewrite app_nth1. Qed.

Lemma at_snoc_new (l : list Qc) (c : Qc) : at_ (l ++ [c]) (length l) = c.
Proof. unfold at_. by rewrite nth_middle. Qed.

Lemma wf_addProb (s : t) (p : Qc) : wf s -> 0 <= p -> wf (addProb s p).
Proof.
  intros [[l Hl] Hm] Hp. split.
  - exists (l ++ [p + back (cumprob s)]). unfold addProb; simpl. by rewrite Hl.
  - intros i j Hij. unfold addProb in *; cbn [cumprob] in *.
    rewrite length_app in Hij; simpl in Hij.
    assert (Hlen : (0 < length (cumprob s))%nat) by (rewrite Hl; simpl; lia).
    destruct (decide (j < length (cumprob s))%nat) as [Hj|Hj].
    + rewrite !at_snoc_old by lia. apply Hm. lia.
    + replace j with (length (cumprob s)) by lia. rewrite at_snoc_new.
      rewrite back_at.
      destruct (decide (i < length (cumprob s))%nat) as [Hi|Hi].
      * rewrite at_snoc_old by lia.
        pose proof (Hm i (length (cumprob s) - 1)%nat ltac:(lia)).
        qc_to_q. lra.
      * replace i with (length (cumprob s)) by lia. rewrite at_snoc_new.
        qc_to_q. lra.
Qed.

Lemma wf_scale (s : t) (k : Qc) : wf s -> 0 <= k -> wf (scale s k).
Proof.
  intros [[l Hl] Hm] Hk. split.
  - exists ((fun p => p * k) <$> l). unfold scale; simpl. rewrite Hl, fmap_cons.
    f_equal. ring.
  - intros i j Hij. unfold scale in *; cbn [cumprob] in *. rewrite length_fmap in Hij.
    rewrite !at_fmap_mul. pose proof (Hm i j Hij). qc_to_q. nra.
Qed.







Lemma scale_keeps_probabilities_total (s : t) (k : Qc) :
  getCumProb (scale s k) = getCumProb s * k.
Proof. unfold getCumProb, scale; cbn [cumprob]. apply back_fmap_mul. Qed.



End PSelectorSelect.

(** ** Loops *)

Section Loops.

Lemma ofold_seq_ind {A : Type} (f : A -> nat -> outcome A) (P : nat -> A -> Prop)
    (len start : nat) (a : A) :
  P start a ->
  (forall i a, (start <= i < start + len)%nat -> P i a ->
     exists a', f a i = Done a' /\ P (S i) a') ->
  exists a', ofold f (seq start len) a = Done a' /\ P (start + len)%nat a'.
Proof.
  revert start a. induction len as [|len IH]; intros start a Ha Hstep.
  - exists a. simpl. rewrite Nat.add_0_r. done.
  - simpl. destruct (Hstep start a ltac:(lia) Ha) as (a1 & Hf & Ha1).
    rewrite Hf. simpl.
    destruct (IH (S start) a1 Ha1) as (a' & Hfold & Ha').
    { intros i b Hi Hb. apply Hstep; [lia | done]. }
    exists a'. split; [done|]. by replace (start + S len)%nat with (S start + len)%nat by lia.
Qed.

Lemma ofold_Done_fold {A B : Type} (f : A -> B -> outcome A) (g : A -> B -> A)
    (l : list B) (a : A) :
  (forall a b, b ∈ l -> f a b = Done (g a b)) ->
  ofold f l a = Done (fold_left g l a).
Proof.
  revert a. induction l as [|b l IH]; intros a Hf; [done|].
  simpl. rewrite Hf by set_solver. simpl. apply IH. intros; apply Hf. set_solver.
Qed.

Lemma ofold_app {A B : Type} (f : A -> B -> outcome A) (l1 l2 : list B) (a : A) :
  ofold f (l1 ++ l2) a = let! a' := ofold f l1 a in ofold f l2 a'.
Proof.
  revert a. induction l1 as [|b l1 IH]; intros a; [done|].
  simpl. destruct (f a b); simpl; auto.
Qed.

(** A property every step keeps is kept by the loop, however it ends. *)
Lemma ofold_invariant {A B : Type} (f : A -> B -> outcome A) (P : A -> Prop)
    (l : list B) (a a' : A) :
  (forall a b a', b ∈ l -> P a -> f a b = Done a' -> P a') ->
  P a -> ofold f l a = Done a' -> P a'.
Proof.
  revert a. induction l as [|b l IH]; intros a Hf Ha Hfold.
  - simpl in Hfold. by injection Hfold as <-.
  - simpl in Hfold. destruct (f a b) as [a1| | |] eqn:E; simpl in Hfold; try done.
    apply (IH a1); [| |done].
    + intros; eapply Hf; [|done..]. set_solver.
    + eapply Hf; [|done..]. set_solver.
Qed.

Lemma take_S_insert {A : Type} (D L : list A) (k : nat) (x : A) :
  D !! k = Some x -> length L = length D ->
  <[k := x]> (take k D ++ drop k L) = take (S k) D ++ drop (S k) L.
Proof.
  intros Hk Hlen.
  assert (k < length D)%nat by (by eapply lookup_lt_Some).
  rewrite insert_app_r_alt by (rewrite length_take; lia).
  rewrite length_take. replace (k - k `min` length D)%nat with 0%nat by lia.
  assert (HS : drop (S k) L = drop 1 (drop k L))
    by (rewrite drop_drop; f_equal; lia).
  rewrite HS.
  destruct (drop k L) as [|y L'] eqn:E.
  { apply (f_equal length) in E. rewrite length_drop in E. simpl in E. lia. }
  simpl. rewrite (take_S_r _ _ x) by done. rewrite <- app_assoc. simpl.
  by rewrite drop_0.
Qed.

End Loops.

(** ** setCutoff *)

Section SetCutoff.
Import NucDecaySystem TransitionBase.

Lemma Itotal_of_lookup (s : NucDecaySystem.t) (tid : nat) (T : TransitionBase.t) :
  transitions s !! tid = Some T -> Itotal_of s tid = Itotal T.
Proof. intros H. unfold Itotal_of. by rewrite H. Qed.

(** [setCutoff] in closed form. *)
Lemma setCutoff_closed (s : NucDecaySystem.t) (tc : Qc) :
  graph_ok s -> setCutoff s tc = Done (after_setCutoff s tc).
Proof.
  intros G. unfold setCutoff.
  set (N := length (levels s)).
  set (D := decays_of s <$> transOut s).
  set (St := fun k : nat =>
    NucDecaySystem.mk (BEL s) (levels s) (levelIndex s) (atoms s) (transitions s)
       (transIn s) (transOut s)
       (take k D ++ drop k (levelDecays s))
       (fold_left PSelector.addProb (pStart_of s tc <$> seq 0 k) PSelector.new) tc).
  assert (HD : length D = N) by (unfold D; rewrite length_fmap; apply G).
  assert (HL : length (levelDecays s) = N) by apply G.
  cbn [levels set_lStart set_tcut].
  match goal with |- ofold ?f _ ?a0 = _ =>
    destruct (ofold_seq_ind f (fun k x => x = St k) N 0 a0) as (a' & Hfold & Ha')
  end.
  - unfold St, set_lStart, set_tcut; cbn. by rewrite take_0, drop_0.
  - intros k a [_ Hk] ->. simpl in Hk. fold N in Hk.
    assert (is_Some (transOut s !! k)) as [tout Htout]
      by (apply lookup_lt_is_Some; rewrite (g_transOut_len s G); done).
    assert (is_Some (transIn s !! k)) as [tin Htin]
      by (apply lookup_lt_is_Some; rewrite (g_transIn_len s G); done).
    assert (is_Some (levels s !! k)) as [lev Hlev]
      by (apply lookup_lt_is_Some; done).
    assert (HDk : D !! k = Some (decays_of s tout))
      by (unfold D; rewrite list_lookup_fmap, Htout; done).
    assert (is_Some ((take k D ++ drop k (levelDecays s)) !! k)) as [ld0 Hld0].
    { apply lookup_lt_is_Some. rewrite length_app, length_take, length_drop. lia. }
    unfold St. cbn [levelDecays transOut transitions transIn levels lStart tcut
                    BEL levelIndex atoms set_levelDecays set_lStart].
    unfold idx at 1. rewrite Hld0. cbn [obind].
    unfold idx at 1. rewrite Htout. cbn [obind].
    rewrite (ofold_Done_fold _ (fun ld tid => PSelector.addProb ld (Itotal_of s tid))).
    2:{ intros ld tid Hin. destruct (g_out s G k tout tid Htout Hin) as (T & HT & _).
        unfold idx. rewrite HT. cbn. by rewrite (Itotal_of_lookup s tid T). }
    cbn [obind]. fold (decays_of s tout).
    unfold idx at 1. rewrite Hlev. cbn [obind].
    assert (Hins : <[k := decays_of s tout]> (take k D ++ drop k (levelDecays s))
                   = take (S k) D ++ drop (S k) (levelDecays s))
      by (apply take_S_insert; [done | lia]).
    assert (Hp : forall p : Qc,
      p = pStart_of s tc k ->
      fold_left PSelector.addProb (pStart_of s tc <$> seq 0 (S k)) PSelector.new
      = PSelector.addProb
          (fold_left PSelector.addProb (pStart_of s tc <$> seq 0 k) PSelector.new) p).
    { intros p ->. by rewrite seq_S, fmap_app, fold_left_app. }
    unfold N in *. case_decide as Hc.
    + unfold idx at 1. rewrite Htin. cbn [obind].
      rewrite (ofold_Done_fold _ (fun p tid => p + Itotal_of s tid)).
      2:{ intros p tid Hin. destruct (g_in s G k tin tid Htin Hin) as (T & HT & _).
          unfold idx. rewrite HT. cbn. by rewrite (Itotal_of_lookup s tid T). }
      cbn [obind]. eexists. split; [reflexivity|].
      unfold set_lStart, set_levelDecays. cbn. rewrite Hins. f_equal.
      symmetry. apply Hp. unfold pStart_of. rewrite Hlev, Htout, Htin.
      destruct (decide (_ /\ _)) as [?|Hn]; [done | by destruct Hn].
    + cbn [obind]. eexists. split; [reflexivity|].
      unfold set_lStart, set_levelDecays. cbn. rewrite Hins. f_equal.
      symmetry. apply Hp. unfold pStart_of. rewrite Hlev, Htout, Htin.
      destruct (decide (_ /\ _)) as [?|Hn]; [by destruct Hc | done].
  - subst a'. etransitivity; [exact Hfold|]. unfold St, after_setCutoff. fold N D.
    do 2 f_equal. rewrite take_ge by lia. rewrite drop_ge by lia. apply app_nil_r.
Qed.

End SetCutoff.

(** ** addTransition *)

Section AddTransition.
Import NucDecaySystem TransitionBase.

Lemma idx_Some {A : Type} (l : list A) (i : nat) (x : A) :
  l !! i = Some x -> idx l i = Done x.
Proof. intros H. unfold idx. by rewrite H. Qed.

Lemma idx_Done {A : Type} (l : list A) (i : nat) (x : A) :
  idx l i = Done x -> l !! i = Some x.
Proof. unfold idx. by destruct (l !! i); intros [=->]. Qed.

Lemma alter_insert {A : Type} (f : A -> A) (l : list A) (i : nat) (x : A) :
  l !! i = Some x -> <[i := f x]> l = alter f i l.
Proof.
  revert i. induction l as [|y l IH]; intros [|i] H; simpl in *; try done.
  - by injection H as ->.
  - f_equal. by apply IH.
Qed.

Lemma getAtom_Done (s s' : NucDecaySystem.t) (Z : nat) :
  getAtom s Z = Done s' ->
  exists atoms', s' = set_atoms s atoms'
    /\ is_Some (atoms' !! Z)
    /\ (forall Z' a, atoms s !! Z' = Some a -> atoms' !! Z' = Some a).
Proof.
  unfold getAtom. destruct (atoms s !! Z) as [a|] eqn:Ha.
  - intros [= <-]. exists (atoms s). split; [by destruct s|]. split; [by rewrite Ha|done].
  - destruct (BEL s Z) as [B|]; [|done]. intros [= <-]. eexists. split; [done|].
    split; [by rewrite lookup_insert_eq|].
    intros Z' a Ha'. rewrite lookup_insert_ne; [done|]. intros ->. congruence.
Qed.

Lemma getAtom_progress (s : NucDecaySystem.t) (Z : nat) :
  is_Some (atoms s !! Z) \/ is_Some (BEL s Z) ->
  exists s', getAtom s Z = Done s'.
Proof.
  unfold getAtom. intros [[a Ha]|[B HB]].
  - rewrite Ha. eauto.
  - destruct (atoms s !! Z); [eauto|]. rewrite HB. eauto.
Qed.

Lemma getAtom_Raise (s : NucDecaySystem.t) (Z : nat) (e : SMExcept) :
  getAtom s Z = Raise e -> e = MissingElement Z /\ BEL s Z = None.
Proof.
  unfold getAtom. destruct (atoms s !! Z); [done|].
  destruct (BEL s Z); [done|]. by intros [= <-].
Qed.

(** [addTransition] in closed form, for a transition between two levels
    of a system whose levels carry their own position. *)
Lemma addTransition_Done (s s' : NucDecaySystem.t) (T : TransitionBase.t) :
  graph_ok s -> addTransition s T = Done s' ->
  exists lto atoms',
    levels s !! to T = Some lto
    /\ (from T < length (levels s))%nat
    /\ is_Some (atoms' !! NucLevel.Z lto)
    /\ (forall Z' a, atoms s !! Z' = Some a -> atoms' !! Z' = Some a)
    /\ s' = after_addTransition s atoms' lto T.
Proof.
  intros G. unfold addTransition.
  destruct (idx (levels s) (to T)) as [lto| | |] eqn:Hto; try done. cbn [obind].
  apply idx_Done in Hto.
  destruct (getAtom s (NucLevel.Z lto)) as [s1| | |] eqn:Hat; try done. cbn [obind].
  destruct (getAtom_Done _ _ _ Hat) as (atoms' & -> & Hin & Hmono).
  cbn [levels set_atoms transIn transOut levelDecays transitions set_transIn
       set_transOut set_levelDecays set_levels from to Itotal set_toAtom].
  rewrite (g_n s G _ _ Hto).
  destruct (idx (transIn s) (to T)) as [tin| | |] eqn:Htin; try done. cbn [obind].
  apply idx_Done in Htin.
  destruct (idx (levels s) (from T)) as [lfrom| | |] eqn:Hfrom; try done. cbn [obind].
  apply idx_Done in Hfrom. rewrite (g_n s G _ _ Hfrom).
  destruct (idx (transOut s) (from T)) as [tout| | |] eqn:Htout; try done. cbn [obind].
  apply idx_Done in Htout.
  destruct (idx (levelDecays s) (from T)) as [ld| | |] eqn:Hld; try done. cbn [obind].
  apply idx_Done in Hld.
  match goal with |- context [idx ?l (to T)] =>
    destruct (idx l (to T)) as [lto'| | |] eqn:Hto'; try done
  end.
  cbn [obind]. apply idx_Done in Hto'. intros [= <-].
  exists lto, atoms'. split; [done|]. split; [by eapply lookup_lt_Some|].
  split; [done|]. split; [done|].
  unfold after_addTransition, add_flux, stored, set_transitions. cbn.
  f_equal.
  - rewrite (alter_insert (fun l => NucLevel.set_fluxIn l (NucLevel.fluxIn l + Itotal T))
               _ _ lto') by done.
    f_equal.
    by apply (alter_insert (fun l => NucLevel.set_fluxOut l (NucLevel.fluxOut l + Itotal T))).
  - by apply (alter_insert (fun l => l ++ [length (transitions s)])).
  - by apply (alter_insert (fun l => l ++ [length (transitions s)])).
  - by apply (alter_insert (fun ld => PSelector.addProb ld (Itotal T))).
Qed.

Lemma addTransition_progress (s : NucDecaySystem.t) (T : TransitionBase.t) (lto : NucLevel.t) :
  graph_ok s -> (from T < length (levels s))%nat -> levels s !! to T = Some lto ->
  is_Some (atoms s !! NucLevel.Z lto) \/ is_Some (BEL s (NucLevel.Z lto)) ->
  exists s', addTransition s T = Done s'.
Proof.
  intros G Hf Hto Hat. unfold addTransition.
  rewrite (idx_Some _ _ _ Hto). cbn [obind].
  destruct (getAtom_progress s _ Hat) as (s1 & Hs1). rewrite Hs1. cbn [obind].
  destruct (getAtom_Done _ _ _ Hs1) as (atoms' & -> & _ & _).
  cbn [levels set_atoms transIn transOut levelDecays transitions set_transIn
       set_transOut set_levelDecays set_levels from to Itotal set_toAtom].
  rewrite (g_n s G _ _ Hto).
  assert (Ht : (to T < length (levels s))%nat) by (by eapply lookup_lt_Some).
  destruct (lookup_lt_is_Some_2 (transIn s) (to T)) as [tin Htin];
    [by rewrite (g_transIn_len s G)|].
  rewrite (idx_Some _ _ _ Htin). cbn [obind].
  destruct (lookup_lt_is_Some_2 (levels s) (from T) Hf) as [lfrom Hfrom].
  rewrite (idx_Some _ _ _ Hfrom). cbn [obind]. rewrite (g_n s G _ _ Hfrom).
  destruct (lookup_lt_is_Some_2 (transOut s) (from T)) as [tout Htout];
    [by rewrite (g_transOut_len s G)|].
  rewrite (idx_Some _ _ _ Htout). cbn [obind].
  destruct (lookup_lt_is_Some_2 (levelDecays s) (from T)) as [ld Hld];
    [by rewrite (g_levelDecays_len s G)|].
  rewrite (idx_Some _ _ _ Hld). cbn [obind].
  match goal with |- context [idx ?l (to T)] =>
    destruct (lookup_lt_is_Some_2 l (to T)) as [lto' Hto'];
      [by rewrite length_insert|]; rewrite (idx_Some _ _ _ Hto')
  end.
  cbn [obind]. eauto.
Qed.

(** An exception out of [addTransition] is the missing binding table of
    the destination's element. *)
Lemma addTransition_Raise (s : NucDecaySystem.t) (T : TransitionBase.t) (e : SMExcept) :
  addTransition s T = Raise e ->
  exists lto, levels s !! to T = Some lto
    /\ e = MissingElement (NucLevel.Z lto) /\ BEL s (NucLevel.Z lto) = None.
Proof.
  unfold addTransition. unfold idx at 1.
  destruct (levels s !! to T) as [lto|] eqn:Hto; [|done]. cbn [obind].
  destruct (getAtom s (NucLevel.Z lto)) as [s1|e'| |] eqn:Hat; try done; cbn [obind].
  - unfold idx.
    repeat (match goal with |- context [match ?l !! ?i with _ => _ end] =>
      destruct (l !! i); cbn [obind]; try done end).
  - intros [= <-]. exists lto. split; [done|]. by apply getAtom_Raise in Hat.
Qed.

End AddTransition.

(** ** The graph invariants under addTransition *)

Section AddTransitionInv.
Import NucDecaySystem TransitionBase.

Lemma add_flux_lookup (I : Qc) (f t_ i : nat) (ls : list NucLevel.t) :
  add_flux I f t_ ls !! i = bump I f t_ i <$> ls !! i.
Proof.
  unfold add_flux, bump.
  destruct (decide (i = t_)) as [Ht|Ht], (decide (i = f)) as [Hf|Hf]; subst.
  - rewrite !list_lookup_alter_eq. by destruct (ls !! f).
  - rewrite list_lookup_alter_eq. rewrite list_lookup_alter_ne by done.
    by destruct (ls !! t_).
  - rewrite list_lookup_alter_ne by done. rewrite list_lookup_alter_eq.
    by destruct (ls !! f).
  - rewrite !list_lookup_alter_ne by done. by destruct (ls !! i).
Qed.

Lemma add_flux_length (I : Qc) (f t_ : nat) (ls : list NucLevel.t) :
  length (add_flux I f t_ ls) = length ls.
Proof. unfold add_flux. by rewrite !length_alter. Qed.

Lemma bump_static (I : Qc) (f t_ i : nat) (l : NucLevel.t) :
  NucLevel.name (bump I f t_ i l) = NucLevel.name l
  /\ NucLevel.A (bump I f t_ i l) = NucLevel.A l
  /\ NucLevel.Z (bump I f t_ i l) = NucLevel.Z l
  /\ NucLevel.n (bump I f t_ i l) = NucLevel.n l
  /\ NucLevel.E (bump I f t_ i l) = NucLevel.E l
  /\ NucLevel.hl (bump I f t_ i l) = NucLevel.hl l.
Proof. unfold bump. by repeat case_decide. Qed.

Lemma bump_fluxOut (I : Qc) (f t_ i : nat) (l : NucLevel.t) :
  NucLevel.fluxOut (bump I f t_ i l)
  = NucLevel.fluxOut l + (if decide (i = f) then I else 0).
Proof. unfold bump. repeat case_decide; cbn; ring. Qed.

Lemma sum_Itotal_snoc (s : NucDecaySystem.t) (tids : list nat) (tid : nat) :
  sum_Itotal s (tids ++ [tid]) = sum_Itotal s tids + Itotal_of s tid.
Proof. unfold sum_Itotal. by rewrite fold_left_app. Qed.

Lemma sum_Itotal_ext (s s' : NucDecaySystem.t) (tids : list nat) :
  (forall tid, tid ∈ tids -> Itotal_of s' tid = Itotal_of s tid) ->
  sum_Itotal s' tids = sum_Itotal s tids.
Proof.
  induction tids as [|tid tids IH] using rev_ind; intros H; [done|].
  rewrite !sum_Itotal_snoc, IH, H; [done| |]; set_solver.
Qed.

Lemma decays_of_snoc (s : NucDecaySystem.t) (tids : list nat) (tid : nat) :
  decays_of s (tids ++ [tid]) = PSelector.addProb (decays_of s tids) (Itotal_of s tid).
Proof. unfold decays_of. by rewrite fold_left_app. Qed.

Lemma decays_of_ext (s s' : NucDecaySystem.t) (tids : list nat) :
  (forall tid, tid ∈ tids -> Itotal_of s' tid = Itotal_of s tid) ->
  decays_of s' tids = decays_of s tids.
Proof.
  induction tids as [|tid tids IH] using rev_ind; intros H; [done|].
  rewrite !decays_of_snoc, IH, H; [done| |]; set_solver.
Qed.

Variables (s : NucDecaySystem.t) (atoms' : gmap nat DecayAtom.t)
          (lto : NucLevel.t) (T : TransitionBase.t).
Hypothesis G : graph_ok s.
Hypothesis Hto : levels s !! to T = Some lto.
Hypothesis Hfrom : (from T < length (levels s))%nat.
Hypothesis Hatom : is_Some (atoms' !! NucLevel.Z lto).
Hypothesis Hmono : forall Z' a, atoms s !! Z' = Some a -> atoms' !! Z' = Some a.

Let s' := after_addTransition s atoms' lto T.

Lemma added_transitions_old (tid : nat) (T0 : TransitionBase.t) :
  transitions s !! tid = Some T0 -> transitions s' !! tid = Some T0.
Proof. intros H. unfold s', after_addTransition; cbn. by apply lookup_app_l_Some. Qed.

Lemma added_transitions_inv (tid : nat) (T0 : TransitionBase.t) :
  transitions s' !! tid = Some T0 ->
  transitions s !! tid = Some T0
  \/ (tid = length (transitions s) /\ T0 = stored lto T).
Proof.
  unfold s', after_addTransition; cbn. intros H.
  apply lookup_app_Some in H as [H|[Hlen H]]; [by left|right].
  destruct (tid - length (transitions s))%nat as [|k] eqn:E; simpl in H; [|done].
  injection H as <-. split; [lia|done].
Qed.

Lemma added_Itotal_of_old (tid : nat) :
  (tid < length (transitions s))%nat -> Itotal_of s' tid = Itotal_of s tid.
Proof.
  intros H. unfold Itotal_of, s', after_addTransition; cbn.
  by rewrite lookup_app_l.
Qed.

Lemma added_Itotal_of_new :
  Itotal_of s' (length (transitions s)) = Itotal T.
Proof.
  unfold Itotal_of, s', after_addTransition; cbn.
  rewrite lookup_app_r by lia. by rewrite Nat.sub_diag.
Qed.

Lemma graph_ok_tids_lt (n : nat) (tout : list nat) (tid : nat) :
  transOut s !! n = Some tout -> tid ∈ tout -> (tid < length (transitions s))%nat.
Proof.
  intros H1 H2. destruct (g_out s G n tout tid H1 H2) as (T0 & HT0 & _).
  by eapply lookup_lt_Some.
Qed.

Lemma added_graph_ok : graph_ok s'.
Proof.
  split.
  - unfold s', after_addTransition; cbn. rewrite length_alter, add_flux_length. apply G.
  - unfold s', after_addTransition; cbn. rewrite length_alter, add_flux_length. apply G.
  - unfold s', after_addTransition; cbn. rewrite length_alter, add_flux_length. apply G.
  - intros n tout tid Hn Hin. unfold s', after_addTransition in Hn; cbn in Hn.
    destruct (decide (n = from T)) as [->|Hne].
    + rewrite list_lookup_alter_eq in Hn.
      destruct (transOut s !! from T) as [tout0|] eqn:E; [|done].
      injection Hn as <-. apply elem_of_app in Hin as [Hin|Hin].
      * destruct (g_out s G _ _ _ E Hin) as (T0 & HT0 & Hf).
        exists T0. split; [by apply added_transitions_old | done].
      * apply list_elem_of_singleton in Hin as ->. exists (stored lto T).
        split; [|done]. unfold s', after_addTransition; cbn.
        rewrite lookup_app_r by lia. by rewrite Nat.sub_diag.
    + rewrite list_lookup_alter_ne in Hn by done.
      destruct (g_out s G _ _ _ Hn Hin) as (T0 & HT0 & Hf).
      exists T0. split; [by apply added_transitions_old | done].
  - intros n tin tid Hn Hin. unfold s', after_addTransition in Hn; cbn in Hn.
    destruct (decide (n = to T)) as [->|Hne].
    + rewrite list_lookup_alter_eq in Hn.
      destruct (transIn s !! to T) as [tin0|] eqn:E; [|done].
      injection Hn as <-. apply elem_of_app in Hin as [Hin|Hin].
      * destruct (g_in s G _ _ _ E Hin) as (T0 & HT0 & Hf).
        exists T0. split; [by apply added_transitions_old | done].
      * apply list_elem_of_singleton in Hin as ->. exists (stored lto T).
        split; [|done]. unfold s', after_addTransition; cbn.
        rewrite lookup_app_r by lia. by rewrite Nat.sub_diag.
    + rewrite list_lookup_alter_ne in Hn by done.
      destruct (g_in s G _ _ _ Hn Hin) as (T0 & HT0 & Hf).
      exists T0. split; [by apply added_transitions_old | done].
  - intros tid T0 HT0.
    assert (Hlen : length (levels s') = length (levels s))
      by (unfold s', after_addTransition; cbn; apply add_flux_length).
    assert (Hlev : forall i l, levels s !! i = Some l ->
              levels s' !! i = Some (bump (Itotal T) (from T) (to T) i l)).
    { intros i l Hl. unfold s', after_addTransition; cbn.
      by rewrite add_flux_lookup, Hl. }
    apply added_transitions_inv in HT0 as [HT0|[-> ->]].
    + destruct (g_trans s G _ _ HT0) as (Hf & l0 & Hl0 & HZ & [a Ha]).
      split; [by rewrite Hlen|]. eexists. split; [by apply Hlev|].
      split; [by rewrite (proj1 (proj2 (proj2 (bump_static _ _ _ _ _))))|].
      exists a. by apply Hmono.
    + split; [by rewrite Hlen|]. eexists. split; [by apply Hlev|].
      split; [by rewrite (proj1 (proj2 (proj2 (bump_static _ _ _ _ _))))|].
      done.
  - intros i l Hl. unfold s', after_addTransition in Hl; cbn in Hl.
    rewrite add_flux_lookup in Hl.
    destruct (levels s !! i) as [l0|] eqn:E; [|done]. injection Hl as <-.
    rewrite (proj1 (proj2 (proj2 (proj2 (bump_static _ _ _ _ _))))).
    by apply (g_n s G).
Qed.

Lemma added_balanced : balanced s -> balanced s'.
Proof.
  intros B n lev tout Hlev Hout.
  unfold s', after_addTransition in Hlev, Hout; cbn in Hlev, Hout.
  rewrite add_flux_lookup in Hlev.
  destruct (levels s !! n) as [l0|] eqn:E; [|done]. injection Hlev as <-.
  rewrite bump_fluxOut.
  destruct (decide (n = from T)) as [->|Hne].
  - rewrite list_lookup_alter_eq in Hout.
    destruct (transOut s !! from T) as [tout0|] eqn:E'; [|done]. injection Hout as <-.
    rewrite sum_Itotal_snoc. fold s'. rewrite added_Itotal_of_new.
    rewrite (sum_Itotal_ext s s').
    + by rewrite (B _ _ _ E E').
    + intros tid Hin. apply added_Itotal_of_old. by eapply graph_ok_tids_lt.
  - rewrite list_lookup_alter_ne in Hout by done.
    rewrite (sum_Itotal_ext s s').
    + rewrite (B _ _ _ E Hout). ring.
    + intros tid Hin. apply added_Itotal_of_old. by eapply graph_ok_tids_lt.
Qed.

Lemma added_levels_sorted : levels_sorted s -> levels_sorted s'.
Proof.
  intros S i j li lj Hij Hi Hj.
  unfold s', after_addTransition in Hi, Hj; cbn in Hi, Hj.
  rewrite add_flux_lookup in Hi, Hj.
  destruct (levels s !! i) as [li0|] eqn:Ei; [|done]. injection Hi as <-.
  destruct (levels s !! j) as [lj0|] eqn:Ej; [|done]. injection Hj as <-.
  rewrite !(proj1 (proj2 (proj2 (proj2 (proj2 (bump_static _ _ _ _ _)))))).
  by apply (S i j).
Qed.

Lemma added_index_ok : index_ok s -> index_ok s'.
Proof.
  intros I nm i. unfold s', after_addTransition; cbn. rewrite (I nm i).
  rewrite add_flux_lookup. split.
  - intros (l & Hl & Hn). rewrite Hl. eexists. split; [done|].
    by rewrite (proj1 (bump_static _ _ _ _ _)).
  - intros (l & Hl & Hn). destruct (levels s !! i) as [l0|]; [|done].
    injection Hl as <-. exists l0. split; [done|].
    by rewrite (proj1 (bump_static _ _ _ _ _)) in Hn.
Qed.

End AddTransitionInv.

(** ** Rescaling the transitions *)

Section Scaling.
Import NucDecaySystem TransitionBase.

Lemma ofold_seq_inv {A : Type} (f : A -> nat -> outcome A) (P : nat -> A -> Prop)
    (len start : nat) (a a' : A) :
  ofold f (seq start len) a = Done a' ->
  P start a ->
  (forall i a a1, (start <= i < start + len)%nat -> P i a -> f a i = Done a1 -> P (S i) a1) ->
  P (start + len)%nat a'.
Proof.
  revert start a. induction len as [|len IH]; intros start a Hfold Ha Hstep.
  - simpl in Hfold. injection Hfold as <-. by rewrite Nat.add_0_r.
  - simpl in Hfold. destruct (f a start) as [a1| | |] eqn:E; simpl in Hfold; try done.
    replace (start + S len)%nat with (S start + len)%nat by lia.
    apply (IH (S start) a1); [done | |].
    + apply (Hstep start a a1); [lia | done | done].
    + intros i b b1 Hi. apply Hstep. lia.
Qed.

Lemma scale_Done (T T' : TransitionBase.t) (k : Qc) :
  TransitionBase.scale T k = Done T' -> T' = scaled k T.
Proof.
  unfold TransitionBase.scale, scaled. cbn [kind set_Itotal].
  destruct (kind T) as [g|b|e]; try (by intros [= <-]).
  unfold fdiv. case_decide; [done|]. cbn [obind]. by intros [= <-].
Qed.

Lemma scale_nonzero (T : TransitionBase.t) (k : Qc) :
  k <> 0 -> TransitionBase.scale T k = Done (scaled k T).
Proof.
  intros Hk. unfold TransitionBase.scale, scaled. cbn [kind set_Itotal].
  destruct (kind T) as [g|b|e]; try done.
  unfold fdiv. by rewrite decide_False.
Qed.

Lemma scaled_static (k : Qc) (T : TransitionBase.t) :
  from (scaled k T) = from T /\ to (scaled k T) = to T
  /\ toAtom (scaled k T) = toAtom T /\ Itotal (scaled k T) = Itotal T * k.
Proof. unfold scaled. cbn [kind set_Itotal]. by destruct (kind T). Qed.

(** The loop [for(auto& t: transitions) t->scale(k)], when it ends. *)
Lemma scale_transitions_Done (k : Qc) (s s' : NucDecaySystem.t) :
  scale_transitions s k = Done s' ->
  s' = set_transitions s (scaled k <$> transitions s).
Proof.
  unfold scale_transitions. intros H.
  apply (ofold_seq_inv _
    (fun i x => x = set_transitions s
       (take i (scaled k <$> transitions s) ++ drop i (transitions s)))) in H.
  - rewrite H. simpl. f_equal.
    rewrite take_ge by (rewrite length_fmap; lia).
    rewrite drop_ge by lia. apply app_nil_r.
  - rewrite take_0, drop_0. by destruct s.
  - intros i a a1 Hi -> Hstep. cbn [transitions set_transitions] in Hstep.
    destruct (idx _ i) as [T| | |] eqn:ET; try done. cbn [obind] in Hstep.
    destruct (TransitionBase.scale T k) as [T'| | |] eqn:ES; try done.
    cbn [obind] in Hstep. injection Hstep as <-.
    apply scale_Done in ES as ->. apply idx_Done in ET.
    unfold set_transitions; cbn. f_equal.
    assert (HT : transitions s !! i = Some T).
    { rewrite lookup_app_r in ET by (rewrite length_take, length_fmap; lia).
      rewrite length_take, length_fmap in ET.
      rewrite lookup_drop in ET.
      by replace (i + (i - i `min` length (transitions s)))%nat with i in ET by lia. }
    apply take_S_insert; [|by rewrite length_fmap].
    by rewrite list_lookup_fmap, HT.
Qed.

Lemma scale_transitions_progress (k : Qc) (s : NucDecaySystem.t) :
  k <> 0 ->
  scale_transitions s k = Done (set_transitions s (scaled k <$> transitions s)).
Proof.
  intros Hk. unfold scale_transitions.
  match goal with |- ofold ?f _ _ = _ =>
    destruct (ofold_seq_ind f
      (fun i x => x = set_transitions s
         (take i (scaled k <$> transitions s) ++ drop i (transitions s)))
      (length (transitions s)) 0 s) as (a' & Hfold & Ha')
  end.
  - rewrite take_0, drop_0. by destruct s.
  - intros i a [_ Hi] ->. simpl in Hi. cbn [transitions set_transitions].
    assert (is_Some (transitions s !! i)) as [T HT] by (by apply lookup_lt_is_Some).
    assert (ET : (take i (scaled k <$> transitions s) ++ drop i (transitions s)) !! i
                 = Some T).
    { rewrite lookup_app_r by (rewrite length_take, length_fmap; lia).
      rewrite length_take, length_fmap, lookup_drop.
      by replace (i + (i - i `min` length (transitions s)))%nat with i by lia. }
    rewrite (idx_Some _ _ _ ET). cbn [obind].
    rewrite scale_nonzero by done. cbn [obind].
    eexists. split; [done|]. unfold set_transitions; cbn. f_equal.
    apply take_S_insert; [|by rewrite length_fmap].
    by rewrite list_lookup_fmap, HT.
  - rewrite Hfold, Ha'. simpl. do 2 f_equal.
    rewrite take_ge by (rewrite length_fmap; lia).
    rewrite drop_ge by lia. apply app_nil_r.
Qed.

Lemma sum_Itotal_scaled (s s' : NucDecaySystem.t) (k : Qc) (tids : list nat) :
  transitions s' = scaled k <$> transitions s ->
  sum_Itotal s' tids = sum_Itotal s tids * k.
Proof.
  intros Ht. induction tids as [|tid tids IH] using rev_ind.
  - unfold sum_Itotal; simpl. ring.
  - rewrite !sum_Itotal_snoc, IH.
    assert (Itotal_of s' tid = Itotal_of s tid * k) as ->; [|ring].
    unfold Itotal_of. rewrite Ht, list_lookup_fmap.
    destruct (transitions s !! tid) as [T|]; simpl; [|ring].
    apply scaled_static.
Qed.

Lemma decays_of_scaled (s s' : NucDecaySystem.t) (k : Qc) (tids : list nat) :
  transitions s' = scaled k <$> transitions s ->
  decays_of s' tids = PSelector.scale (decays_of s tids) k.
Proof.
  intros Ht. induction tids as [|tid tids IH] using rev_ind.
  - unfold decays_of, PSelector.scale; simpl. f_equal. f_equal. ring.
  - rewrite !decays_of_snoc, IH.
    assert (Itotal_of s' tid = Itotal_of s tid * k) as ->.
    { unfold Itotal_of. rewrite Ht, list_lookup_fmap.
      destruct (transitions s !! tid) as [T|]; simpl; [|ring].
      apply scaled_static. }
    unfold PSelector.addProb, PSelector.scale; cbn [PSelector.cumprob].
    rewrite fmap_app. simpl. rewrite back_fmap_mul. do 3 f_equal. ring.
Qed.

End Scaling.

(** ** The constructor: loading, sorting and numbering the levels *)

Section Levels.
Import NucDecaySystem.

Lemma NucLevel_make_spec (m : LevelRec) :
  NucLevel.make m
  = if decide (length (lv_nm_fields m) = 3%nat) then Done (level_of m)
    else Raise (AssertionFailure "v.size()==3").
Proof.
  unfold NucLevel.make, smassert, level_of.
  destruct (decide (length (lv_nm_fields m) = 3%nat)) as [H|H].
  - by rewrite bool_decide_eq_true_2.
  - by rewrite bool_decide_eq_false_2.
Qed.

Lemma load_levels_spec (levs : list LevelRec) (s : NucDecaySystem.t) :
  load_levels s levs
  = if decide (Forall (fun m => length (lv_nm_fields m) = 3%nat) levs)
    then Done (NucDecaySystem.mk (BEL s) (levels s ++ (level_of <$> levs))
                 (levelIndex s) (atoms s) (transitions s)
                 (transIn s ++ replicate (length levs) [])
                 (transOut s ++ replicate (length levs) [])
                 (levelDecays s ++ replicate (length levs) PSelector.new)
                 (lStart s) (tcut s))
    else Raise (AssertionFailure "v.size()==3").
Proof.
  unfold load_levels. revert s. induction levs as [|m levs IH]; intros s.
  - cbn [ofold]. destruct (decide _) as [_|H]; [|by exfalso; apply H; constructor].
    simpl. rewrite !app_nil_r. by destruct s.
  - cbn [ofold]. rewrite NucLevel_make_spec.
    destruct (decide (length (lv_nm_fields m) = 3%nat)) as [Hm|Hm]; cbn [obind].
    + rewrite IH. cbn.
      destruct (decide (Forall _ levs)) as [Hl|Hl].
      * destruct (decide (Forall _ (m :: levs))) as [_|H];
          [|by exfalso; apply H; constructor].
        rewrite <- !app_assoc. reflexivity.
      * destruct (decide (Forall _ (m :: levs))) as [H|_]; [|done]. by inversion H.
    + destruct (decide (Forall _ (m :: levs))) as [H|_]; [|done]. by inversion H.
Qed.

(** The insertion sort. *)
Lemma insert_level_perm (l : NucLevel.t) (ls : list NucLevel.t) :
  insert_level l ls ≡ₚ l :: ls.
Proof.
  induction ls as [|h tl IH]; simpl; [done|].
  destruct (NucLevel.sortLevels l h); [done|].
  rewrite IH. apply Permutation_swap.
Qed.

Lemma sort_levels_perm_acc (ls acc : list NucLevel.t) :
  fold_left (fun acc l => insert_level l acc) ls acc ≡ₚ acc ++ ls.
Proof.
  revert acc. induction ls as [|l ls IH]; intros acc; simpl.
  - by rewrite app_nil_r.
  - rewrite IH, insert_level_perm. simpl. apply Permutation_middle.
Qed.

Lemma sort_levels_perm (ls : list NucLevel.t) : sort_levels ls ≡ₚ ls.
Proof. unfold sort_levels. by rewrite sort_levels_perm_acc. Qed.

Lemma insert_level_sorted (l : NucLevel.t) (ls : list NucLevel.t) :
  StronglySorted E_le ls -> StronglySorted E_le (insert_level l ls).
Proof.
  induction ls as [|h tl IH]; intros Hs; simpl.
  - repeat constructor.
  - apply StronglySorted_inv in Hs as [Htl Hh].
    unfold NucLevel.sortLevels. case_bool_decide as Hlt.
    + constructor; [by constructor|]. constructor.
      * unfold E_le. qc_to_q. lra.
      * eapply Forall_impl; [exact Hh|]. intros x Hx. unfold E_le in *. qc_to_q. lra.
    + constructor; [by apply IH|].
      rewrite insert_level_perm. constructor; [|done].
      unfold E_le. qc_to_q. lra.
Qed.

Lemma sort_levels_sorted (ls : list NucLevel.t) : StronglySorted E_le (sort_levels ls).
Proof.
  unfold sort_levels.
  assert (H : forall acc, StronglySorted E_le acc ->
            StronglySorted E_le (fold_left (fun acc l => insert_level l acc) ls acc)).
  { induction ls as [|l ls IH]; intros acc Hacc; simpl; [done|].
    apply IH. by apply insert_level_sorted. }
  apply H. constructor.
Qed.

Lemma StronglySorted_lookup (ls : list NucLevel.t) (i j : nat) (li lj : NucLevel.t) :
  StronglySorted E_le ls -> (i <= j)%nat ->
  ls !! i = Some li -> ls !! j = Some lj -> NucLevel.E li <= NucLevel.E lj.
Proof.
  intros Hs. revert i j. induction Hs as [|h tl Hs IH Hh]; intros i j Hij Hi Hj; [done|].
  destruct i as [|i], j as [|j]; simpl in *.
  - injection Hi as <-. injection Hj as <-. qc_to_q. lra.
  - injection Hi as <-. rewrite Forall_forall in Hh. apply Hh.
    by eapply list_elem_of_lookup_2.
  - lia.
  - apply (IH i j); [lia | done | done].
Qed.

(** The numbering loop. *)
Lemma numbered_lookup (ls : list NucLevel.t) (i : nat) :
  numbered ls !! i = (fun l => NucLevel.set_n l i) <$> ls !! i.
Proof. unfold numbered. apply list_lookup_imap. Qed.

Lemma numbered_length (ls : list NucLevel.t) : length (numbered ls) = length ls.
Proof. unfold numbered. apply length_imap. Qed.

Lemma index_levels_prefix (s : NucDecaySystem.t) (k : nat) :
  levelIndex s = ∅ -> (k <= length (levels s))%nat ->
  NoDup (NucLevel.name <$> take k (levels s)) ->
  exists m,
    index_rel (levels s) k m
    /\ ofold number_level (seq 0 k) s
       = Done (set_levelIndex
                 (set_levels s (take k (numbered (levels s)) ++ drop k (levels s))) m).
Proof.
  intros Hempty. induction k as [|k IH]; intros Hk Hnd.
  - exists ∅. split.
    + intros nm i. rewrite lookup_empty. split; [done|]. intros [? _]. lia.
    + simpl. rewrite drop_0. rewrite <- Hempty. by destruct s.
  - destruct (lookup_lt_is_Some_2 (levels s) k ltac:(lia)) as [l Hl].
    rewrite (take_S_r _ _ l) in Hnd by done. rewrite fmap_app in Hnd.
    apply NoDup_app in Hnd as (Hnd & Hfresh & _).
    destruct (IH ltac:(lia) Hnd) as (m & Hm & Hfold).
    exists (<[NucLevel.name l := k]> m). split.
    + intros nm i. destruct (decide (nm = NucLevel.name l)) as [->|Hne].
      * rewrite lookup_insert_eq. split.
        -- intros [= <-]. split; [lia|]. by exists l.
        -- intros (Hi & l' & Hl' & Hn). f_equal.
           destruct (decide (i = k)) as [|Hik]; [done|]. exfalso.
           apply (Hfresh (NucLevel.name l)); [|set_solver].
           apply list_elem_of_fmap. exists l'. split; [done|].
           apply list_elem_of_lookup. exists i. rewrite lookup_take_lt by lia. done.
      * rewrite lookup_insert_ne by done. rewrite (Hm nm i). split.
        -- intros (Hi & Hl'). split; [lia|done].
        -- intros (Hi & l' & Hl' & Hn). split; [|by exists l'].
           destruct (decide (i = k)) as [->|]; [|lia]. congruence.
    + rewrite seq_S, ofold_app, Hfold. cbn [obind ofold Nat.add]. unfold number_level.
      cbn [levels set_levels set_levelIndex levelIndex].
      assert (Hcur : (take k (numbered (levels s)) ++ drop k (levels s)) !! k = Some l).
      { rewrite lookup_app_r by (rewrite length_take, numbered_length; lia).
        rewrite length_take, numbered_length, lookup_drop.
        by replace (k + (k - k `min` length (levels s)))%nat with k by lia. }
      rewrite (idx_Some _ _ _ Hcur). cbn [obind].
      assert (Hnone : m !! NucLevel.name l = None).
      { destruct (m !! NucLevel.name l) as [i|] eqn:E; [|done]. exfalso.
        apply Hm in E as (Hi & l' & Hl' & Hn).
        apply (Hfresh (NucLevel.name l)); [|set_solver].
        apply list_elem_of_fmap. exists l'. split; [done|].
        apply list_elem_of_lookup. exists i. rewrite lookup_take_lt by lia. done. }
      unfold smassert. rewrite bool_decide_eq_true_2 by done. cbn [obind].
      unfold set_levelIndex, set_levels; cbn. do 2 f_equal.
      apply take_S_insert; [|by rewrite numbered_length].
      by rewrite numbered_lookup, Hl.
Qed.

Lemma index_levels_Done (s : NucDecaySystem.t) :
  levelIndex s = ∅ -> NoDup (NucLevel.name <$> levels s) ->
  exists m,
    index_rel (levels s) (length (levels s)) m
    /\ index_levels s = Done (set_levelIndex (set_levels s (numbered (levels s))) m).
Proof.
  intros Hempty Hnd.
  destruct (index_levels_prefix s (length (levels s)) Hempty ltac:(lia)) as (m & Hm & Hfold).
  { by rewrite take_ge by lia. }
  exists m. split; [done|]. unfold index_levels. rewrite Hfold.
  rewrite take_ge by (rewrite numbered_length; lia).
  rewrite drop_ge by lia. by rewrite app_nil_r.
Qed.

(** Two levels of one name stop the numbering loop at its assertion. *)
Lemma index_levels_dup (s : NucDecaySystem.t) :
  levelIndex s = ∅ -> ~ NoDup (NucLevel.name <$> levels s) ->
  index_levels s
  = Raise (AssertionFailure "levelIndex.find(l.name) == levelIndex.end()").
Proof.
  intros Hempty Hdup.
  assert (Hex : exists k, (k < length (levels s))%nat
            /\ NoDup (NucLevel.name <$> take k (levels s))
            /\ ~ NoDup (NucLevel.name <$> take (S k) (levels s))).
  { assert (H : forall n, (n <= length (levels s))%nat ->
              NoDup (NucLevel.name <$> take n (levels s))
              \/ exists k, (k < n)%nat
                   /\ NoDup (NucLevel.name <$> take k (levels s))
                   /\ ~ NoDup (NucLevel.name <$> take (S k) (levels s))).
    { induction n as [|n IH]; intros Hn.
      - left. rewrite take_0. constructor.
      - destruct (IH ltac:(lia)) as [Hnd|(k & Hk & H1 & H2)].
        + destruct (decide (NoDup (NucLevel.name <$> take (S n) (levels s)))) as [|Hn'].
          * by left.
          * right. exists n. split; [lia|done].
        + right. exists k. split; [lia|done]. }
    destruct (H (length (levels s)) ltac:(lia)) as [Hnd|(k & Hk & H1 & H2)].
    - rewrite take_ge in Hnd by lia. done.
    - exists k. split; [lia|done]. }
  destruct Hex as (k & Hk & Hnd & Hnd').
  destruct (index_levels_prefix s k Hempty ltac:(lia) Hnd) as (m & Hm & Hfold).
  destruct (lookup_lt_is_Some_2 (levels s) k Hk) as [l Hl].
  unfold index_levels.
  replace (length (levels s)) with (k + S (length (levels s) - S k))%nat by lia.
  rewrite seq_app, ofold_app, Hfold. cbn [obind]. simpl seq. cbn [ofold].
  unfold number_level at 1. cbn [levels set_levels set_levelIndex levelIndex].
  assert (Hcur : (take k (numbered (levels s)) ++ drop k (levels s)) !! k = Some l).
  { rewrite lookup_app_r by (rewrite length_take, numbered_length; lia).
    rewrite length_take, numbered_length, lookup_drop.
    by replace (k + (k - k `min` length (levels s)))%nat with k by lia. }
  rewrite (idx_Some _ _ _ Hcur). cbn [obind].
  assert (Hsome : m !! NucLevel.name l <> None).
  { intros Hnone. apply Hnd'. rewrite (take_S_r _ _ l) by done.
    rewrite fmap_app. apply NoDup_app. split; [done|]. split; [|repeat constructor; set_solver].
    intros nm Hin1 Hin2. apply list_elem_of_singleton in Hin2 as ->.
    apply list_elem_of_fmap in Hin1 as (l' & Hn & Hin).
    apply list_elem_of_lookup in Hin as (i & Hi).
    assert (i < k)%nat.
    { apply lookup_lt_Some in Hi. rewrite length_take in Hi. lia. }
    rewrite lookup_take_lt in Hi by lia.
    assert (m !! NucLevel.name l = Some i); [|congruence].
    apply Hm. split; [done|]. by exists l'. }
  unfold smassert. rewrite bool_decide_eq_false_2 by done. done.
Qed.

End Levels.

(** ** The invariants of construction *)

Section Built.
Import NucDecaySystem TransitionBase.

Lemma kept_refl (s : NucDecaySystem.t) : kept s s.
Proof. by split. Qed.

Lemma kept_trans (s1 s2 s3 : NucDecaySystem.t) : kept s1 s2 -> kept s2 s3 -> kept s1 s3.
Proof.
  intros [A1 B1 C1 D1] [A2 B2 C2 D2]. split; try congruence.
  intros Z H. by apply D2, D1.
Qed.

Lemma bump_level_static (I : Qc) (f t_ i : nat) (l : NucLevel.t) :
  level_static (bump I f t_ i l) = level_static l.
Proof. unfold level_static, bump. by repeat case_decide. Qed.

Lemma add_flux_static (I : Qc) (f t_ : nat) (ls : list NucLevel.t) :
  level_static <$> add_flux I f t_ ls = level_static <$> ls.
Proof.
  apply list_eq. intros i. rewrite !list_lookup_fmap, add_flux_lookup.
  destruct (ls !! i); simpl; [|done]. by rewrite bump_level_static.
Qed.

Lemma addTransition_built (s s' : NucDecaySystem.t) (T : TransitionBase.t) :
  built s -> addTransition s T = Done s' ->
  built s' /\ kept s s'
  /\ (exists lto, levels s !! to T = Some lto
        /\ transitions s' = transitions s ++ [stored lto T]).
Proof.
  intros [G B S I] H.
  destruct (addTransition_Done s s' T G H) as (lto & atoms' & Hto & Hf & Ha & Hm & ->).
  split; [|split].
  - split.
    + by apply added_graph_ok.
    + by apply added_balanced.
    + by apply added_levels_sorted.
    + by apply added_index_ok.
  - split; try done.
    + unfold after_addTransition; cbn. apply add_flux_static.
    + intros Z [a Hz]. exists a. by apply Hm.
  - by exists lto.
Qed.

Lemma stored_sane (lto : NucLevel.t) (T : TransitionBase.t) :
  sane_T T -> sane_T (stored lto T).
Proof. unfold sane_T, stored. by destruct T. Qed.

Lemma addTransition_sane (s s' : NucDecaySystem.t) (T : TransitionBase.t) :
  built s -> sane s -> sane_T T -> addTransition s T = Done s' -> sane s'.
Proof.
  intros Bs [Hs Hl] HT H.
  destruct (addTransition_Done s s' T (bt_graph s Bs) H)
    as (lto & atoms' & Hto & Hf & Ha & Hm & ->).
  split.
  - unfold after_addTransition; cbn. apply Forall_app. split; [done|].
    constructor; [by apply stored_sane | constructor].
  - unfold after_addTransition; cbn. apply Forall_forall. intros l Hin.
    apply list_elem_of_lookup in Hin as (i & Hi). rewrite add_flux_lookup in Hi.
    destruct (levels s !! i) as [l0|] eqn:E; [|done]. injection Hi as <-.
    rewrite Forall_forall in Hl. pose proof (Hl l0 (list_elem_of_lookup_2 _ _ _ E)) as H0.
    destruct HT as [HI _]. unfold bump. repeat case_decide; cbn; try done;
      (clear -H0 HI; qc_to_q; lra).
Qed.

(** Operations on the atoms alone. *)
Lemma set_atoms_built (s : NucDecaySystem.t) (atoms' : gmap nat DecayAtom.t) :
  (forall Z, is_Some (atoms s !! Z) -> is_Some (atoms' !! Z)) ->
  built s -> built (set_atoms s atoms') /\ kept s (set_atoms s atoms').
Proof.
  intros Hm [G B S I]. split; [split|by split].
  - destruct G as [G1 G2 G3 G4 G5 G6 G7]. split; try done.
    intros tid T HT. destruct (G6 tid T HT) as (Hf & lto & Hl & HZ & Ha).
    split; [done|]. exists lto. repeat split; try done. by apply Hm.
  - done.
  - done.
  - done.
Qed.

Lemma getAtom_built (s s' : NucDecaySystem.t) (Z : nat) :
  built s -> getAtom s Z = Done s' ->
  built s' /\ kept s s' /\ transitions s' = transitions s
  /\ is_Some (atoms s' !! Z).
Proof.
  intros Bs H. destruct (getAtom_Done _ _ _ H) as (atoms' & -> & Hin & Hm).
  destruct (set_atoms_built s atoms') as [B K]; [|done|].
  - intros Z' [a Ha]. exists a. by apply Hm.
  - done.
Qed.

(** Rescaling all transitions and all level fluxes by [k]. *)
Lemma NucLevel_scale_static (l : NucLevel.t) (k : Qc) :
  level_static (NucLevel.scale l k) = level_static l.
Proof. done. Qed.

Lemma rescaled_built (s s' : NucDecaySystem.t) (k : Qc) :
  built s ->
  BEL s' = BEL s -> levelIndex s' = levelIndex s -> atoms s' = atoms s ->
  transIn s' = transIn s -> transOut s' = transOut s ->
  length (levelDecays s') = length (levelDecays s) ->
  transitions s' = scaled k <$> transitions s ->
  levels s' = (fun l => NucLevel.scale l k) <$> levels s ->
  built s' /\ kept s s'.
Proof.
  intros [G B S I] HB HI HA Hin Hout Hld Htr Hlev.
  assert (Hlen : length (levels s') = length (levels s))
    by (by rewrite Hlev, length_fmap).
  assert (Hst : level_static <$> levels s' = level_static <$> levels s).
  { rewrite Hlev, <- list_fmap_compose. done. }
  split; [split|split; try done].
  - destruct G as [G1 G2 G3 G4 G5 G6 G7]. split.
    + by rewrite Hin, Hlen.
    + by rewrite Hout, Hlen.
    + by rewrite Hld, Hlen.
    + intros n tout tid Hn Hi. rewrite Hout in Hn.
      destruct (G4 n tout tid Hn Hi) as (T & HT & Hf).
      exists (scaled k T). rewrite Htr, list_lookup_fmap, HT. split; [done|].
      by rewrite (proj1 (scaled_static k T)).
    + intros n tin tid Hn Hi. rewrite Hin in Hn.
      destruct (G5 n tin tid Hn Hi) as (T & HT & Hf).
      exists (scaled k T). rewrite Htr, list_lookup_fmap, HT. split; [done|].
      by rewrite (proj1 (proj2 (scaled_static k T))).
    + intros tid T HT. rewrite Htr, list_lookup_fmap in HT.
      destruct (transitions s !! tid) as [T0|] eqn:E; [|done]. injection HT as <-.
      destruct (G6 tid T0 E) as (Hf & lto & Hl & HZ & Ha).
      destruct (scaled_static k T0) as (-> & -> & -> & _).
      split; [by rewrite Hlen|]. exists (NucLevel.scale lto k).
      split; [by rewrite Hlev, list_lookup_fmap, Hl|]. split; [done|]. by rewrite HA.
    + intros i l Hl. rewrite Hlev, list_lookup_fmap in Hl.
      destruct (levels s !! i) as [l0|] eqn:E; [|done]. injection Hl as <-.
      change (NucLevel.n l0 = i). by apply (G7 i).
  - intros n lev tout Hl Ho. rewrite Hlev, list_lookup_fmap in Hl. rewrite Hout in Ho.
    destruct (levels s !! n) as [l0|] eqn:E; [|done]. injection Hl as <-.
    rewrite (sum_Itotal_scaled s s' k) by done.
    cbn. by rewrite (B n l0 tout E Ho).
  - intros i j li lj Hij Hi Hj. rewrite Hlev, list_lookup_fmap in Hi, Hj.
    destruct (levels s !! i) as [li0|] eqn:Ei; [|done]. injection Hi as <-.
    destruct (levels s !! j) as [lj0|] eqn:Ej; [|done]. injection Hj as <-.
    change (NucLevel.E li0 <= NucLevel.E lj0). by apply (S i j).
  - intros nm i. rewrite HI, (I nm i), Hlev, list_lookup_fmap. split.
    + intros (l & Hl & Hn). rewrite Hl. by eexists.
    + intros (l & Hl & Hn). destruct (levels s !! i) as [l0|]; [|done].
      injection Hl as <-. by exists l0.
  - intros Z. by rewrite HA.
Qed.

Lemma scaled_sane (k : Qc) (T : TransitionBase.t) : 0 < k -> sane_T T -> sane_T (scaled k T).
Proof.
  intros Hk. assert (0 <= k) by (clear -Hk; qc_to_q; lra).
  destruct T as [a f t_ I kd]. unfold sane_T, scaled.
  cbn [kind set_Itotal Itotal set_kind]. intros [HI HT].
  assert (0 <= I * k) by (clear -HI Hk; qc_to_q; nra).
  destruct kd as [g|b|e]; cbn [kind set_Itotal Itotal set_kind]; [|done..].
  destruct HT as (Hwf & Htot & Hss). split; [done|].
  cbn [ConversionGamma.shells ConversionGamma.subshells ConversionGamma.set_shells
       ConversionGamma.set_Igamma].
  split; [|split].
  - by apply wf_scale.
  - rewrite <- Htot. apply scale_keeps_probabilities_total.
  - done.
Qed.

End Built.

(** ** How a loop fails *)

Section LoopOutcomes.

Lemma ofold_Raise {A B : Type} (f : A -> B -> outcome A) (P : A -> Prop)
    (l : list B) (a : A) (e : SMExcept) :
  (forall a b a', b ∈ l -> P a -> f a b = Done a' -> P a') ->
  P a -> ofold f l a = Raise e ->
  exists a0 b, b ∈ l /\ P a0 /\ f a0 b = Raise e.
Proof.
  revert a. induction l as [|b l IH]; intros a Hf Ha Hfold; [done|].
  simpl in Hfold. destruct (f a b) as [a1|e'| |] eqn:E; simpl in Hfold; try done.
  - destruct (IH a1) as (a0 & b0 & Hb0 & Ha0 & Hr); [| |done|].
    + intros; eapply Hf; [|done..]. set_solver.
    + eapply Hf; [|done..]. set_solver.
    + exists a0, b0. split; [set_solver|done].
  - injection Hfold as ->. exists a, b. split; [set_solver|done].
Qed.

Lemma ofold_Done_each {A B : Type} (f : A -> B -> outcome A) (P : A -> Prop)
    (l : list B) (a a' : A) :
  (forall a b a', b ∈ l -> P a -> f a b = Done a' -> P a') ->
  P a -> ofold f l a = Done a' ->
  forall b, b ∈ l -> exists a0 a1, P a0 /\ f a0 b = Done a1.
Proof.
  revert a. induction l as [|b l IH]; intros a Hf Ha Hfold b0 Hb0; [set_solver|].
  simpl in Hfold. destruct (f a b) as [a1| | |] eqn:E; simpl in Hfold; try done.
  apply elem_of_cons in Hb0 as [->|Hb0].
  - by exists a, a1.
  - apply (IH a1); [| |done..].
    + intros; eapply Hf; [|done..]. set_solver.
    + eapply Hf; [|done..]. set_solver.
Qed.

Lemma ofold_progress {A B : Type} (f : A -> B -> outcome A) (P : A -> Prop)
    (l : list B) (a : A) :
  (forall a b, b ∈ l -> P a -> exists a', f a b = Done a' /\ P a') ->
  P a -> exists a', ofold f l a = Done a' /\ P a'.
Proof.
  revert a. induction l as [|b l IH]; intros a Hf Ha; [by exists a|].
  simpl. destruct (Hf a b) as (a1 & E & Ha1); [set_solver|done|].
  rewrite E. simpl. apply IH; [|done]. intros; apply Hf; [set_solver|done].
Qed.

End LoopOutcomes.

(** ** The constructor: from the level records to the numbered levels *)

Section CtorLevels.
Import NucDecaySystem TransitionBase.

Variables (Q : SMFile) (B : BindingEnergyLibrary).

Lemma numbered_lv_static (ls : list NucLevel.t) :
  lv_static <$> numbered ls = lv_static <$> ls.
Proof.
  apply list_eq. intros i. rewrite !list_lookup_fmap, numbered_lookup.
  by destruct (ls !! i).
Qed.

Lemma numbered_names (ls : list NucLevel.t) :
  NucLevel.name <$> numbered ls = NucLevel.name <$> ls.
Proof.
  apply list_eq. intros i. rewrite !list_lookup_fmap, numbered_lookup.
  by destruct (ls !! i).
Qed.

Lemma sorted_names_perm :
  NucLevel.name <$> sort_levels (level_of <$> sm_level Q) ≡ₚ level_names Q.
Proof.
  rewrite sort_levels_perm. unfold level_names. by rewrite <- list_fmap_compose.
Qed.

Lemma sorted_length : length (sort_levels (level_of <$> sm_level Q)) = length (sm_level Q).
Proof. by rewrite sort_levels_perm, length_fmap. Qed.

Lemma sorted_flux (l : NucLevel.t) :
  l ∈ sort_levels (level_of <$> sm_level Q) ->
  NucLevel.fluxOut l = 0 /\ NucLevel.fluxIn l = 0.
Proof.
  rewrite sort_levels_perm. intros H. apply list_elem_of_fmap in H as (m & -> & _). done.
Qed.

Lemma with_levels_from_input (m : gmap string nat) :
  index_rel (sort_levels (level_of <$> sm_level Q)) (length (sm_level Q)) m ->
  from_input Q B (with_levels Q B m).
Proof.
  intros Hm. unfold with_levels. split; [split; [split|..]|done|]; cbn.
  - by rewrite length_replicate, numbered_length, sorted_length.
  - by rewrite length_replicate, numbered_length, sorted_length.
  - by rewrite length_replicate, numbered_length, sorted_length.
  - intros n tout tid Hn Hin. apply lookup_replicate in Hn as [-> _]. set_solver.
  - intros n tout tid Hn Hin. apply lookup_replicate in Hn as [-> _]. set_solver.
  - done.
  - intros i l Hl. rewrite numbered_lookup in Hl.
    destruct (_ !! i); [|done]. by injection Hl as <-.
  - intros n lev tout Hl Hn. cbn in *. apply lookup_replicate in Hn as [-> _].
    rewrite numbered_lookup in Hl.
    destruct (sort_levels _ !! n) as [l0|] eqn:E; [|done]. injection Hl as <-.
    apply list_elem_of_lookup_2 in E. destruct (sorted_flux l0 E) as [H0 _].
    unfold sum_Itotal. cbn. exact H0.
  - intros i j li lj Hij Hi Hj. cbn in *. rewrite numbered_lookup in Hi, Hj.
    destruct (sort_levels _ !! i) as [li0|] eqn:Ei; [|done]. injection Hi as <-.
    destruct (sort_levels _ !! j) as [lj0|] eqn:Ej; [|done]. injection Hj as <-.
    apply (StronglySorted_lookup _ i j li0 lj0 (sort_levels_sorted _) Hij Ei Ej).
  - intros nm i. cbn. rewrite (Hm nm i), numbered_lookup. split.
    + intros (Hi & l & Hl & Hn). rewrite Hl. by eexists.
    + intros (l & Hl & Hn).
      destruct (sort_levels _ !! i) as [l0|] eqn:E; [|done]. injection Hl as <-.
      split; [|by exists l0]. apply lookup_lt_Some in E. by rewrite sorted_length in E.
  - rewrite numbered_lv_static. by rewrite sort_levels_perm.
Qed.

Lemma levels_step_spec :
  levels_step Q B
  = if decide (Forall (fun m => length (lv_nm_fields m) = 3%nat) (sm_level Q))
    then if decide (NoDup (level_names Q))
         then levels_step Q B
         else Raise (AssertionFailure "levelIndex.find(l.name) == levelIndex.end()")
    else Raise (AssertionFailure "v.size()==3").
Proof.
  unfold levels_step at 1. rewrite load_levels_spec.
  destruct (decide (Forall _ _)) as [H3|H3]; [|done]. cbn [obind].
  destruct (decide (NoDup (level_names Q))) as [Hnd|Hnd].
  - unfold levels_step. rewrite load_levels_spec, decide_True by done. done.
  - apply index_levels_dup; [done|]. cbn. by rewrite sorted_names_perm.
Qed.

Lemma levels_step_Done (s : NucDecaySystem.t) :
  levels_step Q B = Done s ->
  Forall (fun m => length (lv_nm_fields m) = 3%nat) (sm_level Q)
  /\ NoDup (level_names Q)
  /\ from_input Q B s /\ sane s.
Proof.
  rewrite levels_step_spec.
  destruct (decide (Forall _ _)) as [H3|H3]; [|done].
  destruct (decide (NoDup _)) as [Hnd|Hnd]; [|done].
  unfold levels_step. rewrite load_levels_spec, decide_True by done. cbn [obind].
  match goal with |- index_levels ?s0 = _ -> _ =>
    destruct (index_levels_Done s0) as (m & Hm & Hidx)
  end.
  { done. }
  { cbn. by rewrite sorted_names_perm. }
  rewrite Hidx. intros [= <-]. split; [done|]. split; [done|].
  cbn [levels set_levels app] in Hm. rewrite sorted_length in Hm.
  split; [apply (with_levels_from_input m Hm)|].
  split; [by apply Forall_nil|]. cbn. apply Forall_forall. intros l Hl.
  apply list_elem_of_lookup in Hl as [i Hl]. rewrite numbered_lookup in Hl.
  destruct (sort_levels _ !! i) as [l0|] eqn:E; [|done]. injection Hl as <-.
  apply list_elem_of_lookup_2 in E. destruct (sorted_flux l0 E) as [_ H0].
  cbn. by rewrite H0.
Qed.

Lemma levels_step_progress :
  Forall (fun m => length (lv_nm_fields m) = 3%nat) (sm_level Q) ->
  NoDup (level_names Q) -> exists s, levels_step Q B = Done s.
Proof.
  intros H3 Hnd. unfold levels_step. rewrite load_levels_spec, decide_True by done.
  cbn [obind].
  match goal with |- exists s, index_levels ?s0 = _ =>
    destruct (index_levels_Done s0) as (m & Hm & Hidx)
  end.
  { done. }
  { cbn. by rewrite sorted_names_perm. }
  eauto.
Qed.

End CtorLevels.

(** ** The constructor: the steps that add transitions *)

Section CtorSteps.
Import NucDecaySystem TransitionBase.

Variables (Q : SMFile) (B : BindingEnergyLibrary).

Lemma lv_static_of_level_static (ls ls' : list NucLevel.t) :
  level_static <$> ls' = level_static <$> ls -> lv_static <$> ls' = lv_static <$> ls.
Proof.
  intros H.
  assert (E : forall l : list NucLevel.t,
            lv_static <$> l = (fun x : string * nat * nat * nat * Qc * Qc =>
                                 let '(nm, a, z, _, e, _) := x in (nm, a, z, e))
                              <$> (level_static <$> l)).
  { intros l. rewrite <- list_fmap_compose. apply list_fmap_ext. by intros ? []. }
  by rewrite !E, H.
Qed.

Lemma from_input_kept (s s' : NucDecaySystem.t) :
  from_input Q B s -> built s' -> kept s s' -> from_input Q B s'.
Proof.
  intros [Bs HB Hl] Bs' [K1 K2 K3 K4]. split; [done|congruence|].
  by rewrite (lv_static_of_level_static _ _ K3).
Qed.

Lemma names_of_levels (s : NucDecaySystem.t) :
  from_input Q B s -> NucLevel.name <$> levels s ≡ₚ level_names Q.
Proof.
  intros [_ _ Hl]. unfold level_names.
  assert (E : forall l : list NucLevel.t,
            NucLevel.name <$> l = (fun x : string * nat * nat * Qc => x.1.1.1)
                                  <$> (lv_static <$> l)).
  { intros l. rewrite <- list_fmap_compose. apply list_fmap_ext. by intros ? []. }
  rewrite E, Hl, <- E, <- list_fmap_compose. done.
Qed.

Lemma level_in_input (s : NucDecaySystem.t) (l : NucLevel.t) :
  from_input Q B s -> l ∈ levels s ->
  exists m, m ∈ sm_level Q /\ lv_static l = lv_static (level_of m).
Proof.
  intros [_ _ Hl] Hin.
  assert (H : lv_static l ∈ lv_static <$> (level_of <$> sm_level Q)).
  { rewrite <- Hl. apply list_elem_of_fmap. by exists l. }
  apply list_elem_of_fmap in H as (l' & Heq & H).
  apply list_elem_of_fmap in H as (m & -> & H). by exists m.
Qed.

Lemma level_of_input (s : NucDecaySystem.t) (m : LevelRec) :
  from_input Q B s -> m ∈ sm_level Q ->
  exists l, l ∈ levels s /\ lv_static l = lv_static (level_of m).
Proof.
  intros [_ _ Hl] Hin.
  assert (H : lv_static (level_of m) ∈ lv_static <$> levels s).
  { rewrite Hl. apply list_elem_of_fmap. exists (level_of m). split; [done|].
    apply list_elem_of_fmap. by exists m. }
  apply list_elem_of_fmap in H as (l & Heq & H). by exists l.
Qed.

Lemma levIndex_Done (s : NucDecaySystem.t) (nm : string) (i : nat) :
  from_input Q B s -> levIndex s nm = Done i ->
  nm ∈ level_names Q /\ exists l, levels s !! i = Some l /\ NucLevel.name l = nm.
Proof.
  intros F. unfold levIndex.
  destruct (levelIndex s !! nm) as [j|] eqn:E; [|done]. intros [= <-].
  apply (bt_index s (fi_built _ _ _ F)) in E as (l & Hl & Hn).
  split; [|by exists l]. rewrite <- (names_of_levels s F).
  apply list_elem_of_fmap. exists l. split; [done|]. by eapply list_elem_of_lookup_2.
Qed.

Lemma levIndex_Raise (s : NucDecaySystem.t) (nm : string) (e : SMExcept) :
  from_input Q B s -> levIndex s nm = Raise e ->
  e = UnknownLevel nm /\ nm ∉ level_names Q.
Proof.
  intros F. unfold levIndex.
  destruct (levelIndex s !! nm) as [j|] eqn:E; [done|]. intros [= <-].
  split; [done|]. rewrite <- (names_of_levels s F). intros Hin.
  apply list_elem_of_fmap in Hin as (l & -> & Hin).
  apply list_elem_of_lookup in Hin as (i & Hi).
  assert (levelIndex s !! NucLevel.name l = Some i); [|congruence].
  apply (bt_index s (fi_built _ _ _ F)). by exists l.
Qed.

Lemma levIndex_progress (s : NucDecaySystem.t) (nm : string) :
  from_input Q B s -> nm ∈ level_names Q ->
  exists i l, levIndex s nm = Done i /\ levels s !! i = Some l /\ NucLevel.name l = nm.
Proof.
  intros F Hin. rewrite <- (names_of_levels s F) in Hin.
  apply list_elem_of_fmap in Hin as (l & -> & Hin).
  apply list_elem_of_lookup in Hin as (i & Hi).
  assert (H : levelIndex s !! NucLevel.name l = Some i).
  { apply (bt_index s (fi_built _ _ _ F)). by exists l. }
  apply (bt_index s (fi_built _ _ _ F)) in H as Hl. destruct Hl as (l' & Hl' & Hn').
  exists i, l'. unfold levIndex. by rewrite H.
Qed.

Lemma levIndex_never (s : NucDecaySystem.t) (nm : string) :
  levIndex s nm <> Undefined /\ levIndex s nm <> Unbounded.
Proof. unfold levIndex. by destruct (levelIndex s !! nm). Qed.

(** [addTransition] on a system under construction. *)
Lemma addT_Done (s s' : NucDecaySystem.t) (T : TransitionBase.t) :
  from_input Q B s -> addTransition s T = Done s' ->
  from_input Q B s' /\ kept s s'
  /\ exists lto, transitions s' = transitions s ++ [stored lto T].
Proof.
  intros F H.
  destruct (addTransition_built s s' T (fi_built _ _ _ F) H) as (Bs' & K & lto & _ & Ht).
  split; [by eapply from_input_kept|]. split; [done|]. by exists lto.
Qed.

Lemma addT_Raise (s : NucDecaySystem.t) (T : TransitionBase.t) (e : SMExcept) :
  from_input Q B s -> addTransition s T = Raise e ->
  exists m, m ∈ sm_level Q /\ e = MissingElement (NucLevel.Z (level_of m))
    /\ B (NucLevel.Z (level_of m)) = None.
Proof.
  intros F H. destruct (addTransition_Raise s T e H) as (lto & Hto & -> & HB).
  destruct (level_in_input s lto F) as (m & Hm & Hst); [by eapply list_elem_of_lookup_2|].
  exists m. split; [done|].
  assert (NucLevel.Z lto = NucLevel.Z (level_of m)) as <-.
  { unfold lv_static in Hst. by injection Hst. }
  split; [done|]. by rewrite <- (fi_BEL _ _ _ F).
Qed.

Lemma addT_progress (s : NucDecaySystem.t) (T : TransitionBase.t) :
  from_input Q B s ->
  (forall m, m ∈ sm_level Q -> is_Some (B (NucLevel.Z (level_of m)))) ->
  (from T < length (levels s))%nat -> (to T < length (levels s))%nat ->
  exists s', addTransition s T = Done s'.
Proof.
  intros F HB Hf Ht.
  destruct (lookup_lt_is_Some_2 (levels s) (to T) Ht) as [lto Hto].
  apply (addTransition_progress s T lto); [apply F | done | done |].
  right. rewrite (fi_BEL _ _ _ F).
  destruct (level_in_input s lto F) as (m & Hm & Hst); [by eapply list_elem_of_lookup_2|].
  assert (NucLevel.Z lto = NucLevel.Z (level_of m)) as ->.
  { unfold lv_static in Hst. by injection Hst. }
  by apply HB.
Qed.

Lemma addT_never (s : NucDecaySystem.t) (T : TransitionBase.t) :
  addTransition s T <> Unbounded.
Proof.
  unfold addTransition, idx, getAtom.
  repeat (match goal with
          | |- context [match ?l !! ?i with _ => _ end] => destruct (l !! i); cbn [obind]
          | |- context [match BEL ?s ?z with _ => _ end] => destruct (BEL s z); cbn [obind]
          end); done.
Qed.

End CtorSteps.

(** ** The constructor: gamma, beta and electron-capture records *)

Section CtorLink.
Import NucDecaySystem TransitionBase.

Variables (Q : SMFile) (B : BindingEnergyLibrary).

Lemma link_Done (s s' : NucDecaySystem.t) (nmf nmt : string)
    (mkT : nat -> nat -> NucLevel.t -> NucLevel.t -> TransitionBase.t) :
  from_input Q B s -> link s nmf nmt mkT = Done s' ->
  from_input Q B s' /\ kept s s'
  /\ nmf ∈ level_names Q /\ nmt ∈ level_names Q
  /\ exists f t_ lf lt lto,
       levels s !! f = Some lf /\ NucLevel.name lf = nmf
       /\ levels s !! t_ = Some lt /\ NucLevel.name lt = nmt
       /\ transitions s' = transitions s ++ [stored lto (mkT f t_ lf lt)].
Proof.
  intros F. unfold link.
  destruct (levIndex s nmf) as [f| | |] eqn:Ef; try done. cbn [obind].
  destruct (levIndex s nmt) as [t_| | |] eqn:Et; try done. cbn [obind].
  destruct (levIndex_Done Q B s nmf f F Ef) as (Hinf & lf & Hlf & Hnf).
  destruct (levIndex_Done Q B s nmt t_ F Et) as (Hint & lt & Hlt & Hnt).
  rewrite (idx_Some _ _ _ Hlf), (idx_Some _ _ _ Hlt). cbn [obind]. intros H.
  destruct (addT_Done Q B s s' _ F H) as (F' & K & lto & Ht).
  repeat (split; [done|]). by exists f, t_, lf, lt, lto.
Qed.

Lemma link_Raise (s : NucDecaySystem.t) (nmf nmt : string)
    (mkT : nat -> nat -> NucLevel.t -> NucLevel.t -> TransitionBase.t) (e : SMExcept) :
  from_input Q B s -> link s nmf nmt mkT = Raise e -> link_error Q B nmf nmt e.
Proof.
  intros F. unfold link.
  destruct (levIndex s nmf) as [f|e'| |] eqn:Ef; try done; cbn [obind].
  2:{ intros [= <-]. left. by apply (levIndex_Raise Q B s). }
  destruct (levIndex s nmt) as [t_|e'| |] eqn:Et; try done; cbn [obind].
  2:{ intros [= <-]. right; left. by apply (levIndex_Raise Q B s). }
  destruct (levIndex_Done Q B s nmf f F Ef) as (Hinf & lf & Hlf & Hnf).
  destruct (levIndex_Done Q B s nmt t_ F Et) as (Hint & lt & Hlt & Hnt).
  rewrite (idx_Some _ _ _ Hlf), (idx_Some _ _ _ Hlt). cbn [obind]. intros H.
  right; right. by apply (addT_Raise Q B s (mkT f t_ lf lt) e F).
Qed.

Lemma link_progress (s : NucDecaySystem.t) (nmf nmt : string)
    (mkT : nat -> nat -> NucLevel.t -> NucLevel.t -> TransitionBase.t) :
  from_input Q B s ->
  (forall f t_ lf lt, from (mkT f t_ lf lt) = f /\ to (mkT f t_ lf lt) = t_) ->
  (forall m, m ∈ sm_level Q -> is_Some (B (NucLevel.Z (level_of m)))) ->
  nmf ∈ level_names Q -> nmt ∈ level_names Q ->
  exists s', link s nmf nmt mkT = Done s'.
Proof.
  intros F Hmk HB Hf Ht. unfold link.
  destruct (levIndex_progress Q B s nmf F Hf) as (f & lf & -> & Hlf & _).
  destruct (levIndex_progress Q B s nmt F Ht) as (t_ & lt & -> & Hlt & _).
  cbn [obind]. rewrite (idx_Some _ _ _ Hlf), (idx_Some _ _ _ Hlt). cbn [obind].
  destruct (Hmk f t_ lf lt) as [Hfrom Hto].
  apply (addT_progress Q B); [done | done | |].
  - rewrite Hfrom. by eapply lookup_lt_Some.
  - rewrite Hto. by eapply lookup_lt_Some.
Qed.

Lemma link_never (s : NucDecaySystem.t) (nmf nmt : string)
    (mkT : nat -> nat -> NucLevel.t -> NucLevel.t -> TransitionBase.t) :
  link s nmf nmt mkT <> Unbounded.
Proof.
  unfold link.
  destruct (levIndex s nmf) as [f| | |] eqn:Ef; try done; cbn [obind].
  2:{ by destruct (levIndex_never s nmf). }
  destruct (levIndex s nmt) as [t_| | |] eqn:Et; try done; cbn [obind].
  2:{ by destruct (levIndex_never s nmt). }
  unfold idx. destruct (levels s !! f); [|done]. cbn [obind].
  destruct (levels s !! t_); [|done]. cbn [obind]. apply addT_never.
Qed.

Lemma add_gamma_link (s : NucDecaySystem.t) (g : GammaRec) :
  add_gamma s g = link s (g_from g) (g_to g) (gamma_T g).
Proof. reflexivity. Qed.

Lemma add_beta_link (q : BetaSpectrumGenerator -> Qc -> Qc) (s : NucDecaySystem.t)
    (bt : BetaRec) :
  add_beta q s bt = link s (b_from bt) (b_to bt) (beta_T q bt).
Proof. reflexivity. Qed.

(** The selectors of a conversion gamma. *)
Lemma wf_fold_addProb (ws : list Qc) (s : PSelector.t) :
  PSelector.wf s -> Forall (fun w => 0 <= w) ws ->
  PSelector.wf (fold_left PSelector.addProb ws s).
Proof.
  revert s. induction ws as [|w ws IH]; intros s Hs Hws; [done|].
  apply Forall_cons in Hws as [Hw Hws]. simpl. apply IH; [|done]. by apply wf_addProb.
Qed.

Lemma getCumProb_addProb (s : PSelector.t) (w : Qc) :
  PSelector.getCumProb (PSelector.addProb s w) = w + PSelector.getCumProb s.
Proof. unfold PSelector.getCumProb, PSelector.addProb; cbn. apply back_snoc. Qed.

Lemma getCumProb_fold (ws : list Qc) (s : PSelector.t) :
  PSelector.getCumProb (fold_left PSelector.addProb ws s)
  = PSelector.getCumProb s + Qc_sum ws.
Proof.
  revert s. induction ws as [|w ws IH]; intros s; simpl.
  - ring.
  - rewrite IH, getCumProb_addProb. ring.
Qed.

Lemma getCumProb_new : PSelector.getCumProb PSelector.new = 0.
Proof. done. Qed.

Lemma wf_total_nonneg (s : PSelector.t) : PSelector.wf s -> 0 <= PSelector.getCumProb s.
Proof.
  intros Hwf. unfold PSelector.getCumProb. rewrite back_at.
  apply wf_at_nonneg; [done|]. destruct Hwf as [[l Hl] _]. rewrite Hl. simpl. lia.
Qed.

Lemma add_shell_fold (Ig : Qc) (ces : list ShellRec)
    (acc : PSelector.t * list Qc * list PSelector.t) :
  (fold_left (ConversionGamma.add_shell Ig) ces acc).1.1
  = fold_left PSelector.addProb (ce_x <$> ces) acc.1.1
  /\ (fold_left (ConversionGamma.add_shell Ig) ces acc).2
     = acc.2 ++ ((fun sh => fold_left PSelector.addProb
                              (match ce_subshells sh with
                               | None => [1]
                               | Some l => l
                               end) PSelector.new) <$> ces).
Proof.
  revert acc. induction ces as [|sh ces IH]; intros [[shs unc] subs]; simpl.
  - by rewrite app_nil_r.
  - destruct (IH (PSelector.addProb shs (ce_x sh), unc ++ [ce_err sh * Ig],
                  subs ++ [fold_left PSelector.addProb
                             (match ce_subshells sh with
                              | None => [1]
                              | Some l => l
                              end) PSelector.new])) as [H1 H2].
    split; [exact H1|]. rewrite H2. cbn. by rewrite <- app_assoc.
Qed.

Lemma gamma_T_sane (g : GammaRec) (f t_ : nat) (lf lt : NucLevel.t) :
  sane_gamma g -> sane_T (gamma_T g f t_ lf lt).
Proof.
  intros [HI Hsh]. unfold gamma_T, ConversionGamma.make.
  destruct (fold_left _ (g_CE g) _) as [[shs unc] subs] eqn:E.
  destruct (add_shell_fold (g_Igamma g / Q2Qc 100%Q) (g_CE g) (PSelector.new, [], []))
    as [H1 H2].
  rewrite E in H1, H2. cbn in H1, H2. subst shs subs.
  assert (HIg : 0 <= g_Igamma g / Q2Qc 100%Q).
  { clear -HI. qc_to_q. apply Qle_shift_div_l; [reflexivity|]. lra. }
  assert (Hwf : PSelector.wf
            (PSelector.scale
               (PSelector.addProb (fold_left PSelector.addProb (ce_x <$> g_CE g)
                                     PSelector.new) 1)
               (g_Igamma g / Q2Qc 100%Q))).
  { apply wf_scale; [|done]. apply wf_addProb; [|by vm_compute].
    apply wf_fold_addProb; [apply wf_new|].
    apply Forall_fmap. eapply Forall_impl; [exact Hsh|]. by intros sh [H _]. }
  unfold sane_T. cbn [kind Itotal set_Itotal TransitionBase.make fst snd
                       ConversionGamma.shells ConversionGamma.subshells].
  split; [by apply wf_total_nonneg|]. split; [done|]. split; [done|].
  apply Forall_fmap. eapply Forall_impl; [exact Hsh|]. intros sh [_ Hs].
  cbn [compose]. rewrite getCumProb_fold, getCumProb_new.
  destruct (ce_subshells sh) as [l|].
  - destruct Hs as [_ Hs]. clear -Hs. qc_to_q. lra.
  - by vm_compute.
Qed.

Lemma beta_T_sane (q : BetaSpectrumGenerator -> Qc -> Qc) (bt : BetaRec)
    (f t_ : nat) (lf lt : NucLevel.t) :
  0 <= b_I bt -> sane_T (beta_T q bt f t_ lf lt).
Proof.
  intros HI. unfold sane_T, beta_T. cbn. split; [|done].
  clear -HI. qc_to_q. apply Qle_shift_div_l; [reflexivity|]. lra.
Qed.

Lemma ecapt_T_sane (I : Qc) (f t_ : nat) : 0 <= I -> sane_T (ecapt_T I f t_).
Proof. intros HI. by split. Qed.

(** A step that links two levels keeps the invariants. *)
Lemma link_sane (s s' : NucDecaySystem.t) (nmf nmt : string)
    (mkT : nat -> nat -> NucLevel.t -> NucLevel.t -> TransitionBase.t) :
  from_input Q B s -> sane s ->
  (forall f t_ lf lt, sane_T (mkT f t_ lf lt)) ->
  link s nmf nmt mkT = Done s' -> sane s'.
Proof.
  intros F Hs Hmk. unfold link.
  destruct (levIndex s nmf) as [f| | |]; try done. cbn [obind].
  destruct (levIndex s nmt) as [t_| | |]; try done. cbn [obind].
  destruct (idx (levels s) f) as [lf| | |]; try done. cbn [obind].
  destruct (idx (levels s) t_) as [lt| | |]; try done. cbn [obind].
  apply addTransition_sane; [apply F | done | apply Hmk].
Qed.

End CtorLink.

(** ** The constructor: stages *)

Section CtorStage.
Import NucDecaySystem TransitionBase.

Variables (Q : SMFile) (B : BindingEnergyLibrary).

Lemma sane_kept_atoms (s : NucDecaySystem.t) (atoms' : gmap nat DecayAtom.t) :
  sane s -> sane (set_atoms s atoms').
Proof. done. Qed.

(** A loop of steps is a step. *)
Lemma stage_post {X : Type} (f : NucDecaySystem.t -> X -> outcome NucDecaySystem.t)
    (refs : X -> list string) (wfx sanex : X -> Prop) (l : list X)
    (s : NucDecaySystem.t) :
  (forall s x, x ∈ l -> from_input Q B s ->
     step_post Q B (refs x) (wfx x) (sanex x) s (f s x)) ->
  from_input Q B s ->
  step_post Q B (l ≫= refs) (Forall wfx l) (Forall sanex l) s (ofold f l s).
Proof.
  revert s. induction l as [|x l IH]; intros s Hstep F.
  - cbn. split; [done|]. split; [apply kept_refl|]. split; [set_solver|done].
  - cbn [ofold]. pose proof (Hstep s x ltac:(set_solver) F) as Hx.
    destruct (f s x) as [s1|e| |]; cbn [obind]; try done.
    + destruct Hx as (F1 & K1 & R1 & S1).
      specialize (IH s1 ltac:(intros; apply Hstep; [set_solver|done]) F1).
      destruct (ofold f l s1) as [s2|e| |]; try done.
      * destruct IH as (F2 & K2 & R2 & S2). split; [done|].
        split; [by eapply kept_trans|]. split.
        -- intros nm Hin. rewrite bind_cons in Hin. apply elem_of_app in Hin as [Hin|Hin]; auto.
        -- intros Hs Hsane. apply Forall_cons in Hs as [Hs1 Hs2]. auto.
      * destruct IH as (C & W). split.
        -- intros nm Hc. destruct (C nm Hc) as [Hin Hn]. split; [|done].
           rewrite bind_cons. apply elem_of_app. by right.
        -- intros Hw. apply Forall_cons in Hw as [_ Hw]. by apply W.
    + destruct Hx as (C & W). split.
      * intros nm Hc. destruct (C nm Hc) as [Hin Hn]. split; [|done].
        rewrite bind_cons. apply elem_of_app. by left.
      * intros Hw. apply Forall_cons in Hw as [Hw _]. by apply W.
Qed.

(** Chaining two steps. *)
Lemma step_post_bind (refs1 refs2 : list string) (wf1 wf2 sane1 sane2 : Prop)
    (s : NucDecaySystem.t) (o : outcome NucDecaySystem.t)
    (k : NucDecaySystem.t -> outcome NucDecaySystem.t) :
  step_post Q B refs1 wf1 sane1 s o ->
  (forall s1, o = Done s1 -> from_input Q B s1 ->
     step_post Q B refs2 wf2 sane2 s1 (k s1)) ->
  step_post Q B (refs1 ++ refs2) (wf1 /\ wf2) (sane1 /\ sane2) s (obind o k).
Proof.
  intros H1 H2. destruct o as [s1|e| |]; cbn [obind]; try done.
  - destruct H1 as (F1 & K1 & R1 & S1). specialize (H2 s1 eq_refl F1).
    destruct (k s1) as [s2|e| |]; try done.
    + destruct H2 as (F2 & K2 & R2 & S2). split; [done|].
      split; [by eapply kept_trans|]. split.
      * intros nm Hin. apply elem_of_app in Hin as [Hin|Hin]; auto.
      * intros [Hs1 Hs2] Hsane. auto.
    + destruct H2 as (C & W). split.
      * intros nm Hc. destruct (C nm Hc) as [Hin Hn]. split; [|done].
        apply elem_of_app. by right.
      * intros [_ Hw]. by apply W.
  - destruct H1 as (C & W). split.
    + intros nm Hc. destruct (C nm Hc) as [Hin Hn]. split; [|done].
      apply elem_of_app. by left.
    + intros [Hw _]. by apply W.
Qed.

Lemma two_names (nmf nmt : string) (L : list string) :
  nmf ∈ L -> nmt ∈ L -> forall nm, nm ∈ [nmf; nmt] -> nm ∈ L.
Proof.
  intros Hf Ht nm Hin. apply elem_of_cons in Hin as [->|Hin]; [done|].
  by apply list_elem_of_singleton in Hin as ->.
Qed.

Lemma link_Raise_carried (s : NucDecaySystem.t) (nmf nmt : string)
    (mkT : nat -> nat -> NucLevel.t -> NucLevel.t -> TransitionBase.t) (e : SMExcept) :
  from_input Q B s -> link s nmf nmt mkT = Raise e ->
  forall nm, carried e = Some nm -> nm ∈ [nmf; nmt] /\ nm ∉ level_names Q.
Proof.
  intros F E nm Hc.
  destruct (link_Raise Q B s _ _ _ e F E) as [[-> H]|[[-> H]|(m & _ & -> & _)]];
    cbn in Hc; [| |done]; injection Hc as <-; (split; [|done]).
  - apply elem_of_cons. by left.
  - apply elem_of_cons. right. apply elem_of_cons. by left.
Qed.

(** The gamma and beta records. *)
Lemma add_gamma_post (s : NucDecaySystem.t) (g : GammaRec) :
  from_input Q B s ->
  step_post Q B [g_from g; g_to g]
    (BEL_covers Q B /\ g_from g ∈ level_names Q /\ g_to g ∈ level_names Q)
    (sane_gamma g) s (add_gamma s g).
Proof.
  intros F. rewrite add_gamma_link.
  destruct (link s (g_from g) (g_to g) (gamma_T g)) as [s'|e| |] eqn:E; cbn; try done.
  - destruct (link_Done Q B s s' _ _ _ F E) as (F' & K & Hf & Ht & _).
    split; [done|]. split; [done|]. split; [by apply two_names|].
    intros Hg Hs.
    apply (link_sane Q B s s' (g_from g) (g_to g) (gamma_T g) F Hs); [|exact E].
    intros. by apply gamma_T_sane.
  - split.
    + by eapply link_Raise_carried.
    + intros (HB & Hf & Ht).
      destruct (link_progress Q B s (g_from g) (g_to g) (gamma_T g) F) as [s' Hs'];
        try done. congruence.
  - by apply link_never in E.
Qed.

Lemma add_beta_post (q : BetaSpectrumGenerator -> Qc -> Qc)
    (s : NucDecaySystem.t) (bt : BetaRec) :
  from_input Q B s ->
  step_post Q B [b_from bt; b_to bt]
    (BEL_covers Q B /\ b_from bt ∈ level_names Q /\ b_to bt ∈ level_names Q)
    (0 <= b_I bt) s (add_beta q s bt).
Proof.
  intros F. rewrite add_beta_link.
  destruct (link s (b_from bt) (b_to bt) (beta_T q bt)) as [s'|e| |] eqn:E; cbn; try done.
  - destruct (link_Done Q B s s' _ _ _ F E) as (F' & K & Hf & Ht & _).
    split; [done|]. split; [done|]. split; [by apply two_names|].
    intros Hg Hs.
    apply (link_sane Q B s s' (b_from bt) (b_to bt) (beta_T q bt) F Hs); [|exact E].
    intros. by apply beta_T_sane.
  - split.
    + by eapply link_Raise_carried.
    + intros (HB & Hf & Ht).
      destruct (link_progress Q B s (b_from bt) (b_to bt) (beta_T q bt) F) as [s' Hs'];
        try done. congruence.
  - by apply link_never in E.
Qed.

End CtorStage.

(** ** The constructor: electron captures, normalisation and atoms *)

Section CtorEcapt.
Import NucDecaySystem TransitionBase.

Variables (Q : SMFile) (B : BindingEnergyLibrary).

Lemma step_post_mono (refs refs' : list string) (wfx wfx' sanex sanex' : Prop)
    (s : NucDecaySystem.t) (o : outcome NucDecaySystem.t) :
  step_post Q B refs wfx sanex s o ->
  (forall nm, nm ∈ refs -> nm ∈ refs') ->
  (forall nm, nm ∈ refs' -> nm ∈ refs \/ nm ∈ level_names Q) ->
  (wfx' -> wfx) -> (sanex' -> sanex) ->
  step_post Q B refs' wfx' sanex' s o.
Proof.
  intros H Hr Hr' Hw Hs. destruct o as [s1|e| |]; try done.
  - destruct H as (F1 & K1 & R1 & S1).
    split; [done|]. split; [done|]. split.
    + intros nm Hin. destruct (Hr' nm Hin); auto.
    + auto.
  - destruct H as (C & W). split; [|auto].
    intros nm Hc. destruct (C nm Hc). split; [by apply Hr | done].
Qed.

Lemma step_post_skip (s : NucDecaySystem.t) (wfx sanex : Prop) :
  from_input Q B s -> step_post Q B [] wfx sanex s (Done s).
Proof.
  intros F. split; [done|]. split; [apply kept_refl|]. split; [|done].
  intros nm Hin. by apply elem_of_nil in Hin.
Qed.

Lemma addT_post (s : NucDecaySystem.t) (T : TransitionBase.t) :
  from_input Q B s ->
  step_post Q B [] (BEL_covers Q B) (sane_T T) s (addTransition s T).
Proof.
  intros F. destruct (addTransition s T) as [s'|e| |] eqn:E; cbn; try done.
  - destruct (addT_Done Q B s s' T F E) as (F' & K & _).
    split; [done|]. split; [done|]. split.
    + intros nm Hin. by apply elem_of_nil in Hin.
    + intros HT Hs. by apply (addTransition_sane s s' T (fi_built _ _ _ F)).
  - destruct (addT_Raise Q B s T e F E) as (m & Hm & -> & HB). split; [done|].
    intros Hc. destruct (Hc m Hm) as [x Hx]. congruence.
  - by apply addT_never in E.
Qed.

Lemma add_ecapt_auto_post (iorig : nat) (Lorig : NucLevel.t)
    (s : NucDecaySystem.t) (idest : nat) :
  from_input Q B s ->
  step_post Q B [] (BEL_covers Q B) True s (add_ecapt_auto iorig Lorig s idest).
Proof.
  intros F. unfold add_ecapt_auto, idx.
  destruct (levels s !! idest) as [Ldest|]; [|done]. cbn [obind].
  destruct (ecapt_allowed Lorig Ldest); [|by apply step_post_skip].
  case_decide as Hm; [by apply step_post_skip|].
  eapply step_post_mono; [by apply addT_post | done | by left | done |].
  intros _. apply ecapt_T_sane. clear -Hm. qc_to_q. lra.
Qed.

Lemma from_names_in_levels (s : NucDecaySystem.t) (l : NucLevel.t) :
  from_input Q B s -> l ∈ levels s ->
  exists m, m ∈ sm_level Q /\ lv_nm m = NucLevel.name l
    /\ NucLevel.A (level_of m) = NucLevel.A l
    /\ NucLevel.Z (level_of m) = NucLevel.Z l
    /\ NucLevel.E (level_of m) = NucLevel.E l.
Proof.
  intros F Hin. destruct (level_in_input Q B s l F Hin) as (m & Hm & Hst).
  exists m. unfold lv_static in Hst. injection Hst as H1 H2 H3 H4.
  split; [done|]. split; [done|]. split; [done|]. split; done.
Qed.

Lemma add_ecapt_post (s : NucDecaySystem.t) (ec : ECaptRec) :
  from_input Q B s ->
  step_post Q B (ecapt_refs ec)
    (BEL_covers Q B /\ (forall nm, nm ∈ ecapt_refs ec -> nm ∈ level_names Q)
     /\ (e_to ec <> "AUTO" ->
         forall mf mt, mf ∈ sm_level Q -> mt ∈ sm_level Q ->
           lv_nm mf = e_from ec -> lv_nm mt = e_to ec ->
           NucLevel.A (level_of mt) = NucLevel.A (level_of mf)
           /\ (NucLevel.Z (level_of mt) + 1)%nat = NucLevel.Z (level_of mf)
           /\ NucLevel.E (level_of mt) < NucLevel.E (level_of mf)))
    (0 <= e_I ec) s (add_ecapt s ec).
Proof.
  intros F. unfold add_ecapt.
  assert (Hfrom : e_from ec ∈ ecapt_refs ec).
  { unfold ecapt_refs. case_decide; apply elem_of_cons; by left. }
  destruct (levIndex s (e_from ec)) as [iorig|e| |] eqn:Ef; cbn [obind].
  2:{ destruct (levIndex_Raise Q B s _ e F Ef) as [-> Hn]. split.
      - by intros nm [= <-].
      - intros (_ & Hr & _). by apply Hn, Hr. }
  2:{ by destruct (levIndex_never s (e_from ec)). }
  2:{ by destruct (levIndex_never s (e_from ec)). }
  destruct (levIndex_Done Q B s _ _ F Ef) as (Hinf & Lorig & HLorig & Hnf).
  rewrite (idx_Some _ _ _ HLorig). cbn [obind].
  destruct (decide (e_to ec = "AUTO")) as [Hauto|Hauto].
  - eapply step_post_mono.
    + apply (stage_post Q B (add_ecapt_auto iorig Lorig) (fun _ => [])
               (fun _ => BEL_covers Q B) (fun _ => True)); [|done].
      intros s1 x _ F1. by apply add_ecapt_auto_post.
    + intros nm Hin. apply list_elem_of_bind in Hin as (x & Hin & _).
      by apply elem_of_nil in Hin.
    + intros nm Hin. right. unfold ecapt_refs in Hin. rewrite decide_True in Hin by done.
      by apply list_elem_of_singleton in Hin as ->.
    + intros (HB & _). by apply Forall_forall.
    + intros _. by apply Forall_forall.
  - assert (Hto : e_to ec ∈ ecapt_refs ec).
    { unfold ecapt_refs. rewrite decide_False by done.
      apply elem_of_cons. right. apply elem_of_cons. by left. }
    destruct (levIndex s (e_to ec)) as [idest|e| |] eqn:Et; cbn [obind].
    2:{ destruct (levIndex_Raise Q B s _ e F Et) as [-> Hn]. split.
        - by intros nm [= <-].
        - intros (_ & Hr & _). by apply Hn, Hr. }
    2:{ by destruct (levIndex_never s (e_to ec)). }
    2:{ by destruct (levIndex_never s (e_to ec)). }
    destruct (levIndex_Done Q B s _ _ F Et) as (Hint & Ldest & HLdest & Hnt).
    rewrite (idx_Some _ _ _ HLdest). cbn [obind].
    unfold smassert. destruct (ecapt_allowed Lorig Ldest) eqn:Eal; cbn [obind].
    + eapply step_post_mono; [by apply addT_post | | | | ].
      * intros nm Hin. by apply elem_of_nil in Hin.
      * intros nm Hin. right. unfold ecapt_refs in Hin.
        rewrite decide_False in Hin by done.
        apply elem_of_cons in Hin as [->|Hin]; [done|].
        by apply list_elem_of_singleton in Hin as ->.
      * by intros (HB & _).
      * intros HI. by apply ecapt_T_sane.
    + split; [done|]. intros (_ & _ & Hal).
      destruct (from_names_in_levels s Lorig F) as (mf & Hmf & Hnmf & HA & HZ & HE);
        [by eapply list_elem_of_lookup_2|].
      destruct (from_names_in_levels s Ldest F) as (mt & Hmt & Hnmt & HA' & HZ' & HE');
        [by eapply list_elem_of_lookup_2|].
      destruct (Hal Hauto mf mt Hmf Hmt) as (H1 & H2 & H3); [congruence..|].
      unfold ecapt_allowed in Eal. apply bool_decide_eq_false in Eal. apply Eal.
      rewrite <- HA, <- HZ, <- HE, <- HA', <- HZ', <- HE'. done.
Qed.

(** The normalisation. *)
Lemma gsflux_nonneg (s : NucDecaySystem.t) : sane s -> 0 <= gsflux s.
Proof.
  intros [_ Hl]. unfold gsflux.
  assert (H : forall acc : Qc, 0 <= acc ->
            0 <= fold_left (fun acc l => if decide (NucLevel.fluxOut l = 0)
                                         then acc + NucLevel.fluxIn l else acc)
                           (levels s) acc).
  { induction Hl as [|l ls Hl0 Hls IH]; intros acc Hacc; simpl; [done|].
    apply IH. case_decide; [|done]. clear -Hacc Hl0. qc_to_q. lra. }
  apply H. by qc_to_q.
Qed.

Lemma normalise_post (s : NucDecaySystem.t) (norm : string) :
  from_input Q B s -> step_post Q B [] True True s (normalise s norm).
Proof.
  intros F. unfold normalise. case_decide; [|by apply step_post_skip].
  unfold fdiv. case_decide as Hg; [done|]. cbn [obind].
  assert (Hk : 1 / gsflux s <> 0).
  { assert (H1 : 1 / gsflux s * gsflux s = 1) by (by field).
    intros Hz. rewrite Hz, Qcmult_0_l in H1. clear -H1. qc_to_q. lra. }
  rewrite (scale_transitions_progress _ s Hk). cbn [obind].
  destruct (rescaled_built s
    (set_levels (set_transitions s (scaled (1 / gsflux s) <$> transitions s))
       ((fun l => NucLevel.scale l (1 / gsflux s)) <$> levels s))
    (1 / gsflux s) (fi_built _ _ _ F)) as [Bs K]; try done.
  split; [by eapply from_input_kept|]. split; [done|]. split.
  - intros nm Hin. by apply elem_of_nil in Hin.
  - intros _ Hs. pose proof (gsflux_nonneg s Hs) as Hge.
    assert (Hpos : 0 < 1 / gsflux s).
    { clear -Hge Hg. qc_to_q. apply Qlt_shift_div_l; lra. }
    destruct Hs as [Ht Hl]. split; cbn.
    + apply Forall_fmap. eapply Forall_impl; [exact Ht|]. intros T. by apply scaled_sane.
    + apply Forall_fmap. eapply Forall_impl; [exact Hl|]. intros l Hl0. cbn.
      clear -Hl0 Hpos. qc_to_q. nra.
Qed.

(** The atoms. *)
Lemma getPVacant_never (s : NucDecaySystem.t) (T : TransitionBase.t) (n : nat) :
  (forall e, getPVacant s T n <> Raise e) /\ getPVacant s T n <> Unbounded.
Proof.
  unfold getPVacant. destruct (kind T) as [g|b|e0].
  - unfold ConversionGamma.getPVacant, PSelector.getProb, PSelector.getN, fdiv.
    case_decide; [|done]. rewrite decide_True by lia. by case_decide.
  - done.
  - case_decide; [|done]. by destruct (atoms s !! toAtom T).
Qed.

Lemma set_atoms_post (s : NucDecaySystem.t) (atoms' : gmap nat DecayAtom.t)
    (wfx sanex : Prop) :
  from_input Q B s ->
  (forall Z, is_Some (atoms s !! Z) -> is_Some (atoms' !! Z)) ->
  step_post Q B [] wfx sanex s (Done (set_atoms s atoms')).
Proof.
  intros F Hm. destruct (set_atoms_built s atoms' Hm (fi_built _ _ _ F)) as [Bs K].
  split; [by eapply from_input_kept|]. split; [done|]. split; [|done].
  intros nm Hin. by apply elem_of_nil in Hin.
Qed.

Lemma add_ICEK_of_post (s : NucDecaySystem.t) (T : TransitionBase.t) :
  from_input Q B s -> step_post Q B [] True True s (add_ICEK_of s T).
Proof.
  intros F. unfold add_ICEK_of.
  destruct (getPVacant_never s T 0) as [Hr Hu].
  destruct (getPVacant s T 0) as [pv|e| |]; cbn [obind]; try done.
  2:{ by destruct (Hr e). }
  destruct (atoms s !! toAtom T) as [a|] eqn:Ea; [|done].
  apply set_atoms_post; [done|]. intros Z HZ.
  destruct (decide (Z = toAtom T)) as [->|Hne].
  - by rewrite lookup_insert_eq.
  - by rewrite lookup_insert_ne.
Qed.

Lemma DecayAtom_load_Raise (a : DecayAtom.t) (m : AugerRec) (e : SMExcept) :
  DecayAtom.load a m = Raise e ->
  ~ Forall (fun kv => (0 < String.length (fst kv))%nat) (a_dat m).
Proof.
  unfold DecayAtom.load.
  assert (H : forall a0, Forall (fun kv => (0 < String.length (fst kv))%nat) (a_dat m) ->
            exists a1,
              ofold (fun a kv =>
                let! _ := smassert (bool_decide (0 < String.length (fst kv))%nat)
                                   "it->first.size()" in
                if DecayAtom.first_is "a" (fst kv)
                then Done (DecayAtom.set_Iauger a (DecayAtom.Iauger a + snd kv / Q2Qc 100%Q))
                else if DecayAtom.first_is "k" (fst kv)
                then Done (DecayAtom.set_Ikxr a (DecayAtom.Ikxr a + snd kv / Q2Qc 100%Q))
                else Done a) (a_dat m) a0 = Done a1).
  { induction (a_dat m) as [|kv l IH]; intros a0 Hall; [by exists a0|].
    apply Forall_cons in Hall as [Hkv Hall]. cbn [ofold]. unfold smassert.
    rewrite bool_decide_eq_true_2 by done. cbn [obind].
    destruct (DecayAtom.first_is "a" kv.1); cbn [obind]; [by apply IH|].
    destruct (DecayAtom.first_is "k" kv.1); cbn [obind]; by apply IH. }
  intros Hr Hall. destruct (H a Hall) as [a1 Ha1]. rewrite Ha1 in Hr. cbn [obind] in Hr.
  case_decide; [done|]. unfold fdiv in Hr. by case_decide.
Qed.

Lemma DecayAtom_load_never (a : DecayAtom.t) (m : AugerRec) :
  DecayAtom.load a m <> Unbounded.
Proof.
  unfold DecayAtom.load.
  assert (H : forall a0,
              ofold (fun a kv =>
                let! _ := smassert (bool_decide (0 < String.length (fst kv))%nat)
                                   "it->first.size()" in
                if DecayAtom.first_is "a" (fst kv)
                then Done (DecayAtom.set_Iauger a (DecayAtom.Iauger a + snd kv / Q2Qc 100%Q))
                else if DecayAtom.first_is "k" (fst kv)
                then Done (DecayAtom.set_Ikxr a (DecayAtom.Ikxr a + snd kv / Q2Qc 100%Q))
                else Done a) (a_dat m) a0 <> Unbounded).
  { induction (a_dat m) as [|kv l IH]; intros a0; [done|].
    cbn [ofold]. unfold smassert. case_bool_decide; cbn [obind]; [|done].
    destruct (DecayAtom.first_is "a" kv.1); cbn [obind]; [by apply IH|].
    destruct (DecayAtom.first_is "k" kv.1); cbn [obind]; by apply IH. }
  specialize (H a). destruct (ofold _ (a_dat m) a); cbn [obind]; try done.
  case_decide; [done|]. unfold fdiv. by case_decide.
Qed.

Lemma load_auger_post (s : NucDecaySystem.t) (a : AugerRec) :
  from_input Q B s ->
  step_post Q B []
    (a_Z a <> 0%nat /\ is_Some (B (a_Z a))
     /\ Forall (fun kv => (0 < String.length (fst kv))%nat) (a_dat a))
    True s (load_auger s a).
Proof.
  intros F. unfold load_auger. case_decide as HZ.
  { split; [done|]. by intros (H & _). }
  destruct (getAtom s (a_Z a)) as [s1|e| |] eqn:Ea; cbn [obind].
  - destruct (getAtom_built s s1 _ (fi_built _ _ _ F) Ea) as (Bs1 & K1 & _ & [at_ Hat]).
    rewrite Hat.
    destruct (DecayAtom.load at_ a) as [at'|e| |] eqn:El; cbn [obind].
    + assert (F1 : from_input Q B s1) by (by eapply from_input_kept).
      pose proof (set_atoms_post s1 (<[a_Z a := at']> (atoms s1)) True True F1) as H.
      destruct H as (F2 & K2 & _).
      { intros Z HZ'. destruct (decide (Z = a_Z a)) as [->|Hne].
        - by rewrite lookup_insert_eq.
        - by rewrite lookup_insert_ne. }
      split; [done|]. split; [by eapply kept_trans|]. split.
      * intros nm Hin. by apply elem_of_nil in Hin.
      * intros _ Hs. destruct (getAtom_Done _ _ _ Ea) as (atoms1 & -> & _). exact Hs.
    + split.
      * apply DecayAtom_load_Raise in El as Hn. intros nm Hc.
        unfold DecayAtom.load in El. exfalso.
        destruct e; try done. clear -El Hc.
        destruct (ofold _ (a_dat a) at_) as [x|e| |] eqn:E1; cbn [obind] in El; try done.
        -- case_decide; [done|]. unfold fdiv in El. by case_decide.
        -- injection El as ->.
           revert E1. generalize at_. induction (a_dat a) as [|kv l IH]; intros a0; [done|].
           cbn [ofold]. unfold smassert. case_bool_decide; cbn [obind]; [|done].
           destruct (DecayAtom.first_is "a" kv.1); cbn [obind]; [by apply IH|].
           destruct (DecayAtom.first_is "k" kv.1); cbn [obind]; by apply IH.
      * intros (_ & _ & Hall). by apply (DecayAtom_load_Raise _ _ _ El).
    + done.
    + by apply DecayAtom_load_never in El.
  - apply getAtom_Raise in Ea as [-> HB]. split; [done|].
    intros (_ & [x Hx] & _). rewrite (fi_BEL _ _ _ F) in HB. congruence.
  - done.
  - unfold getAtom in Ea. destruct (atoms s !! a_Z a); [done|]. by destruct (BEL s (a_Z a)).
Qed.

End CtorEcapt.

(** ** The constructor as a whole *)

Section Make.
Import NucDecaySystem TransitionBase.

Variables (Q : SMFile) (B : BindingEnergyLibrary).

Lemma length_cumprob_fold (ws : list Qc) (s : PSelector.t) :
  length (PSelector.cumprob (fold_left PSelector.addProb ws s))
  = (length (PSelector.cumprob s) + length ws)%nat.
Proof.
  revert s. induction ws as [|w ws IH]; intros s; simpl; [lia|].
  rewrite IH. unfold PSelector.addProb; cbn. rewrite length_app. simpl. lia.
Qed.

Lemma after_setCutoff_built (s : NucDecaySystem.t) (tc : Qc) :
  built s -> built (after_setCutoff s tc) /\ kept s (after_setCutoff s tc).
Proof.
  intros [G Bl S I]. split; [split|by split].
  - destruct G as [G1 G2 G3 G4 G5 G6 G7]. split; try done.
    unfold after_setCutoff; cbn. by rewrite length_fmap.
  - done.
  - done.
  - done.
Qed.

Lemma after_setCutoff_ready (s : NucDecaySystem.t) (tc : Qc) :
  built s -> ready (after_setCutoff s tc).
Proof.
  intros Bs. split.
  - by apply after_setCutoff_built.
  - done.
  - unfold start_synced, after_setCutoff; cbn.
    rewrite length_cumprob_fold, length_fmap, length_seq. done.
Qed.

Lemma setCutoff_post (s : NucDecaySystem.t) (tc : Qc) :
  from_input Q B s -> step_post Q B [] True True s (setCutoff s tc).
Proof.
  intros F. rewrite (setCutoff_closed s tc) by apply F.
  destruct (after_setCutoff_built s tc (fi_built _ _ _ F)) as [Bs K].
  split; [by eapply from_input_kept|]. split; [done|]. split; [|done].
  intros nm Hin. by apply elem_of_nil in Hin.
Qed.

Lemma make_unfold (q : BetaSpectrumGenerator -> Qc -> Qc) (tc : Qc) :
  NucDecaySystem.make q Q B tc
  = let! s := levels_step Q B in
    let! s := transitions_step q Q s in
    setCutoff s tc.
Proof.
  unfold NucDecaySystem.make, levels_step, transitions_step.
  destruct (load_levels _ (sm_level Q)) as [ls| | |]; [|done..].
  cbn [obind].
  cbn zeta.
  destruct (index_levels _) as [s0| | |]; [|done..]. cbn [obind].
  destruct (add_gammas _ _) as [s1| | |]; [|done..]. cbn [obind].
  destruct (normalise _ _) as [s2| | |]; [|done..]. cbn [obind].
  destruct (add_ICEK _) as [s3| | |]; [|done..]. cbn [obind].
  destruct (load_augers _ _) as [s4| | |]; [|done..]. cbn [obind].
  destruct (add_betas _ _ _) as [s5| | |]; [|done..]. cbn [obind].
  by destruct (add_ecapts _ _) as [s6| | |].
Qed.

Lemma add_ICEK_post (s : NucDecaySystem.t) :
  from_input Q B s -> step_post Q B [] True True s (add_ICEK s).
Proof.
  intros F. unfold add_ICEK. eapply step_post_mono.
  - apply (stage_post Q B add_ICEK_of (fun _ => []) (fun _ => True) (fun _ => True));
      [|exact F].
    intros s' T _ F'. by apply add_ICEK_of_post.
  - intros nm Hin. apply list_elem_of_bind in Hin as (x & Hin & _).
    by apply elem_of_nil in Hin.
  - intros nm Hin. by apply elem_of_nil in Hin.
  - intros _. by apply Forall_forall.
  - intros _. by apply Forall_forall.
Qed.

(** The steps after the levels, as one step. *)
Lemma after_levels_post (q : BetaSpectrumGenerator -> Qc -> Qc)
    (s : NucDecaySystem.t) :
  from_input Q B s ->
  step_post Q B (referenced Q)
    (BEL_covers Q B
     /\ (forall nm, nm ∈ referenced Q -> nm ∈ level_names Q)
     /\ (forall a, a ∈ sm_AugerK Q ->
           a_Z a <> 0%nat /\ is_Some (B (a_Z a))
           /\ Forall (fun kv => (0 < String.length (fst kv))%nat) (a_dat a))
     /\ (forall ec, ec ∈ sm_ecapt Q -> e_to ec <> "AUTO" ->
           forall mf mt, mf ∈ sm_level Q -> mt ∈ sm_level Q ->
             lv_nm mf = e_from ec -> lv_nm mt = e_to ec ->
             NucLevel.A (level_of mt) = NucLevel.A (level_of mf)
             /\ (NucLevel.Z (level_of mt) + 1)%nat = NucLevel.Z (level_of mf)
             /\ NucLevel.E (level_of mt) < NucLevel.E (level_of mf)))
    (sane_input Q) s
    (transitions_step q Q s).
Proof.
  intros F. unfold transitions_step.
  eapply step_post_mono.
  - apply step_post_bind.
    { apply (stage_post Q B add_gamma (fun g => [g_from g; g_to g])); [|exact F].
      intros s1 g _ F1. by apply add_gamma_post. }
    intros s1 _ F1. apply step_post_bind; [by apply normalise_post|].
    intros s2 _ F2. apply step_post_bind; [by apply add_ICEK_post|].
    intros s3 _ F3. apply step_post_bind.
    { apply (stage_post Q B load_auger (fun _ => [])); [|exact F3].
      intros s' a _ F'. by apply load_auger_post. }
    intros s4 _ F4. apply step_post_bind.
    { apply (stage_post Q B (add_beta q) (fun bt => [b_from bt; b_to bt])); [|exact F4].
      intros s' bt _ F'. by apply add_beta_post. }
    intros s5 _ F5.
    apply (stage_post Q B add_ecapt ecapt_refs); [|exact F5].
    intros s' ec _ F'. by apply add_ecapt_post.
  - intros nm Hin. unfold referenced.
    repeat (apply elem_of_app in Hin as [Hin|Hin]);
      try (apply list_elem_of_bind in Hin as (x & Hin & _); by apply elem_of_nil in Hin);
      try (by apply elem_of_nil in Hin).
    + apply elem_of_app. by left.
    + apply elem_of_app. right. apply elem_of_app. by left.
    + apply elem_of_app. right. apply elem_of_app. by right.
  - intros nm Hin. left. unfold referenced in Hin.
    apply elem_of_app in Hin as [Hin|Hin]; [apply elem_of_app; by left|].
    apply elem_of_app in Hin as [Hin|Hin].
    + apply elem_of_app; right. apply elem_of_app; right. apply elem_of_app; right.
      apply elem_of_app; right. apply elem_of_app; by left.
    + apply elem_of_app; right. apply elem_of_app; right. apply elem_of_app; right.
      apply elem_of_app; right. by apply elem_of_app; right.
  - intros (HB & Hr & Ha & He).
    assert (Hg : forall g, g ∈ sm_gamma Q ->
              g_from g ∈ level_names Q /\ g_to g ∈ level_names Q).
    { intros g Hg. split; apply Hr; unfold referenced; apply elem_of_app; left;
        apply list_elem_of_bind; exists g; (split; [|done]);
        [apply elem_of_cons; by left
        | apply elem_of_cons; right; apply elem_of_cons; by left]. }
    assert (Hb : forall b, b ∈ sm_beta Q ->
              b_from b ∈ level_names Q /\ b_to b ∈ level_names Q).
    { intros b Hb. split; apply Hr; unfold referenced; apply elem_of_app; right;
        apply elem_of_app; left;
        apply list_elem_of_bind; exists b; (split; [|done]);
        [apply elem_of_cons; by left
        | apply elem_of_cons; right; apply elem_of_cons; by left]. }
    assert (Hec : forall ec nm, ec ∈ sm_ecapt Q -> nm ∈ ecapt_refs ec ->
              nm ∈ level_names Q).
    { intros ec nm Hin Hnm. apply Hr. unfold referenced. apply elem_of_app; right.
      apply elem_of_app; right. apply list_elem_of_bind. by exists ec. }
    split; [|split; [done|split; [done|split; [|split]]]].
    + apply Forall_forall. intros g Hin. destruct (Hg g Hin). done.
    + apply Forall_forall. intros a Hin. by apply Ha.
    + apply Forall_forall. intros b Hin. destruct (Hb b Hin). done.
    + apply Forall_forall. intros ec Hin. split; [done|]. split; [by eauto|].
      intros Hauto. by apply He.
  - intros [Sg Sb Se].
    split; [done|]. split; [done|]. split; [done|]. split; [by apply Forall_forall|].
    split; [done|]. done.
Qed.

(** The constructor, as a whole. *)
Lemma make_post (q : BetaSpectrumGenerator -> Qc -> Qc) (tc : Qc) :
  match NucDecaySystem.make q Q B tc with
  | Done s =>
      (exists s0, built s0 /\ (sane_input Q -> sane s0) /\ s = after_setCutoff s0 tc)
      /\ from_input Q B s
      /\ Forall (fun m => length (lv_nm_fields m) = 3%nat) (sm_level Q)
      /\ NoDup (level_names Q)
      /\ (forall nm, nm ∈ referenced Q -> nm ∈ level_names Q)
  | Raise e =>
      (forall nm, carried e = Some nm -> nm ∈ referenced Q /\ nm ∉ level_names Q)
      /\ ~ well_formed Q B
  | Undefined => True
  | Unbounded => False
  end.
Proof.
  rewrite make_unfold, levels_step_spec.
  destruct (decide (Forall _ _)) as [H3|H3];
    [|cbn; split; [done|]; by intros [W _ _ _ _ _]].
  destruct (decide (NoDup _)) as [Hnd|Hnd];
    [|cbn; split; [done|]; by intros [_ W _ _ _ _]].
  destruct (levels_step_progress Q B H3 Hnd) as [s1 E1]. rewrite E1. cbn [obind].
  apply levels_step_Done in E1 as (_ & _ & F1 & S1).
  pose proof (after_levels_post q s1 F1) as P.
  destruct (transitions_step q Q s1) as [s2|e| |]; cbn [obind]; cbn in P.
  - destruct P as (F2 & K & Hr & S2).
    rewrite (setCutoff_closed s2 tc) by apply F2.
    pose proof (setCutoff_post s2 tc F2) as P2.
    rewrite (setCutoff_closed s2 tc) in P2 by apply F2. cbn in P2.
    destruct P2 as (F3 & _).
    split; [|done]. exists s2. split; [apply F2|]. split; [|done]. intros Si. by apply S2.
  - destruct P as [Hc Hw]. split; [done|].
    intros [W1 W2 W3 W4 W5 W6]. apply Hw. split; [|done].
    intros m Hm. by apply W4.
  - done.
  - done.
Qed.

End Make.

(** ** The constructor: errors *)

Section ExampleInputs.

Import NucDecaySystem.


Lemma cascade_input_sane : sane_input cascade_input.
Proof.
  split.
  - repeat constructor; cbn; by vm_compute.
  - constructor.
  - constructor.
Qed.

Lemma cascade_made :
  make example_quantiles cascade_input example_BEL 1 = Done cascade.
Proof. by vm_compute. Qed.

End ExampleInputs.




(** ** [setCutoff]: the start weights *)

Section StartWeights.

Import NucDecaySystem.

Lemma weight_addProb_old (t : PSelector.t) (w : Qc) (n : nat) :
  (n + 1 < length (PSelector.cumprob t))%nat ->
  PSelector.weight (PSelector.addProb t w) n = PSelector.weight t n.
Proof.
  intros Hn. unfold PSelector.weight, PSelector.addProb. cbn [PSelector.cumprob].
  by rewrite !at_snoc_old by lia.
Qed.

Lemma weight_addProb_new (t : PSelector.t) (w : Qc) :
  (0 < length (PSelector.cumprob t))%nat ->
  PSelector.weight (PSelector.addProb t w) (length (PSelector.cumprob t) - 1) = w.
Proof.
  intros Hn. unfold PSelector.weight, PSelector.addProb. cbn [PSelector.cumprob].
  replace (length (PSelector.cumprob t) - 1 + 1)%nat
    with (length (PSelector.cumprob t)) by lia.
  rewrite at_snoc_new, at_snoc_old by lia. rewrite back_at. ring.
Qed.

(** Bin [n] of a selector filled from [ws] has weight [ws[n]]. *)
Lemma weight_fold (ws : list Qc) (n : nat) (w : Qc) :
  ws !! n = Some w ->
  PSelector.weight (fold_left PSelector.addProb ws PSelector.new) n = w.
Proof.
  revert n w. induction ws as [|w0 ws IH] using rev_ind; intros n w Hn; [done|].
  rewrite fold_left_app. cbn [fold_left].
  pose proof (length_cumprob_fold ws PSelector.new) as Hlen. cbn in Hlen.
  destruct (decide (n < length ws)%nat) as [Hlt|Hge].
  - rewrite lookup_app_l in Hn by done.
    rewrite weight_addProb_old by lia. by apply IH.
  - apply lookup_lt_Some in Hn as Hn'. rewrite length_app in Hn'. cbn in Hn'.
    assert (n = length ws) as -> by lia.
    rewrite list_lookup_middle in Hn by done. injection Hn as <-.
    pose proof (weight_addProb_new (fold_left PSelector.addProb ws PSelector.new) w0) as H.
    rewrite Hlen in H. replace (S (length ws) - 1)%nat with (length ws) in H by lia.
    apply H. lia.
Qed.

Lemma weight_after_setCutoff (s : t) (tc : Qc) (n : nat) :
  (n < length (levels s))%nat ->
  PSelector.weight (lStart (after_setCutoff s tc)) n = pStart_of s tc n.
Proof.
  intros Hn. unfold after_setCutoff. cbn [lStart]. apply weight_fold.
  rewrite list_lookup_fmap, lookup_seq_lt by done. done.
Qed.

End StartWeights.

(** C4. On a system with well-formed adjacency lists and at least one
    level, [setCutoff(tc)] ends, and in the start selector it leaves the
    bin of each level [n] weighs: 1 when [n] is the last (highest-energy)
    level, whatever its half-life; else 0 when the level has no outgoing
    transition or a half-life that does not exceed [tc]; else the sum of
    the [Itotal] of its inbound transitions. *)
Theorem setCutoff_start_weights (s : NucDecaySystem.t) (tc : Qc) :
  graph_ok s ->
  (0 < length (NucDecaySystem.levels s))%nat ->
  exists s',
    NucDecaySystem.setCutoff s tc = Done s'
    /\ forall n lev tout tin,
         NucDecaySystem.levels s !! n = Some lev ->
         NucDecaySystem.transOut s !! n = Some tout ->
         NucDecaySystem.transIn s !! n = Some tin ->
         PSelector.weight (NucDecaySystem.lStart s') n
         = if decide (n + 1 = length (NucDecaySystem.levels s))%nat then 1
           else if decide (tout = [] \/ NucLevel.hl lev <= tc) then 0
           else sum_Itotal s tin.
Proof.
  intros G HN. exists (after_setCutoff s tc). split; [by apply setCutoff_closed|].
  intros n lev tout tin Hlev Htout Htin.
  rewrite weight_after_setCutoff by (by apply lookup_lt_Some in Hlev).
  unfold pStart_of. rewrite Hlev, Htout, Htin.
  destruct (decide (n + 1 = _)%nat) as [Htop|Htop].
  - destruct (decide (_ /\ _)) as [[H1 _]|_]; [|done]. by apply Q_apart_0_1 in H1.
  - destruct (decide (_ /\ _)) as [(_ & Hhl & Hout)|Hno].
    + destruct (decide (_ \/ _)) as [[?|Hle]|_]; [done| |].
      * exfalso. revert Hhl Hle. qc_to_q. lra.
      * unfold sum_Itotal. done.
    + destruct (decide (_ \/ _)) as [_|Hyes]; [done|].
      exfalso. apply Hno. split; [done|]. split.
      * destruct (Qclt_le_dec tc (NucLevel.hl lev)) as [?|Hle]; [done|].
        exfalso. apply Hyes. by right.
      * intros ->. apply Hyes. by left.
Qed.

(** ** Sane systems: the start selector *)

Section SaneStart.

Import NucDecaySystem.

Lemma Itotal_of_nonneg (s : t) (tid : nat) : sane s -> 0 <= Itotal_of s tid.
Proof.
  intros [HT _]. unfold Itotal_of.
  destruct (transitions s !! tid) as [T|] eqn:E; [|done].
  apply list_elem_of_lookup_2 in E.
  rewrite Forall_forall in HT. by destruct (HT T E).
Qed.

Lemma fold_Itotal_nonneg (s : t) (tids : list nat) (p : Qc) :
  sane s -> 0 <= p -> 0 <= fold_left (fun p tid => p + Itotal_of s tid) tids p.
Proof.
  intros Hs. revert p. induction tids as [|tid tids IH]; intros p Hp; [done|].
  cbn [fold_left]. apply IH. pose proof (Itotal_of_nonneg s tid Hs).
  revert Hp H. qc_to_q. lra.
Qed.




End SaneStart.

(** * Chain generation *)

(** ** What chain generation leaves alone *)

Section Evolves.

Import NucDecaySystem TransitionBase.

Lemma evolves_refl (s : NucDecaySystem.t) : evolves s s.
Proof. by split. Qed.

Lemma evolves_trans (s1 s2 s3 : NucDecaySystem.t) :
  evolves s1 s2 -> evolves s2 s3 -> evolves s1 s3.
Proof.
  intros [A1 A2 A3 A4 A5 A6 A7 A8 A9 A10] [B1 B2 B3 B4 B5 B6 B7 B8 B9 B10].
  split; try congruence. intros Z a Ha. by apply B4, A4.
Qed.

Lemma static_T_fields (T T' : TransitionBase.t) :
  static_T T' = static_T T ->
  toAtom T' = toAtom T /\ from T' = from T /\ to T' = to T /\ Itotal T' = Itotal T
  /\ static_kind (kind T') = static_kind (kind T).
Proof. destruct T, T'. unfold static_T; cbn. by intros [= -> -> -> -> ->]. Qed.

Lemma static_kind_getNDF (T T' : TransitionBase.t) :
  static_kind (kind T') = static_kind (kind T) -> getNDF T' = getNDF T.
Proof. intros H. unfold getNDF. destruct (kind T), (kind T'); by cbn in H. Qed.

Lemma evolves_lookup (s s' : NucDecaySystem.t) (T : nat) (tb' : TransitionBase.t) :
  evolves s s' -> transitions s' !! T = Some tb' ->
  exists tb, transitions s !! T = Some tb /\ static_T tb' = static_T tb.
Proof.
  intros Ev HT. pose proof (f_equal (fun l => l !! T) (ev_transitions s s' Ev)) as H.
  cbn in H. rewrite !list_lookup_fmap, HT in H.
  destruct (transitions s !! T) as [tb|]; [|done]. exists tb. split; [done|].
  cbn in H. congruence.
Qed.

Lemma evolves_lookup_back (s s' : NucDecaySystem.t) (T : nat) (tb : TransitionBase.t) :
  evolves s s' -> transitions s !! T = Some tb ->
  exists tb', transitions s' !! T = Some tb' /\ static_T tb' = static_T tb.
Proof.
  intros Ev HT. pose proof (f_equal (fun l => l !! T) (ev_transitions s s' Ev)) as H.
  cbn in H. rewrite !list_lookup_fmap, HT in H.
  destruct (transitions s' !! T) as [tb'|]; [|done]. exists tb'. split; [done|].
  cbn in H. congruence.
Qed.

Lemma evolves_Itotal_of (s s' : NucDecaySystem.t) (T : nat) :
  evolves s s' -> Itotal_of s' T = Itotal_of s T.
Proof.
  intros Ev. unfold Itotal_of. destruct (transitions s' !! T) as [tb'|] eqn:E.
  - destruct (evolves_lookup s s' T tb' Ev E) as (tb & -> & Hst).
    by destruct (static_T_fields tb tb' Hst) as (_ & _ & _ & ? & _).
  - destruct (transitions s !! T) as [tb|] eqn:E0; [|done].
    destruct (evolves_lookup_back s s' T tb Ev E0) as (tb' & E' & _). congruence.
Qed.

Lemma evolves_NDF_of (s s' : NucDecaySystem.t) (T : nat) :
  evolves s s' -> NDF_of s' T = NDF_of s T.
Proof.
  intros Ev. unfold NDF_of. destruct (transitions s' !! T) as [tb'|] eqn:E.
  - destruct (evolves_lookup s s' T tb' Ev E) as (tb & -> & Hst).
    apply static_kind_getNDF. by destruct (static_T_fields tb tb' Hst) as (_ & _ & _ & _ & ?).
  - destruct (transitions s !! T) as [tb|] eqn:E0; [|done].
    destruct (evolves_lookup_back s s' T tb Ev E0) as (tb' & E' & _). congruence.
Qed.

Lemma evolves_sum_Itotal (s s' : NucDecaySystem.t) (tids : list nat) :
  evolves s s' -> sum_Itotal s' tids = sum_Itotal s tids.
Proof.
  intros Ev. unfold sum_Itotal. generalize (0 : Qc).
  induction tids as [|tid tids IH]; intros p; [done|].
  cbn [fold_left]. by rewrite IH, (evolves_Itotal_of s s' tid Ev).
Qed.

Lemma evolves_decays_of (s s' : NucDecaySystem.t) (tids : list nat) :
  evolves s s' -> decays_of s' tids = decays_of s tids.
Proof.
  intros Ev. unfold decays_of. generalize PSelector.new.
  induction tids as [|tid tids IH]; intros p; [done|].
  cbn [fold_left]. by rewrite IH, (evolves_Itotal_of s s' tid Ev).
Qed.

Lemma evolves_graph_ok (s s' : NucDecaySystem.t) :
  evolves s s' -> graph_ok s -> graph_ok s'.
Proof.
  intros Ev [G1 G2 G3 G4 G5 G6 G7].
  pose proof Ev as [A1 A2 A3 A4 A5 A6 A7 A8 A9 A10].
  split; rewrite ?A2, ?A6, ?A7, ?A8; try done.
  - intros n tout tid Hn Hin. destruct (G4 n tout tid Hn Hin) as (T & HT & Hf).
    destruct (evolves_lookup_back s s' tid T Ev HT) as (T' & HT' & Hst).
    exists T'. split; [done|].
    destruct (static_T_fields T T' Hst) as (_ & ? & _). congruence.
  - intros n tin tid Hn Hin. destruct (G5 n tin tid Hn Hin) as (T & HT & Hf).
    destruct (evolves_lookup_back s s' tid T Ev HT) as (T' & HT' & Hst).
    exists T'. split; [done|].
    destruct (static_T_fields T T' Hst) as (_ & _ & ? & _). congruence.
  - intros tid T' HT'. destruct (evolves_lookup s s' tid T' Ev HT') as (T & HT & Hst).
    destruct (static_T_fields T T' Hst) as (Ha & Hf & Ht & _).
    destruct (G6 tid T HT) as (Hlt & lto & Hl & Hz & [a Hat]).
    rewrite Ha, Hf, Ht. split; [done|]. exists lto. split; [done|]. split; [done|].
    exists a. by apply A4.
Qed.

Lemma evolves_ready (s s' : NucDecaySystem.t) : evolves s s' -> ready s -> ready s'.
Proof.
  intros Ev [[G Bl S I] D St].
  pose proof Ev as [A1 A2 A3 A4 A5 A6 A7 A8 A9 A10].
  split; [split|..].
  - by apply (evolves_graph_ok s s').
  - intros n lev tout Hl Ht. rewrite A2 in Hl. rewrite A7 in Ht.
    rewrite (evolves_sum_Itotal s s' tout Ev). by apply (Bl n).
  - unfold levels_sorted. by rewrite A2.
  - unfold index_ok. by rewrite A2, A3.
  - unfold decays_synced in *. rewrite A8, A7, D.
    apply list_fmap_ext. intros i tout _. symmetry. by apply evolves_decays_of.
  - unfold start_synced. by rewrite A9, A2.
Qed.

Lemma static_T_sane (T T' : TransitionBase.t) :
  static_T T' = static_T T -> sane_T T -> sane_T T'.
Proof.
  intros Hst [H0 Hk]. destruct (static_T_fields T T' Hst) as (_ & _ & _ & HI & Hkind).
  split; [by rewrite HI|]. rewrite HI.
  destruct (kind T) as [g| |], (kind T') as [g'| |]; try done.
  cbn in Hkind. injection Hkind as Hg.
  destruct g, g'. cbn in *. by subst.
Qed.

Lemma evolves_sane (s s' : NucDecaySystem.t) : evolves s s' -> sane s -> sane s'.
Proof.
  intros Ev [HT HL]. split.
  - apply Forall_forall. intros T' Hin. apply list_elem_of_lookup in Hin as [tid Hin].
    destruct (evolves_lookup s s' tid T' Ev Hin) as (T & HTl & Hst).
    apply (static_T_sane T T' Hst). rewrite Forall_forall in HT. apply HT.
    by apply list_elem_of_lookup_2 in HTl.
  - by rewrite (ev_levels s s' Ev).
Qed.

Lemma evolves_downhill (s s' : NucDecaySystem.t) : evolves s s' -> downhill s -> downhill s'.
Proof.
  intros Ev D T tb' lf lt HT. rewrite (ev_levels s s' Ev).
  destruct (evolves_lookup s s' T tb' Ev HT) as (tb & HTl & Hst).
  destruct (static_T_fields tb tb' Hst) as (_ & -> & -> & _). by apply (D T).
Qed.

Lemma evolves_is_path (s s' : NucDecaySystem.t) (n : nat) (Ts : list nat) :
  evolves s s' -> is_path s' n Ts -> is_path s n Ts.
Proof.
  intros Ev. revert n. induction Ts as [|T Ts IH]; intros n; [done|].
  cbn [is_path]. intros (tout & tb' & Hn & Hin & HT & Hp).
  rewrite (ev_transOut s s' Ev) in Hn.
  destruct (evolves_lookup s s' T tb' Ev HT) as (tb & HTl & Hst).
  destruct (static_T_fields tb tb' Hst) as (_ & _ & Hto & _).
  exists tout, tb. rewrite <- Hto. eauto.
Qed.

End Evolves.

(** ** The steps of a chain *)

Section ChainSteps.

Import NucDecaySystem TransitionBase.

Lemma picks_refl (P : list Qc -> Prop) (w w' : World NucDecaySystem.t) :
  sys w' = sys w -> trace w' = trace w -> picks P w w'.
Proof.
  intros Hs Ht. split; [rewrite Hs; apply evolves_refl|].
  exists []. by rewrite Ht, app_nil_r.
Qed.

Lemma picks_trans (P : list Qc -> Prop) (w1 w2 w3 : World NucDecaySystem.t) :
  picks P w1 w2 -> picks P w2 w3 -> picks P w1 w3.
Proof.
  intros [E1 (c1 & T1 & F1)] [E2 (c2 & T2 & F2)]. split; [by eapply evolves_trans|].
  exists (c1 ++ c2). rewrite T2, T1, fmap_app, app_assoc. split; [done|].
  by apply Forall_app.
Qed.

Lemma picks_mono (P P' : list Qc -> Prop) (w w' : World NucDecaySystem.t) :
  (forall c, P c -> P' c) -> picks P w w' -> picks P' w w'.
Proof.
  intros HP [E (c & T & F)]. split; [done|]. exists c. split; [done|].
  by eapply Forall_impl.
Qed.

Lemma picks_one (P : list Qc -> Prop) (c : list Qc) (w w' : World NucDecaySystem.t) :
  P c -> sys w' = sys w -> trace w' = trace w ++ [Selecting c] -> picks P w w'.
Proof.
  intros Hc Hs Ht. split; [rewrite Hs; apply evolves_refl|].
  exists [c]. split; [done|]. by apply Forall_singleton.
Qed.

(** A bin [locate] returns is a bin of the selector, of positive weight. *)
Lemma locate_Done (s : PSelector.t) (x r : Qc) (i : nat) :
  PSelector.locate s x = Done (i, r) ->
  (i + 1 < length (PSelector.cumprob s))%nat /\ 0 < PSelector.weight s i.
Proof.
  unfold PSelector.locate.
  destruct (PSelector.upper_bound (PSelector.cumprob s) x) as [|sel] eqn:Eu; [done|].
  case_decide as Hlt; [|done]. intros [= <- _]. split; [lia|].
  unfold PSelector.weight.
  assert (H1 : PSelector.at_ (PSelector.cumprob s) sel <= x)
    by (apply upper_bound_before; lia).
  assert (H2 : x < PSelector.at_ (PSelector.cumprob s) (sel + 1)).
  { replace (sel + 1)%nat with (PSelector.upper_bound (PSelector.cumprob s) x) by lia.
    apply upper_bound_at. lia. }
  revert H1 H2. qc_to_q. lra.
Qed.

Lemma select_spec (s : PSelector.t) (x : option nat) (w : World NucDecaySystem.t) :
  exists o w',
    PSelector.select s x w = (o, w')
    /\ sys w' = sys w
    /\ picks (eq (PSelector.cumprob s)) w w'
    /\ o <> Unbounded
    /\ forall i, o = Done i ->
         (i + 1 < length (PSelector.cumprob s))%nat /\ 0 < PSelector.weight s i.
Proof.
  assert (Hleaf : forall (o : outcome nat) (w' : World NucDecaySystem.t),
            sys w' = sys w ->
            trace w' = trace w ++ [Selecting (PSelector.cumprob s)] ->
            o <> Unbounded ->
            (forall i, o = Done i ->
               (i + 1 < length (PSelector.cumprob s))%nat /\ 0 < PSelector.weight s i) ->
            exists o0 w0, (o, w') = (o0, w0) /\ sys w0 = sys w
              /\ picks (eq (PSelector.cumprob s)) w w0 /\ o0 <> Unbounded
              /\ forall i, o0 = Done i ->
                   (i + 1 < length (PSelector.cumprob s))%nat
                   /\ 0 < PSelector.weight s i).
  { intros o w' Hs Ht Hu Hi. exists o, w'. split; [done|]. split; [done|].
    split; [|done].
    by apply (picks_one _ (PSelector.cumprob s)). }
  unfold PSelector.select, bind, note, Uniform, put_rnd_tmp, lift, ret, load, store.
  destruct x as [rnd|]; cbn.
  - destruct (idx (mem w) (rnd + 0)) as [x0| | |] eqn:Ex;
      try (apply Hleaf; done).
    2:{ unfold idx in Ex. by destruct (mem w !! _). }
    unfold smassert. destruct (bool_decide _); cbn; [|by apply Hleaf].
    destruct (mem w !! (rnd + 0)%nat) eqn:Em; cbn; [|by apply Hleaf].
    destruct (PSelector.locate s _) as [[i r]| | |] eqn:El; cbn;
      try (apply Hleaf; done).
    2:{ unfold PSelector.locate in El.
        destruct (PSelector.upper_bound _ _); [done|]. by case_decide. }
    destruct (<[_ := _]> (mem w) !! _); cbn; (apply Hleaf; try done).
    intros i' [= <-]. eapply locate_Done; exact El.
  - destruct (PSelector.locate s _) as [[i r]| | |] eqn:El; cbn;
      try (apply Hleaf; done).
    2:{ unfold PSelector.locate in El.
        destruct (PSelector.upper_bound _ _); [done|]. by case_decide. }
    apply Hleaf; try done. intros i' [= <-]. eapply locate_Done; exact El.
Qed.

Lemma quiet_bind {A B : Type} (P : list Qc -> Prop)
    (R : A -> World NucDecaySystem.t -> Prop) (R' : B -> World NucDecaySystem.t -> Prop)
    (m : M NucDecaySystem.t A) (f : A -> M NucDecaySystem.t B)
    (w : World NucDecaySystem.t) :
  quiet P R m w ->
  (forall a w1, R a w1 -> picks P w w1 -> quiet P R' (f a) w1) ->
  quiet P R' (bind m f) w.
Proof.
  intros (o & w1 & E & Hp & Hu & HR) Hf. unfold quiet, bind. rewrite E.
  destruct o as [a|e| |]; [|by exists (Raise e), w1|by exists Undefined, w1|done].
  destruct (Hf a w1 (HR a eq_refl) Hp) as (o2 & w2 & E2 & Hp2 & Hu2 & HR2).
  exists o2, w2. split; [done|]. split; [by eapply picks_trans|done].
Qed.

Lemma quiet_weaken {A : Type} (P P' : list Qc -> Prop)
    (R R' : A -> World NucDecaySystem.t -> Prop)
    (m : M NucDecaySystem.t A) (w : World NucDecaySystem.t) :
  (forall c, P c -> P' c) -> (forall a w', R a w' -> picks P w w' -> R' a w') ->
  quiet P R m w -> quiet P' R' m w.
Proof.
  intros HP HR (o & w1 & E & Hp & Hu & HR1). exists o, w1.
  split; [done|]. split; [by eapply picks_mono|]. split; [done|].
  intros a ->. apply HR; [by apply HR1|done].
Qed.

Lemma quiet_ret {A : Type} (P : list Qc -> Prop)
    (R : A -> World NucDecaySystem.t -> Prop) (a : A) (w : World NucDecaySystem.t) :
  R a w -> quiet P R (ret a) w.
Proof.
  intros HR. exists (Done a), w. split; [done|]. split; [by apply picks_refl|].
  split; [done|]. by intros a' [= <-].
Qed.

Lemma quiet_lift {A : Type} (P : list Qc -> Prop)
    (R : A -> World NucDecaySystem.t -> Prop) (o : outcome A)
    (w : World NucDecaySystem.t) :
  o <> Unbounded -> (forall a, o = Done a -> R a w) -> quiet P R (lift o) w.
Proof.
  intros Hu HR. exists o, w. split; [done|]. split; [by apply picks_refl|]. done.
Qed.

Lemma idx_bounded {A : Type} (l : list A) (i : nat) : idx l i <> Unbounded.
Proof. unfold idx. by destruct (l !! i). Qed.

Lemma quiet_idx {A : Type} (P : list Qc -> Prop) (l : list A) (i : nat)
    (w : World NucDecaySystem.t) :
  quiet P (fun a w' => w' = w /\ l !! i = Some a) (lift (idx l i)) w.
Proof.
  apply quiet_lift; [apply idx_bounded|]. intros a Ha. split; [done|].
  by apply idx_Done.
Qed.

Lemma quiet_get_sys (P : list Qc -> Prop) (w : World NucDecaySystem.t) :
  quiet P (fun s w' => w' = w /\ s = sys w) get_sys w.
Proof.
  exists (Done (sys w)), w. split; [done|]. split; [by apply picks_refl|].
  split; [done|]. by intros a [= <-].
Qed.

Lemma quiet_the_transition (P : list Qc -> Prop) (T : nat) (w : World NucDecaySystem.t) :
  quiet P (fun tb w' => w' = w /\ transitions (sys w) !! T = Some tb)
    (the_transition T) w.
Proof.
  unfold the_transition. eapply quiet_bind; [apply quiet_get_sys|].
  intros s w1 [-> ->] _. apply quiet_idx.
Qed.

Lemma quiet_the_atom (P : list Qc -> Prop) (Z : nat) (w : World NucDecaySystem.t) :
  quiet P (fun a w' => w' = w) (the_atom Z) w.
Proof.
  unfold the_atom. eapply quiet_bind; [apply quiet_get_sys|].
  intros s w1 [-> ->] _. apply quiet_lift; [by destruct (atoms _ !! Z)|done].
Qed.

Lemma quiet_Uniform (P : list Qc -> Prop) (x1 x2 : Qc) (w : World NucDecaySystem.t) :
  quiet P (fun _ w' => sys w' = sys w) (Uniform x1 x2) w.
Proof.
  eexists _, _. split; [reflexivity|]. split; [by apply picks_refl|].
  split; [done|]. by intros a _.
Qed.

Lemma quiet_load (P : list Qc -> Prop) (rnd i : nat) (w : World NucDecaySystem.t) :
  quiet P (fun _ w' => w' = w) (load rnd i) w.
Proof.
  exists (idx (mem w) (rnd + i)), w. split; [done|]. split; [by apply picks_refl|].
  split; [apply idx_bounded|done].
Qed.

Lemma quiet_push_back (P : list Qc -> Prop) (evt : NucDecayEvent.t)
    (w : World NucDecaySystem.t) :
  quiet P (fun _ w' => sys w' = sys w) (push_back evt) w.
Proof.
  eexists _, _. split; [reflexivity|]. split; [by apply picks_refl|].
  split; [done|]. by intros a _.
Qed.

Lemma quiet_randp (P : list Qc -> Prop) (evt : NucDecayEvent.t) (rnd : option nat)
    (w : World NucDecaySystem.t) :
  quiet P (fun _ w' => sys w' = sys w) (randp evt rnd) w.
Proof.
  unfold randp, randomDirection.
  pose (R := fun (_ : Qc) (w' : World NucDecaySystem.t) => sys w' = sys w).
  pose (Rd := fun (_ : direction) (w' : World NucDecaySystem.t) => sys w' = sys w).
  assert (Hu : forall w1, sys w1 = sys w ->
            forall i, quiet P R (match rnd with
                                 | Some r => load r i
                                 | None => Uniform 0 1
                                 end) w1).
  { intros w1 Hs1 i. destruct rnd as [r|].
    - eapply quiet_weaken; [done| |apply quiet_load]. intros a w' -> _. exact Hs1.
    - eapply quiet_weaken; [done| |apply quiet_Uniform].
      intros a w' Hs _. unfold R. congruence. }
  apply (quiet_bind P Rd); [|intros dir w1 Hs1 _; by apply quiet_ret].
  apply (quiet_bind P R); [by apply Hu|].
  intros u1 w1 Hs1 _. apply (quiet_bind P R); [by apply Hu|].
  intros u0 w2 Hs2 _. by apply quiet_ret.
Qed.

Lemma quiet_select (P : list Qc -> Prop) (s : PSelector.t) (x : option nat)
    (w : World NucDecaySystem.t) :
  P (PSelector.cumprob s) ->
  quiet P (fun i w' => sys w' = sys w
                       /\ (i + 1 < length (PSelector.cumprob s))%nat
                       /\ 0 < PSelector.weight s i)
    (PSelector.select s x) w.
Proof.
  intros HP. destruct (select_spec s x w) as (o & w' & E & Hs & Hp & Hu & Hi).
  exists o, w'. split; [done|]. split.
  { eapply picks_mono; [|exact Hp]. by intros c <-. }
  split; [done|]. intros i ->. split; [done|by apply Hi].
Qed.

End ChainSteps.

(** ** Firing a transition *)

Section ChainRun.

Import NucDecaySystem TransitionBase.

Local Abbreviation any := (fun _ _ => True).

Lemma quiet_put_sys (P : list Qc -> Prop) (s' : NucDecaySystem.t)
    (w : World NucDecaySystem.t) :
  evolves (sys w) s' -> quiet P (fun _ w' => sys w' = s') (put_sys s') w.
Proof.
  intros Ev. eexists _, _. split; [reflexivity|]. split.
  - split; [done|]. exists []. cbn. by rewrite app_nil_r.
  - split; [done|]. by intros a _.
Qed.

Lemma evolves_put_kind (s : NucDecaySystem.t) (T : nat) (tb : TransitionBase.t)
    (k : variant) :
  transitions s !! T = Some tb -> static_kind k = static_kind (kind tb) ->
  evolves s (set_transitions s (<[T := set_kind tb k]> (transitions s))).
Proof.
  intros HT Hk. split; try done. cbn.
  rewrite list_fmap_insert. apply list_insert_id.
  rewrite list_lookup_fmap, HT. cbn. f_equal.
  unfold static_T. cbn. by rewrite Hk.
Qed.

Lemma quiet_put_kind (P : list Qc -> Prop) (T : nat) (k : variant)
    (tb : TransitionBase.t) (w : World NucDecaySystem.t) :
  transitions (sys w) !! T = Some tb -> static_kind k = static_kind (kind tb) ->
  quiet P any (put_kind T k) w.
Proof.
  intros HT Hk. unfold put_kind.
  eapply quiet_bind; [apply quiet_get_sys|]. intros s w1 [-> ->] _.
  eapply quiet_bind; [apply quiet_idx|]. intros tb' w1 [-> HT'] _.
  assert (tb' = tb) as -> by congruence.
  eapply quiet_weaken; [done| |apply quiet_put_sys; by apply evolves_put_kind]. done.
Qed.

(** The transition behind [T] after some quiet steps. *)
Lemma picks_lookup (P : list Qc -> Prop) (w w' : World NucDecaySystem.t) (T : nat)
    (tb : TransitionBase.t) :
  picks P w w' -> transitions (sys w) !! T = Some tb ->
  exists tb', transitions (sys w') !! T = Some tb'
    /\ static_kind (kind tb') = static_kind (kind tb).
Proof.
  intros [Ev _] HT. destruct (evolves_lookup_back _ _ T tb Ev HT) as (tb' & HT' & Hst).
  exists tb'. split; [done|]. by destruct (static_T_fields tb tb' Hst) as (_ & _ & _ & _ & ?).
Qed.

Lemma quiet_genAuger (P : list Qc -> Prop) (Z : nat) (w : World NucDecaySystem.t) :
  quiet P any (genAuger Z) w.
Proof.
  unfold genAuger.
  eapply quiet_bind; [apply quiet_the_atom|]. intros a w1 -> _.
  eapply quiet_bind; [apply quiet_Uniform|]. intros u w1 _ _.
  case_decide; [by apply quiet_ret|].
  eapply quiet_bind; [apply quiet_randp|]. intros evt w2 _ _.
  eapply quiet_weaken; [done| |apply quiet_push_back]. done.
Qed.

Lemma quiet_ConversionGamma_run (T : nat) (tb : TransitionBase.t) (g : ConversionGamma.t)
    (rnd : option nat) (w : World NucDecaySystem.t) :
  transitions (sys w) !! T = Some tb -> kind tb = Gamma g ->
  quiet (run_pick tb) any (ConversionGamma_run T g rnd) w.
Proof.
  intros HT Hg. unfold ConversionGamma_run.
  assert (Hst : forall g', ConversionGamma.shells g' = ConversionGamma.shells g ->
            ConversionGamma.subshells g' = ConversionGamma.subshells g ->
            ConversionGamma.Egamma g' = ConversionGamma.Egamma g ->
            ConversionGamma.Igamma g' = ConversionGamma.Igamma g ->
            ConversionGamma.shellUncert g' = ConversionGamma.shellUncert g ->
            static_kind (Gamma g') = static_kind (Gamma g)).
  { intros g' H1 H2 H3 H4 H5. destruct g, g'. cbn in *. by subst. }
  assert (Hput : forall g' w1,
            static_kind (Gamma g') = static_kind (Gamma g) ->
            picks (run_pick tb) w w1 ->
            quiet (run_pick tb) any (put_kind T (Gamma g')) w1).
  { intros g' w1 Hk Hp. destruct (picks_lookup _ w w1 T tb Hp HT) as (tb' & HT' & Hk').
    apply (quiet_put_kind _ T _ tb'); [done|]. rewrite Hk', Hg. exact Hk. }
  eapply quiet_bind.
  { apply quiet_select. unfold run_pick. rewrite Hg. by left. }
  intros sel w1 (Hs1 & Hsel & _) Hp1.
  eapply quiet_bind; [apply Hput; [by apply Hst|done]|].
  intros _ w2 _ Hp2. pose proof (picks_trans _ _ _ _ Hp1 Hp2) as Hp12.
  eapply (quiet_bind _ (fun g' _ => static_kind (Gamma g') = static_kind (Gamma g))).
  { case_decide.
    - eapply quiet_bind; [apply quiet_idx|]. intros ss w3 [-> Hss] _.
      eapply quiet_bind.
      { apply quiet_select. unfold run_pick. rewrite Hg. right. exists ss.
        split; [|done]. by apply list_elem_of_lookup_2 in Hss. }
      intros sub w3 _ _. apply quiet_ret. by apply Hst.
    - apply quiet_ret. by apply Hst. }
  intros g' w3 Hk3 Hp3. pose proof (picks_trans _ _ _ _ Hp12 Hp3) as Hp13.
  eapply quiet_bind; [by apply Hput|].
  intros _ w4 _ Hp4.
  eapply (quiet_bind _ any).
  { case_decide; [by apply quiet_ret|].
    eapply quiet_bind; [apply quiet_the_transition|]. intros tb' w5 [-> _] _.
    eapply quiet_bind; [apply quiet_the_atom|]. intros a w5 -> _.
    by apply quiet_ret. }
  intros evt w5 _ Hp5.
  eapply quiet_bind; [apply quiet_randp|]. intros evt' w6 _ _.
  eapply quiet_weaken; [done| |apply quiet_push_back]. done.
Qed.

Lemma quiet_BetaDecayTrans_run (P : list Qc -> Prop) (b : BetaDecayTrans.t)
    (rnd : option nat) (w : World NucDecaySystem.t) :
  quiet P any (BetaDecayTrans_run b rnd) w.
Proof.
  unfold BetaDecayTrans_run.
  eapply quiet_bind; [apply quiet_randp|]. intros evt w1 _ _.
  eapply (quiet_bind _ any).
  - destruct rnd as [r|].
    + eapply quiet_bind; [apply quiet_load|]. intros x w2 -> _. by apply quiet_ret.
    + eapply quiet_bind; [apply quiet_Uniform|]. intros x w2 _ _. by apply quiet_ret.
  - intros e w2 _ _. eapply quiet_weaken; [done| |apply quiet_push_back]. done.
Qed.

Lemma quiet_ECapture_run (P : list Qc -> Prop) (T : nat) (tb : TransitionBase.t)
    (e : ECapture.t) (rnd : option nat) (w : World NucDecaySystem.t) :
  transitions (sys w) !! T = Some tb -> kind tb = ECapt e ->
  quiet P any (ECapture_run T rnd) w.
Proof.
  intros HT He. unfold ECapture_run.
  eapply quiet_bind; [apply quiet_the_transition|]. intros tb' w1 [-> HT'] _.
  eapply quiet_bind; [apply quiet_Uniform|]. intros u w1 Hs1 Hp1.
  eapply quiet_bind; [apply quiet_the_atom|]. intros a w2 -> _.
  apply (quiet_put_kind _ T _ tb); [by rewrite Hs1|]. by rewrite He.
Qed.

(** [run] fires no further transition and selects among the shells and
    subshells of the transition only. *)
Lemma quiet_run (T : nat) (tb : TransitionBase.t) (rnd : option nat)
    (w : World NucDecaySystem.t) :
  transitions (sys w) !! T = Some tb ->
  quiet (run_pick tb) any (run T rnd) w.
Proof.
  intros HT. unfold run.
  eapply quiet_bind; [apply quiet_the_transition|]. intros tb' w1 [-> HT'] _.
  assert (tb' = tb) as -> by congruence.
  destruct (kind tb) as [g|b|e] eqn:Hk.
  - by apply quiet_ConversionGamma_run.
  - apply quiet_BetaDecayTrans_run.
  - by apply (quiet_ECapture_run _ T tb e).
Qed.

Lemma getAtom_evolves (s s' : NucDecaySystem.t) (Z : nat) :
  getAtom s Z = Done s' -> evolves s s'.
Proof.
  intros H. apply getAtom_Done in H as (atoms' & -> & _ & Hmono). by split.
Qed.

Lemma getAtom_bounded (s : NucDecaySystem.t) (Z : nat) : getAtom s Z <> Unbounded.
Proof. unfold getAtom. destruct (atoms s !! Z); [done|]. by destruct (BEL s Z). Qed.

(** The loop over the K vacancies of a fired transition. *)
Lemma quiet_auger_loop (P : list Qc -> Prop) (tb : TransitionBase.t) (k : nat)
    (w : World NucDecaySystem.t) :
  quiet P any
    (repeat_ k
       (s <- get_sys ;;
        lto <- lift (idx (levels s) (to tb)) ;;
        s <- lift (getAtom s (NucLevel.Z lto)) ;;
        put_sys s ;;;
        genAuger (NucLevel.Z lto))) w.
Proof.
  revert w. induction k as [|k IH]; intros w; cbn [repeat_]; [by apply quiet_ret|].
  eapply (quiet_bind _ any); [|intros _ w1 _ _; apply IH].
  eapply quiet_bind; [apply quiet_get_sys|]. intros s w1 [-> ->] _.
  eapply quiet_bind; [apply quiet_idx|]. intros lto w1 [-> Hl] _.
  eapply (quiet_bind _ (fun s' w' => w' = w /\ evolves (sys w) s')).
  { apply quiet_lift; [apply getAtom_bounded|]. intros s' Hs'. split; [done|].
    by apply getAtom_evolves in Hs'. }
  intros s' w1 [-> Ev] _.
  eapply quiet_bind; [by apply quiet_put_sys|]. intros _ w1 _ _.
  apply quiet_genAuger.
Qed.

End ChainRun.

(** ** The walk of a chain *)

Section ChainWalk.

Import NucDecaySystem TransitionBase.

Lemma genDecayChain_unfold (fuel : nat) (rnd : option nat) (n : nat) :
  genDecayChain (S fuel) rnd n
  = (note (Entering n) ;;;
     s <- get_sys ;;
     let init := bool_decide (length (levels s) <= n)%nat in
     n <- (if init then PSelector.select (lStart s) rnd else ret n) ;;
     chain_body (genDecayChain fuel) rnd s init n).
Proof. reflexivity. Qed.

Lemma fired_app (a b : list mark) : fired (a ++ b) = fired a ++ fired b.
Proof. apply omap_app. Qed.

Lemma entered_app (a b : list mark) : entered (a ++ b) = (entered a + entered b)%nat.
Proof. unfold entered. by rewrite omap_app, length_app. Qed.

Lemma fired_Selecting (cs : list (list Qc)) : fired (Selecting <$> cs) = [].
Proof. induction cs as [|c cs IH]; [done|]. exact IH. Qed.

Lemma entered_Selecting (cs : list (list Qc)) : entered (Selecting <$> cs) = 0%nat.
Proof. unfold entered. induction cs as [|c cs IH]; [done|]. exact IH. Qed.

Lemma mark_ok_Selecting (cs : list (list Qc)) :
  Forall (fun c => 0 < PSelector.back c) cs -> Forall mark_ok (Selecting <$> cs).
Proof. intros H. apply Forall_fmap. exact H. Qed.

Lemma decays_of_fold (s : NucDecaySystem.t) (tids : list nat) :
  decays_of s tids = fold_left PSelector.addProb (Itotal_of s <$> tids) PSelector.new.
Proof.
  unfold decays_of. generalize PSelector.new.
  induction tids as [|tid tids IH]; intros p; [done|]. cbn. apply IH.
Qed.

Lemma decays_of_total (s : NucDecaySystem.t) (tids : list nat) :
  PSelector.getCumProb (decays_of s tids) = sum_Itotal s tids.
Proof.
  induction tids as [|tid tids IH] using rev_ind; [done|].
  rewrite decays_of_snoc, sum_Itotal_snoc, getCumProb_addProb, IH. ring.
Qed.

Lemma decays_of_weight (s : NucDecaySystem.t) (tids : list nat) (k T : nat) :
  tids !! k = Some T -> PSelector.weight (decays_of s tids) k = Itotal_of s T.
Proof.
  intros Hk. rewrite decays_of_fold. apply weight_fold.
  by rewrite list_lookup_fmap, Hk.
Qed.

Lemma decays_of_length (s : NucDecaySystem.t) (tids : list nat) :
  length (PSelector.cumprob (decays_of s tids)) = S (length tids).
Proof. rewrite decays_of_fold, length_cumprob_fold, length_fmap. done. Qed.

Lemma sum_Itotal_nonneg (s : NucDecaySystem.t) (tids : list nat) :
  sane s -> 0 <= sum_Itotal s tids.
Proof. intros Hs. by apply fold_Itotal_nonneg. Qed.

(** The selectors of a gamma that is sane and has a positive [Itotal]
    have positive totals. *)
Lemma run_pick_ok (tb : TransitionBase.t) (c : list Qc) :
  sane_T tb -> 0 < Itotal tb -> run_pick tb c -> 0 < PSelector.back c.
Proof.
  intros [_ Hk] HI. unfold run_pick. destruct (kind tb) as [g| |]; [|done..].
  destruct Hk as (_ & Htot & Hss). intros [->|(ss & Hin & ->)].
  - unfold PSelector.getCumProb in Htot. by rewrite Htot.
  - rewrite Forall_forall in Hss. by apply Hss.
Qed.

Lemma chain_facts_nil (s : NucDecaySystem.t) (fuel n : nat) (o : outcome unit) :
  o <> Done tt -> o <> Unbounded -> chain_facts s fuel n o [].
Proof.
  intros Hd Hu. split; try done.
  - cbn. lia.
  - by exists n.
Qed.

(** The marks of a call that stops before it fires a transition. *)
Lemma body_facts_early (s : NucDecaySystem.t) (fuel n0 : nat) (o : outcome unit)
    (cs : list (list Qc)) :
  o <> Unbounded ->
  (sane s -> Forall (fun c => 0 < PSelector.back c) cs) ->
  body_facts s fuel n0 o (Selecting <$> cs).
Proof.
  intros Hu Hcs. split; rewrite ?fired_Selecting, ?entered_Selecting; try done.
  intros Hs _. by apply mark_ok_Selecting, Hcs.
Qed.

(** The marks of a call that fires [T] from level [n0] and goes on at the
    level [T] leads to. *)
Lemma body_facts_fired (s s' : NucDecaySystem.t) (fuel n0 : nat) (o : outcome unit)
    (cs1 cs : list (list Qc)) (tout : list nat) (T : nat)
    (tb : TransitionBase.t) (rest : list mark) :
  evolves s s' ->
  transOut s !! n0 = Some tout -> T ∈ tout -> transitions s !! T = Some tb ->
  (to tb < length (levels s))%nat ->
  (sane s -> Forall (fun c => 0 < PSelector.back c) cs1) ->
  (sane s -> Forall (fun c => 0 < PSelector.back c) cs) ->
  chain_facts s' fuel (to tb) o rest ->
  body_facts s fuel n0 o
    ((Selecting <$> cs1) ++ Firing T :: (Selecting <$> cs) ++ rest).
Proof.
  intros Ev Hn Hin HT Hto Hc Hcs [C1 C2 C3 C4 C5].
  assert (Hf : fired ((Selecting <$> cs1) ++ Firing T :: (Selecting <$> cs) ++ rest)
               = T :: fired rest).
  { rewrite fired_app, fired_Selecting.
    change (fired (Firing T :: (Selecting <$> cs) ++ rest))
      with (T :: fired ((Selecting <$> cs) ++ rest)).
    by rewrite fired_app, fired_Selecting. }
  assert (He : entered ((Selecting <$> cs1) ++ Firing T :: (Selecting <$> cs) ++ rest)
               = entered rest).
  { rewrite entered_app, entered_Selecting.
    change (entered (Firing T :: (Selecting <$> cs) ++ rest))
      with (entered ((Selecting <$> cs) ++ rest)).
    by rewrite entered_app, entered_Selecting. }
  split; rewrite ?Hf, ?He; cbn [length].
  - done.
  - done.
  - intros Hu. specialize (C3 Hu). lia.
  - cbn [is_path]. exists tout, tb. split; [done|]. split; [done|]. split; [done|].
    destruct C4 as (n1 & Hn1 & _ & Hp). rewrite (ev_levels s s' Ev) in Hn1.
    rewrite (Hn1 Hto) in Hp. by apply (evolves_is_path s s').
  - intros Hs Hl. apply Forall_app. split; [by apply mark_ok_Selecting, Hc|].
    constructor; [done|].
    apply Forall_app. split; [by apply mark_ok_Selecting, Hcs|].
    apply C5; [by apply (evolves_sane s s')|]. by rewrite (ev_lStart s s' Ev).
Qed.

Lemma sound_picks_Forall (s : NucDecaySystem.t) (cs : list (list Qc)) :
  Forall (sound_picks s) cs -> sane s -> Forall (fun c => 0 < PSelector.back c) cs.
Proof. intros H Hs. eapply Forall_impl; [exact H|]. intros c Hc. by apply Hc. Qed.

Lemma bind_post {A B : Type} (P : list Qc -> Prop)
    (R : A -> World NucDecaySystem.t -> Prop)
    (m : M NucDecaySystem.t A) (f : A -> M NucDecaySystem.t B)
    (w : World NucDecaySystem.t)
    (Phi : outcome B * World NucDecaySystem.t -> Prop) :
  quiet P R m w ->
  (forall (o : outcome B) w1, picks P w w1 -> o <> Unbounded ->
     (forall b, o <> Done b) -> Phi (o, w1)) ->
  (forall a w1, R a w1 -> picks P w w1 -> Phi (f a w1)) ->
  Phi (bind m f w).
Proof.
  intros (o & w1 & E & Hp & Hu & HR) Hfail Hok. unfold bind. rewrite E.
  destruct o as [a|e| |]; [by apply Hok; [apply HR|]|by apply Hfail..|done].
Qed.

Lemma close_early (fuel n0 : nat) (w0 w1 : World NucDecaySystem.t) (o : outcome unit) :
  picks (sound_picks (sys w0)) w0 w1 -> o <> Unbounded ->
  body_post fuel n0 w0 (o, w1).
Proof.
  intros [Ev (cs & Ht & Hcs)] Hu. split; [done|]. exists (Selecting <$> cs).
  split; [done|]. apply body_facts_early; [done|]. by apply sound_picks_Forall.
Qed.

Lemma close_fired (fuel n0 : nat) (w0 w2 w3 w4 : World NucDecaySystem.t)
    (tout : list nat) (T : nat) (tb : TransitionBase.t)
    (r : outcome unit * World NucDecaySystem.t) :
  picks (sound_picks (sys w0)) w0 w2 ->
  sys w3 = sys w2 -> trace w3 = trace w2 ++ [Firing T] ->
  picks (sound_picks (sys w0)) w3 w4 ->
  transOut (sys w0) !! n0 = Some tout -> T ∈ tout ->
  transitions (sys w0) !! T = Some tb ->
  (to tb < length (levels (sys w0)))%nat ->
  chain_post fuel (to tb) w4 r ->
  body_post fuel n0 w0 r.
Proof.
  intros [Ev2 (cs1 & Ht2 & Hcs1)] Hs3 Ht3 [Ev4 (cs & Ht4 & Hcs)] Hn Hin HT Hto
    [Evr (rest & Htr & Hf)].
  assert (Ev04 : evolves (sys w0) (sys w4)).
  { eapply evolves_trans; [exact Ev2|]. by rewrite <- Hs3. }
  split; [by eapply evolves_trans|].
  exists ((Selecting <$> cs1) ++ Firing T :: (Selecting <$> cs) ++ rest). split.
  - rewrite Htr, Ht4, Ht3, Ht2. by rewrite <- !app_assoc.
  - apply (body_facts_fired (sys w0) (sys w4) fuel n0 r.1 cs1 cs tout T tb rest);
      try done; by apply sound_picks_Forall.
Qed.

Lemma chain_post_fail (fuel n : nat) (w : World NucDecaySystem.t) (o : outcome unit) :
  o <> Unbounded -> o <> Done tt -> chain_post fuel n w (o, w).
Proof.
  intros Hu Hd. split; [apply evolves_refl|]. exists []. split; [by rewrite app_nil_r|].
  by apply chain_facts_nil.
Qed.

End ChainWalk.

Section ChainBody.

Import NucDecaySystem TransitionBase.

Local Abbreviation any := (fun _ _ => True).

Variable fuel : nat.
Hypothesis IH : forall rnd n w,
  ready (sys w) -> chain_post fuel n w (genDecayChain fuel rnd n w).

Lemma chain_body_post (rnd : option nat) (init : bool) (n0 : nat)
    (w0 : World NucDecaySystem.t) :
  ready (sys w0) ->
  body_post fuel n0 w0 (chain_body (genDecayChain fuel) rnd (sys w0) init n0 w0).
Proof.
  intros Rd. pose proof Rd as [[G Bl So Ix] Dec Sta].
  set (s := sys w0) in *. set (P0 := sound_picks s).
  unfold chain_body.
  (* levels[n] *)
  apply (bind_post P0 _ _ _ _ _ (quiet_idx P0 _ _ w0));
    [intros o w1 Hp Hu _; by apply close_early|].
  intros lev w1 [-> Hlev] _.
  destruct (_ || _) eqn:Hstop.
  { apply close_early; [by apply picks_refl|done]. }
  apply orb_false_iff in Hstop as [Hflux _].
  apply bool_decide_eq_false in Hflux.
  (* levelDecays[n] *)
  apply (bind_post P0 _ _ _ _ _ (quiet_idx P0 _ _ w0));
    [intros o w1 Hp Hu _; by apply close_early|].
  intros ld w1 [-> Hld] _.
  assert (exists tout, transOut s !! n0 = Some tout /\ ld = decays_of s tout)
    as (tout & Htout & ->).
  { rewrite Dec, list_lookup_fmap in Hld.
    destruct (transOut s !! n0) as [tout|]; [|done]. exists tout. split; [done|].
    by injection Hld. }
  assert (Hpos : P0 (PSelector.cumprob (decays_of s tout))).
  { intros Hs. fold (PSelector.getCumProb (decays_of s tout)).
    rewrite decays_of_total. pose proof (sum_Itotal_nonneg s tout Hs) as H0.
    rewrite (Bl n0 lev tout Hlev Htout) in Hflux.
    destruct (Qclt_le_dec 0 (sum_Itotal s tout)) as [?|Hle]; [done|].
    exfalso. apply Hflux. by apply Qcle_antisym. }
  (* levelDecays[n].select(rnd) *)
  apply (bind_post P0 _ _ _ _ _ (quiet_select P0 _ rnd w0 Hpos));
    [intros o w1 Hp Hu _; by apply close_early|].
  intros k w2 (Hs2 & Hk & Hw) Hp2.
  (* transOut[n][k] *)
  apply (bind_post P0 _ _ _ _ _ (quiet_idx P0 _ _ w2)).
  { intros o w3 Hp Hu _. apply close_early; [|done]. by eapply picks_trans. }
  intros tout' w3 [-> Htout'] _.
  assert (tout' = tout) as -> by congruence.
  apply (bind_post P0 _ _ _ _ _ (quiet_idx P0 _ _ w2)).
  { intros o w3 Hp Hu _. apply close_early; [|done]. by eapply picks_trans. }
  intros T w3 [-> HT] _.
  assert (Hin : T ∈ tout) by (by apply list_elem_of_lookup_2 in HT).
  destruct (g_out s G n0 tout T Htout Hin) as (tb & Htb & Hfrom).
  destruct (g_trans s G T tb Htb) as (_ & lto0 & Hlto0 & _).
  assert (Hto : (to tb < length (levels s))%nat) by (by apply lookup_lt_Some in Hlto0).
  assert (HI : 0 < Itotal tb).
  { rewrite (decays_of_weight s tout k T HT) in Hw. unfold Itotal_of in Hw.
    by rewrite Htb in Hw. }
  (* the transition fires *)
  unfold bind at 1. unfold note at 1.
  set (w3 := mkworld (sys w2) (gRandom w2) (rnd_tmp w2) (mem w2) (v w2)
               (trace w2 ++ [Firing T])).
  assert (Hs3 : sys w3 = sys w2) by done.
  assert (Ht3 : trace w3 = trace w2 ++ [Firing T]) by done.
  assert (Hfail : forall (o : outcome unit) w4,
            picks P0 w3 w4 -> o <> Unbounded -> (forall b, o <> Done b) ->
            body_post fuel n0 w0 (o, w4)).
  { intros o w4 Hp4 Hu Hd.
    apply (close_fired fuel n0 w0 w2 w3 w4 tout T tb); try done.
    apply chain_post_fail; [done|apply Hd]. }
  assert (Htb3 : transitions (sys w3) !! T = Some tb) by (by rewrite Hs3, Hs2).
  assert (Hrun : forall c, run_pick tb c -> P0 c).
  { intros c Hc Hs. apply (run_pick_ok tb c); [|done..].
    destruct Hs as [HTs _]. rewrite Forall_forall in HTs. apply HTs.
    by apply list_elem_of_lookup_2 in Htb. }
  (* T->run(v, rnd) *)
  apply (bind_post P0 any).
  { eapply quiet_weaken; [exact Hrun| |by apply (quiet_run T tb)]. done. }
  { done. }
  intros _ w4 _ Hp4.
  apply (bind_post P0 _ _ _ _ _ (quiet_the_transition P0 T w4)).
  { intros o w5 Hp Hu Hd. apply Hfail; [by eapply picks_trans|done..]. }
  intros tb4 w5 [-> Htb4] _.
  assert (Hto4 : to tb4 = to tb).
  { destruct Hp4 as [Ev4 _]. destruct (evolves_lookup _ _ T tb4 Ev4 Htb4) as (tb' & Htb' & Hst).
    rewrite Htb3 in Htb'. injection Htb' as <-.
    by destruct (static_T_fields tb tb4 Hst) as (_ & _ & ? & _). }
  (* the Auger electrons *)
  apply (bind_post P0 any).
  { eapply quiet_weaken; [| |apply (quiet_auger_loop (fun _ => False))]; done. }
  { intros o w5 Hp Hu Hd. apply Hfail; [by eapply picks_trans|done..]. }
  intros _ w5 _ Hp5. pose proof (picks_trans _ _ _ _ Hp4 Hp5) as Hp35.
  apply (bind_post P0 _ _ _ _ _ (quiet_get_sys P0 w5)).
  { intros o w6 Hp Hu Hd. apply Hfail; [by eapply picks_trans|done..]. }
  intros s5 w6 [-> ->] _.
  apply (bind_post P0 _ _ _ _ _ (quiet_idx P0 _ _ w5)).
  { intros o w6 Hp Hu Hd. apply Hfail; [by eapply picks_trans|done..]. }
  intros lto w6 [-> Hlto] _.
  (* the recursive call *)
  assert (Ev05 : evolves s (sys w5)).
  { destruct Hp2 as [Ev2 _]. destruct Hp35 as [Ev35 _].
    eapply evolves_trans; [exact Ev2|]. by rewrite <- Hs3. }
  assert (Rd5 : ready (sys w5)) by (by apply (evolves_ready s)).
  assert (Hn : NucLevel.n lto = to tb).
  { rewrite (g_n (sys w5) ltac:(apply Rd5) _ _ Hlto). done. }
  rewrite Hn.
  apply (close_fired fuel n0 w0 w2 w3 w5 tout T tb); try done.
  by apply IH.
Qed.

End ChainBody.

Section ChainMaster.

Import NucDecaySystem TransitionBase.

Lemma chain_facts_of_body (s : NucDecaySystem.t) (fuel n n0 : nat) (o : outcome unit)
    (cs : list (list Qc)) (newb : list mark) :
  body_facts s fuel n0 o newb ->
  Forall (eq (PSelector.cumprob (lStart s))) cs ->
  ((n < length (levels s))%nat -> n0 = n) ->
  ((length (levels s) <= n)%nat -> 0 < PSelector.weight (lStart s) n0) ->
  chain_facts s (S fuel) n o (Entering n :: (Selecting <$> cs) ++ newb).
Proof.
  intros [B1 B2 B3 B4 B5] Hcs Hlt Hge.
  assert (Hf : fired (Entering n :: (Selecting <$> cs) ++ newb) = fired newb).
  { change (fired (Entering n :: (Selecting <$> cs) ++ newb))
      with (fired ((Selecting <$> cs) ++ newb)).
    by rewrite fired_app, fired_Selecting. }
  assert (He : entered (Entering n :: (Selecting <$> cs) ++ newb) = S (entered newb)).
  { change (entered (Entering n :: (Selecting <$> cs) ++ newb))
      with (S (entered ((Selecting <$> cs) ++ newb))).
    by rewrite entered_app, entered_Selecting. }
  split; rewrite ?Hf, ?He.
  - lia.
  - intros Ho. by rewrite (B2 Ho).
  - intros Ho. specialize (B3 Ho). lia.
  - exists n0. split; [done|]. split; [|done]. intros Hn _. by apply Hge.
  - intros Hs Hl. constructor; [done|]. apply Forall_app. split; [|by apply B5].
    apply mark_ok_Selecting. eapply Forall_impl; [exact Hcs|]. by intros c <-.
Qed.

Lemma chain_facts_start_failed (s : NucDecaySystem.t) (fuel n : nat) (o : outcome unit)
    (cs : list (list Qc)) :
  o <> Unbounded -> o <> Done tt ->
  Forall (eq (PSelector.cumprob (lStart s))) cs ->
  chain_facts s (S fuel) n o (Entering n :: (Selecting <$> cs)).
Proof.
  intros Hu Hd Hcs.
  assert (Hf : fired (Entering n :: (Selecting <$> cs)) = [])
    by apply fired_Selecting.
  assert (He : entered (Entering n :: (Selecting <$> cs)) = 1%nat).
  { change (entered (Entering n :: (Selecting <$> cs)))
      with (S (entered (Selecting <$> cs))). by rewrite entered_Selecting. }
  split; rewrite ?Hf, ?He; try done.
  - by exists n.
  - intros Hs Hl. constructor; [done|].
    apply mark_ok_Selecting. eapply Forall_impl; [exact Hcs|]. by intros c <-.
Qed.

(** What a call of [genDecayChain] leaves, whatever its outcome. *)
Lemma genDecayChain_post (fuel : nat) :
  forall (rnd : option nat) (n : nat) (w : World NucDecaySystem.t),
    ready (sys w) -> chain_post fuel n w (genDecayChain fuel rnd n w).
Proof.
  induction fuel as [|fuel IH]; intros rnd n w Rd.
  { split; [apply evolves_refl|]. exists []. split; [by rewrite app_nil_r|].
    split; try done.
    - cbn. lia.
    - by exists n. }
  rewrite genDecayChain_unfold.
  unfold bind at 1. unfold note at 1.
  set (w1 := mkworld (sys w) (gRandom w) (rnd_tmp w) (mem w) (v w)
               (trace w ++ [Entering n])).
  unfold bind at 1. unfold get_sys at 1.
  change (sys w1) with (sys w). cbv zeta.
  assert (Hbody : forall n0 cs w2,
            sys w2 = sys w -> trace w2 = trace w1 ++ (Selecting <$> cs) ->
            Forall (eq (PSelector.cumprob (lStart (sys w)))) cs ->
            ((n < length (levels (sys w)))%nat -> n0 = n) ->
            ((length (levels (sys w)) <= n)%nat ->
               0 < PSelector.weight (lStart (sys w)) n0) ->
            chain_post (S fuel) n w
              (chain_body (genDecayChain fuel) rnd (sys w)
                 (bool_decide (length (levels (sys w)) <= n)%nat) n0 w2)).
  { intros n0 cs w2 Hs2 Ht2 Hcs Hlt Hge.
    pose proof (chain_body_post fuel IH rnd
                  (bool_decide (length (levels (sys w)) <= n)%nat) n0 w2) as Hb.
    rewrite Hs2 in Hb. specialize (Hb Rd).
    destruct Hb as [Ev (newb & Htr & Hf)]. cbn [fst snd] in *.
    rewrite Hs2 in Ev, Hf. split; [done|].
    exists (Entering n :: (Selecting <$> cs) ++ newb). split.
    - rewrite Htr, Ht2. unfold w1. cbn [trace]. by rewrite <- !app_assoc.
    - by apply (chain_facts_of_body _ _ _ n0). }
  case_bool_decide as Hinit.
  - destruct (select_spec (lStart (sys w)) rnd w1) as (o & w2 & E & Hs2 & Hp & Hu & Hi).
    destruct Hp as [_ (cs & Ht2 & Hcs)].
    unfold bind at 1. rewrite E.
    destruct o as [n0|e| |].
    + destruct (Hi n0 eq_refl) as [_ Hw].
      apply (Hbody n0 cs w2); try done. intros Hn. exfalso. clear -Hn Hinit. lia.
    + split; [cbn [snd]; rewrite Hs2; apply evolves_refl|]. exists (Entering n :: (Selecting <$> cs)). split.
      * cbn [snd]. rewrite Ht2. unfold w1. cbn [trace]. by rewrite <- app_assoc.
      * by apply chain_facts_start_failed.
    + split; [cbn [snd]; rewrite Hs2; apply evolves_refl|]. exists (Entering n :: (Selecting <$> cs)). split.
      * cbn [snd]. rewrite Ht2. unfold w1. cbn [trace]. by rewrite <- app_assoc.
      * by apply chain_facts_start_failed.
    + done.
  - unfold bind at 1. unfold ret at 1.
    apply (Hbody n [] w1); try done.
    by rewrite app_nil_r.
Qed.

End ChainMaster.

(** * Constructed systems *)

Section Constructed.

Import NucDecaySystem TransitionBase.

Lemma scale_levels_closed (k : Qc) (s1 : NucDecaySystem.t) :
  length (levelDecays s1) = length (levels s1) ->
  ofold (scale_level k) (seq 0 (length (levels s1))) s1
  = Done (set_levelDecays
            (set_levels s1 ((fun l => NucLevel.scale l k) <$> levels s1))
            ((fun ld => PSelector.scale ld k) <$> levelDecays s1)).
Proof.
  intros Hlen.
  set (L := levels s1) in *. set (D := levelDecays s1) in *.
  set (L' := (fun l => NucLevel.scale l k) <$> L).
  set (D' := (fun ld => PSelector.scale ld k) <$> D).
  pose (St := fun i : nat =>
    set_levelDecays (set_levels s1 (take i L' ++ drop i L)) (take i D' ++ drop i D)).
  destruct (ofold_seq_ind (scale_level k) (fun i a => a = St i) (length L) 0 s1)
    as (a' & Hfold & Ha').
  - unfold St. rewrite !take_0, !drop_0. cbn. by destruct s1.
  - intros i a [_ Hi] ->. cbn in Hi.
    assert (is_Some (L !! i)) as [l Hl] by (by apply lookup_lt_is_Some).
    assert (is_Some (D !! i)) as [ld Hd]
      by (apply lookup_lt_is_Some; rewrite Hlen; done).
    assert (HL' : L' !! i = Some (NucLevel.scale l k))
      by (unfold L'; rewrite list_lookup_fmap, Hl; done).
    assert (HD' : D' !! i = Some (PSelector.scale ld k))
      by (unfold D'; rewrite list_lookup_fmap, Hd; done).
    assert (HlenL : length L = length L') by (unfold L'; by rewrite length_fmap).
    assert (HlenD : length D = length D') by (unfold D'; by rewrite length_fmap).
    assert (Hli : (take i L' ++ drop i L) !! i = Some l).
    { rewrite lookup_app_r by (rewrite length_take; lia).
      rewrite length_take, lookup_drop.
      replace (i + (i - i `min` length L'))%nat with i by lia. done. }
    assert (Hdi : (take i D' ++ drop i D) !! i = Some ld).
    { rewrite lookup_app_r by (rewrite length_take; lia).
      rewrite length_take, lookup_drop.
      replace (i + (i - i `min` length D'))%nat with i by lia. done. }
    unfold scale_level, St. cbn [levels set_levels set_levelDecays levelDecays].
    unfold idx at 1. rewrite Hli. cbn [obind].
    unfold idx at 1. rewrite Hdi. cbn [obind].
    eexists. split; [reflexivity|].
    unfold set_levelDecays, set_levels. cbn.
    by rewrite (take_S_insert L' L i _ HL' HlenL), (take_S_insert D' D i _ HD' HlenD).
  - rewrite Hfold, Ha'. unfold St. cbn [Nat.add]. f_equal.
    assert (HlenL : length L' = length L) by (unfold L'; by rewrite length_fmap).
    assert (HlenD : length D' = length L)
      by (unfold D'; rewrite length_fmap; exact Hlen).
    rewrite !take_ge, !drop_ge by lia. by rewrite !app_nil_r.
Qed.

Lemma scale_Done_closed (s s' : NucDecaySystem.t) (k : Qc) :
  length (levelDecays s) = length (levels s) ->
  NucDecaySystem.scale s k = Done s' -> s' = after_scale s k.
Proof.
  intros Hlen. unfold NucDecaySystem.scale.
  destruct (scale_transitions _ k) as [s1| | |] eqn:E1; try done. cbn [obind].
  apply scale_transitions_Done in E1. subst s1.
  rewrite scale_levels_closed by done. by intros [= <-].
Qed.


Lemma after_scale_ready (s : NucDecaySystem.t) (k : Qc) :
  ready s -> ready (after_scale s k).
Proof.
  intros [Bs D St]. split.
  - apply (rescaled_built s (after_scale s k) k); try done.
    unfold after_scale; cbn. by rewrite length_fmap.
  - unfold decays_synced in *. unfold after_scale at 1 3. cbn. rewrite D.
    rewrite <- list_fmap_compose. apply list_fmap_ext. intros i tout _. cbn.
    symmetry. by apply decays_of_scaled.
  - unfold start_synced in *. unfold after_scale; cbn.
    by rewrite !length_fmap.
Qed.



(** Every system a caller can hold is ready. *)
Lemma constructed_ready (s : NucDecaySystem.t) : constructed s -> ready s.
Proof.
  induction 1 as [q Q B tc s E|s tc s' _ IH E|s k s' _ IH E|fuel rnd n w o w' _ IH E].
  - pose proof (make_post Q B q tc) as P. rewrite E in P.
    destruct P as ((s0 & B0 & _ & ->) & _). by apply after_setCutoff_ready.
  - rewrite (setCutoff_closed s tc) in E by apply IH. injection E as <-.
    apply after_setCutoff_ready, IH.
  - apply scale_Done_closed in E; [|apply IH]. subst s'. by apply after_scale_ready.
  - pose proof (genDecayChain_post fuel rnd n w IH) as [Ev _]. rewrite E in Ev.
    by apply (evolves_ready (sys w)).
Qed.




End Constructed.

(** * The decay system after construction *)

Section Examples.

Import NucDecaySystem.

Lemma normalised_made :
  make example_quantiles normalised_input example_BEL 1 = Done normalised.
Proof. by vm_compute. Qed.

Lemma cascade_constructed : constructed cascade.
Proof. exact (constructed_make _ _ _ _ _ cascade_made). Qed.

Lemma normalised_constructed : constructed normalised.
Proof. exact (constructed_make _ _ _ _ _ normalised_made). Qed.

Lemma cascade_sane : constructed_sane cascade.
Proof. exact (sane_make _ _ _ _ _ cascade_input_sane cascade_made). Qed.

End Examples.

Lemma setCutoff_start_weights_witness :
  graph_ok cascade /\ (0 < length (NucDecaySystem.levels cascade))%nat
  /\ exists s',
       NucDecaySystem.setCutoff cascade (Q2Qc (1 # 10000)) = Done s'
       /\ forall n lev tout tin,
            NucDecaySystem.levels cascade !! n = Some lev ->
            NucDecaySystem.transOut cascade !! n = Some tout ->
            NucDecaySystem.transIn cascade !! n = Some tin ->
            PSelector.weight (NucDecaySystem.lStart s') n
            = if decide (n + 1 = length (NucDecaySystem.levels cascade))%nat then 1
              else if decide (tout = [] \/ NucLevel.hl lev <= Q2Qc (1 # 10000)) then 0
              else sum_Itotal cascade tin.
Proof.
  assert (G : graph_ok cascade) by apply (constructed_ready _ cascade_constructed).
  assert (N : (0 < length (NucDecaySystem.levels cascade))%nat) by (vm_compute; lia).
  split; [exact G|]. split; [exact N|].
  exact (setCutoff_start_weights cascade (Q2Qc (1 # 10000)) G N).
Defined.





(** * Chains end *)

Section Downhill.

Import NucDecaySystem TransitionBase.

(** In a system sorted by energy, a transition that goes down in energy
    goes down in position. *)
Lemma downhill_index (s : NucDecaySystem.t) (T : nat) (tb : TransitionBase.t) :
  ready s -> downhill s -> transitions s !! T = Some tb ->
  (to tb < from tb)%nat.
Proof.
  intros [[G _ So _] _ _] Dh HT.
  destruct (g_trans s G T tb HT) as (Hf & lto & Hlto & _).
  apply lookup_lt_is_Some in Hf as [lf Hlf].
  pose proof (Dh T tb lf lto HT Hlf Hlto) as HE.
  destruct (decide (to tb < from tb)%nat) as [?|Hge]; [done|]. exfalso.
  pose proof (So (from tb) (to tb) lf lto ltac:(lia) Hlf Hlto) as Hle.
  revert HE Hle. qc_to_q. intros. lra.
Qed.

Lemma path_length (s : NucDecaySystem.t) (Ts : list nat) :
  ready s -> downhill s -> forall n, is_path s n Ts -> (length Ts <= n)%nat.
Proof.
  intros Rd Dh. induction Ts as [|T Ts IH]; intros n; cbn [is_path length]; [lia|].
  intros (tout & tb & Hn & Hin & HT & Hp).
  destruct Rd as [[G Bl So Ix] D St].
  destruct (g_out s G n tout T Hn Hin) as (tb' & HT' & Hfrom).
  assert (tb' = tb) as -> by congruence.
  pose proof (downhill_index s T tb ltac:(by split; [split|..]) Dh HT) as Hlt.
  specialize (IH (to tb) Hp). lia.
Qed.

Lemma path_start (s : NucDecaySystem.t) (n T : nat) (Ts : list nat) :
  ready s -> is_path s n (T :: Ts) -> (n < length (levels s))%nat.
Proof.
  intros [[G _ _ _] _ _] (tout & tb & Hn & _). apply lookup_lt_Some in Hn.
  by rewrite (g_transOut_len s G) in Hn.
Qed.

Lemma path_bound (s : NucDecaySystem.t) (n : nat) (Ts : list nat) :
  ready s -> downhill s -> is_path s n Ts ->
  (length Ts + 1 <= 1 `max` length (levels s))%nat.
Proof.
  intros Rd Dh Hp. destruct Ts as [|T Ts]; [cbn; lia|].
  pose proof (path_start s n T Ts Rd Hp). pose proof (path_length s _ Rd Dh n Hp). lia.
Qed.

Lemma downhillb_correct (s : NucDecaySystem.t) : downhillb s = true -> downhill s.
Proof.
  unfold downhillb. rewrite forallb_forall. intros H T tb lf lt HT Hf Ht.
  apply list_elem_of_lookup_2, list_elem_of_In in HT. specialize (H tb HT).
  rewrite Hf, Ht in H. by apply bool_decide_eq_true in H.
Qed.

Lemma cascade_downhill : downhill cascade.
Proof. apply downhillb_correct. by vm_compute. Qed.

End Downhill.

(** C2. In a constructed system where every transition goes to a level
    of strictly lower energy, every transition goes to a strictly smaller
    position in the sorted levels, and a call of [genDecayChain] that is
    allowed as many nested calls as there are levels (one, when there is
    none) never needs more: the firings plus one are at most the number of
    levels, the calls are at most the firings plus one, and exactly so
    when the call returns. *)
Theorem genDecayChain_terminates (w : World NucDecaySystem.t) (fuel : nat)
    (rnd : option nat) (n : nat) :
  constructed (sys w) -> downhill (sys w) ->
  (1 `max` length (NucDecaySystem.levels (sys w)) <= fuel)%nat ->
  (forall T tb, NucDecaySystem.transitions (sys w) !! T = Some tb ->
     (TransitionBase.to tb < TransitionBase.from tb)%nat)
  /\ exists o w' new,
       NucDecaySystem.genDecayChain fuel rnd n w = (o, w')
       /\ o <> Unbounded
       /\ trace w' = trace w ++ new
       /\ (length (fired new) + 1 <= 1 `max` length (NucDecaySystem.levels (sys w)))%nat
       /\ (entered new <= length (fired new) + 1)%nat
       /\ (o = Done tt -> entered new = (length (fired new) + 1)%nat).
Proof.
  intros C Dh Hfuel. apply constructed_ready in C as Rd.
  split; [intros T tb HT; by apply (downhill_index (sys w) T)|].
  pose proof (genDecayChain_post fuel rnd n w Rd) as [_ (new & Htr & [F1 F2 F3 F4 F5])].
  destruct (NucDecaySystem.genDecayChain fuel rnd n w) as [o w'] eqn:E. cbn in *.
  destruct F4 as (n0 & _ & _ & Hp).
  pose proof (path_bound (sys w) n0 (fired new) Rd Dh Hp) as Hb.
  exists o, w', new. split; [done|]. split; [|split; [done|split; [done|split]]].
  - intros ->. specialize (F3 eq_refl). lia.
  - lia.
  - intros Ho. rewrite (F2 Ho). lia.
Qed.

Lemma genDecayChain_terminates_witness :
  constructed (sys (cascade_world half cascade_buffer))
  /\ downhill (sys (cascade_world half cascade_buffer))
  /\ exists o w' new,
       NucDecaySystem.genDecayChain 3 (Some 0%nat) 99 (cascade_world half cascade_buffer)
       = (o, w')
       /\ o <> Unbounded
       /\ trace w' = trace (cascade_world half cascade_buffer) ++ new
       /\ (length (fired new) + 1 <= 3)%nat
       /\ (entered new <= length (fired new) + 1)%nat
       /\ (o = Done tt -> entered new = (length (fired new) + 1)%nat).
Proof.
  assert (C : constructed (sys (cascade_world half cascade_buffer))).
  { apply (constructed_make example_quantiles cascade_input example_BEL 1).
    vm_compute. reflexivity. }
  split; [exact C|]. split; [exact cascade_downhill|].
  exact (proj2 (genDecayChain_terminates (cascade_world half cascade_buffer) 3
                  (Some 0%nat) 99 C cascade_downhill ltac:(vm_compute; lia))).
Defined.

(** * No selection on an empty total *)



(** * The number of uniform values a chain needs *)

Section NDF.

Import TransitionBase NucDecaySystem.

Lemma ofold_ext_Done {A B : Type} (f g : A -> B -> outcome A) (l : list B) (a r : A) :
  (forall a b a', b ∈ l -> f a b = Done a' -> g a b = Done a') ->
  ofold f l a = Done r -> ofold g l a = Done r.
Proof.
  revert a. induction l as [|b l IH]; intros a Hfg; [done|].
  cbn. destruct (f a b) as [a1| | |] eqn:E; cbn; try done.
  rewrite (Hfg a b a1) by (done || set_solver). cbn. apply IH.
  intros a0 b0 a' Hin. apply Hfg. set_solver.
Qed.

(** A loop that only raises its accumulator ends above where it started
    and above what every step produced. *)
Lemma ofold_raises {B : Type} (f : nat -> B -> outcome nat) (l : list B) (a r : nat) :
  (forall acc b acc', f acc b = Done acc' -> (acc <= acc')%nat) ->
  ofold f l a = Done r ->
  (a <= r)%nat
  /\ forall b, b ∈ l -> exists acc acc', f acc b = Done acc' /\ (acc' <= r)%nat.
Proof.
  intros Hup. revert a. induction l as [|b l IH]; intros a Hfold.
  - cbn in Hfold. injection Hfold as <-. split; [lia|]. intros b Hb. by apply elem_of_nil in Hb.
  - cbn in Hfold. destruct (f a b) as [a1| | |] eqn:E; cbn in Hfold; try done.
    destruct (IH a1 Hfold) as [Hle Hall]. pose proof (Hup a b a1 E). split; [lia|].
    intros b0 Hb0. apply elem_of_cons in Hb0 as [->|Hb0]; [|by apply Hall].
    exists a, a1. split; [done|lia].
Qed.

(** More fuel does not change a result. *)
Lemma getNDF_more_fuel (s : NucDecaySystem.t) (fuel : nat) :
  forall n r, getNDF fuel s n = Done r -> getNDF (S fuel) s n = Done r.
Proof.
  induction fuel as [|fuel IH]; intros n r; [done|].
  intros H. change (getNDF (S fuel) s n) with
    (if decide (length (levels s) <= n)%nat then
        ofold (fun ndf i =>
                 let! p := PSelector.getProb (lStart s) i in
                 if decide (p = 0) then Done ndf
                 else
                   let! lndf := getNDF fuel s i in
                   Done (if decide (ndf < lndf)%nat then lndf else ndf))
              (seq 0 (length (levels s))) 0%nat
      else
        let! tout := idx (transOut s) n in
        ofold (fun ndf tid =>
                 let! T := idx (transitions s) tid in
                 let! lto := idx (levels s) (to T) in
                 let! r := getNDF fuel s (NucLevel.n lto) in
                 let lndf := (TransitionBase.getNDF T + r)%nat in
                 Done (if decide (ndf < lndf)%nat then lndf else ndf))
              tout 0%nat) in H.
  change (getNDF (S (S fuel)) s n) with
    (if decide (length (levels s) <= n)%nat then
        ofold (fun ndf i =>
                 let! p := PSelector.getProb (lStart s) i in
                 if decide (p = 0) then Done ndf
                 else
                   let! lndf := getNDF (S fuel) s i in
                   Done (if decide (ndf < lndf)%nat then lndf else ndf))
              (seq 0 (length (levels s))) 0%nat
      else
        let! tout := idx (transOut s) n in
        ofold (fun ndf tid =>
                 let! T := idx (transitions s) tid in
                 let! lto := idx (levels s) (to T) in
                 let! r := getNDF (S fuel) s (NucLevel.n lto) in
                 let lndf := (TransitionBase.getNDF T + r)%nat in
                 Done (if decide (ndf < lndf)%nat then lndf else ndf))
              tout 0%nat).
  case_decide as Hn.
  - eapply ofold_ext_Done; [|exact H]. intros acc i acc' _. cbn beta.
    destruct (PSelector.getProb _ i) as [p| | |]; cbn [obind]; try done.
    case_decide; [done|].
    destruct (getNDF fuel s i) as [lndf| | |] eqn:E; cbn [obind]; try done.
    by rewrite (IH i lndf E).
  - destruct (idx (transOut s) n) as [tout| | |]; cbn [obind] in *; try done.
    eapply ofold_ext_Done; [|exact H]. intros acc tid acc' _. cbn beta.
    destruct (idx (transitions s) tid) as [T| | |]; cbn [obind]; try done.
    destruct (idx (levels s) (to T)) as [lto| | |]; cbn [obind]; try done.
    destruct (getNDF fuel s (NucLevel.n lto)) as [r0| | |] eqn:E; cbn [obind]; try done.
    by rewrite (IH _ r0 E).
Qed.

Lemma getNDF_fuel_le (s : NucDecaySystem.t) (fuel fuel' n r : nat) :
  (fuel <= fuel')%nat -> getNDF fuel s n = Done r -> getNDF fuel' s n = Done r.
Proof.
  induction 1 as [|fuel' _ IH]; [done|]. intros H. by apply getNDF_more_fuel, IH.
Qed.

(** [getNDF(n)] at a level is above what every outgoing transition and
    the level it leads to need. *)
Lemma getNDF_level_step (s : NucDecaySystem.t) (fuel n r : nat) (tout : list nat)
    (T : nat) (tb : TransitionBase.t) :
  graph_ok s ->
  transOut s !! n = Some tout -> T ∈ tout -> transitions s !! T = Some tb ->
  getNDF (S fuel) s n = Done r ->
  exists r', getNDF fuel s (to tb) = Done r' /\ (TransitionBase.getNDF tb + r' <= r)%nat.
Proof.
  intros G Hn Hin HT H. cbn [getNDF] in H.
  assert (Hlt : (n < length (levels s))%nat).
  { apply lookup_lt_Some in Hn. by rewrite (g_transOut_len s G) in Hn. }
  rewrite decide_False in H by lia.
  unfold idx at 1 in H. rewrite Hn in H. cbn [obind] in H.
  apply ofold_raises in H as [_ Hall].
  2:{ intros acc b acc'. destruct (idx (transitions s) b) as [T0| | |]; cbn; try done.
      destruct (idx (levels s) (to T0)) as [l0| | |]; cbn; try done.
      destruct (getNDF fuel s (NucLevel.n l0)) as [r0| | |]; cbn; try done.
      intros [= <-]. case_decide; lia. }
  destruct (Hall T Hin) as (acc & acc' & Hstep & Hle).
  unfold idx at 1 in Hstep. rewrite HT in Hstep. cbn [obind] in Hstep.
  destruct (g_trans s G T tb HT) as (_ & lto & Hlto & _).
  unfold idx at 1 in Hstep. rewrite Hlto in Hstep. cbn [obind] in Hstep.
  rewrite (g_n s G _ _ Hlto) in Hstep.
  destruct (getNDF fuel s (to tb)) as [r'| | |]; cbn in Hstep; try done.
  exists r'. split; [done|]. injection Hstep as <-. revert Hle. case_decide; lia.
Qed.

(** [getNDF()] without a start level is above [getNDF(i)] for every level
    of nonzero start probability. *)
Lemma getNDF_top_step (s : NucDecaySystem.t) (fuel top i r0 : nat) (p : Qc) :
  (length (levels s) <= top)%nat -> (i < length (levels s))%nat ->
  PSelector.getProb (lStart s) i = Done p -> p <> 0 ->
  getNDF (S fuel) s top = Done r0 ->
  exists ri, getNDF fuel s i = Done ri /\ (ri <= r0)%nat.
Proof.
  intros Htop Hi Hp Hp0 H. cbn [getNDF] in H. rewrite decide_True in H by done.
  apply ofold_raises in H as [_ Hall].
  2:{ intros acc b acc'. destruct (PSelector.getProb _ b) as [p0| | |]; cbn; try done.
      case_decide; [by intros [= <-]|].
      destruct (getNDF fuel s b) as [r1| | |]; cbn; try done.
      intros [= <-]. case_decide; lia. }
  destruct (Hall i) as (acc & acc' & Hstep & Hle); [apply elem_of_seq; lia|].
  rewrite Hp in Hstep. cbn [obind] in Hstep. rewrite decide_False in Hstep by done.
  destruct (getNDF fuel s i) as [ri| | |]; cbn in Hstep; try done.
  exists ri. split; [done|]. injection Hstep as <-. revert Hle. case_decide; lia.
Qed.

(** A walk down from level [n] steps over [getNDF(n)] values at most. *)
Lemma path_advance (s : NucDecaySystem.t) (Ts : list nat) :
  graph_ok s ->
  forall fuel n r, is_path s n Ts -> getNDF fuel s n = Done r ->
                   (advance s Ts <= r)%nat.
Proof.
  intros G. induction Ts as [|T Ts IH]; intros fuel n r Hp H; [cbn; lia|].
  destruct Hp as (tout & tb & Hn & Hin & HT & Hp).
  destruct fuel as [|fuel]; [done|].
  destruct (getNDF_level_step s fuel n r tout T tb G Hn Hin HT H) as (r' & Hr' & Hle).
  specialize (IH fuel (to tb) r' Hp Hr').
  cbn [advance foldr]. fold (advance s Ts). unfold NDF_of. rewrite HT. lia.
Qed.

(** In a system whose transitions go down, [getNDF(n)] is defined at
    every level with [n + 1] nested calls. *)
Lemma getNDF_level_defined (s : NucDecaySystem.t) :
  ready s -> downhill s ->
  forall n, (n < length (levels s))%nat -> exists r, getNDF (S n) s n = Done r.
Proof.
  intros Rd Dh n. induction n as [n IH] using lt_wf_ind. intros Hn.
  pose proof Rd as [[G _ _ _] _ _].
  cbn [getNDF]. rewrite decide_False by lia.
  assert (is_Some (transOut s !! n)) as [tout Htout]
    by (apply lookup_lt_is_Some; by rewrite (g_transOut_len s G)).
  unfold idx at 1. rewrite Htout. cbn [obind].
  destruct (ofold_progress
              (fun ndf tid =>
                 let! T := idx (transitions s) tid in
                 let! lto := idx (levels s) (to T) in
                 let! r := getNDF n s (NucLevel.n lto) in
                 let lndf := (TransitionBase.getNDF T + r)%nat in
                 Done (if decide (ndf < lndf)%nat then lndf else ndf))
              (fun _ => True) tout 0%nat) as (r & Hr & _); [|done|by exists r].
  intros acc tid Hin _.
  destruct (g_out s G n tout tid Htout Hin) as (tb & HT & Hfrom).
  destruct (g_trans s G tid tb HT) as (_ & lto & Hlto & _).
  pose proof (downhill_index s tid tb Rd Dh HT) as Hlt.
  unfold idx at 1. rewrite HT. cbn [obind].
  unfold idx at 1. rewrite Hlto. cbn [obind].
  rewrite (g_n s G _ _ Hlto).
  destruct (IH (to tb)) as (r' & Hr'); [lia|by apply lookup_lt_Some in Hlto|].
  rewrite (getNDF_fuel_le s (S (to tb)) n (to tb) r' ltac:(lia) Hr'). cbn [obind].
  eexists. split; [reflexivity|done].
Qed.

(** And [getNDF()] without a start level is defined when the start
    selector has a nonzero total. *)
Lemma getNDF_top_defined (s : NucDecaySystem.t) (top : nat) :
  ready s -> downhill s -> PSelector.getCumProb (lStart s) <> 0 ->
  (length (levels s) <= top)%nat ->
  exists r0, getNDF (S (length (levels s))) s top = Done r0.
Proof.
  intros Rd Dh Hl Htop. cbn [getNDF]. rewrite decide_True by done.
  destruct (ofold_progress
              (fun ndf i =>
                 let! p := PSelector.getProb (lStart s) i in
                 if decide (p = 0) then Done ndf
                 else
                   let! lndf := getNDF (length (levels s)) s i in
                   Done (if decide (ndf < lndf)%nat then lndf else ndf))
              (fun _ => True) (seq 0 (length (levels s))) 0%nat)
    as (r & Hr & _); [|done|by exists r].
  intros acc i Hin _. apply elem_of_seq in Hin as [_ Hi]. cbn in Hi.
  unfold PSelector.getProb. rewrite decide_True by (rewrite (rd_start s Rd); lia).
  unfold fdiv. rewrite decide_False by exact Hl. cbn [obind].
  case_decide; [by eexists|].
  destruct (getNDF_level_defined s Rd Dh i Hi) as (ri & Hri).
  rewrite (getNDF_fuel_le s (S i) (length (levels s)) i ri ltac:(lia) Hri). cbn [obind].
  eexists. split; [reflexivity|done].
Qed.

End NDF.

Section NDFChain.

Import TransitionBase NucDecaySystem.

Lemma getProb_Done (s : PSelector.t) (i : nat) (p : Qc) :
  PSelector.getProb s i = Done p ->
  PSelector.getCumProb s <> 0 /\ p = PSelector.weight s i / PSelector.getCumProb s.
Proof.
  unfold PSelector.getProb, fdiv. case_decide; [|done].
  fold (PSelector.getCumProb s). case_decide; [done|]. by intros [= <-].
Qed.

Lemma getProb_nonzero (s : PSelector.t) (i : nat) (p : Qc) :
  PSelector.getProb s i = Done p -> PSelector.weight s i <> 0 -> p <> 0.
Proof.
  intros H Hw. apply getProb_Done in H as [Ht ->]. intros H0. apply Hw.
  apply (f_equal (fun x => x * PSelector.getCumProb s)) in H0.
  rewrite Qcmult_0_l in H0. rewrite <- H0. field. exact Ht.
Qed.

(** The same bound for a level of positive start weight. *)
Lemma getNDF_top_weight (s : NucDecaySystem.t) (fuel top i r0 : nat) :
  (length (levels s) <= top)%nat -> (i < length (levels s))%nat ->
  0 < PSelector.weight (lStart s) i ->
  getNDF (S fuel) s top = Done r0 ->
  exists ri, getNDF fuel s i = Done ri /\ (ri <= r0)%nat.
Proof.
  intros Htop Hi Hw H.
  destruct (PSelector.getProb (lStart s) i) as [p| | |] eqn:Hp.
  - apply (getNDF_top_step s fuel top i r0 p); try done.
    apply (getProb_nonzero _ i p Hp). intros H0. rewrite H0 in Hw. by vm_compute in Hw.
  - exfalso. cbn [getNDF] in H. rewrite decide_True in H by done.
    apply (ofold_Done_each _ (fun _ => True)) with (b := i) in H as (a0 & a1 & _ & Hs);
      [|done|done|apply elem_of_seq; lia].
    by rewrite Hp in Hs.
  - exfalso. cbn [getNDF] in H. rewrite decide_True in H by done.
    apply (ofold_Done_each _ (fun _ => True)) with (b := i) in H as (a0 & a1 & _ & Hs);
      [|done|done|apply elem_of_seq; lia].
    by rewrite Hp in Hs.
  - exfalso. cbn [getNDF] in H. rewrite decide_True in H by done.
    apply (ofold_Done_each _ (fun _ => True)) with (b := i) in H as (a0 & a1 & _ & Hs);
      [|done|done|apply elem_of_seq; lia].
    by rewrite Hp in Hs.
Qed.

End NDFChain.

(** C5. In a constructed system, with [getNDF] given any number of
    nested calls that lets it return: (1) for every level [n] and every
    transition [T] of [transOut[n]], [T.getNDF()] plus [getNDF] of the
    level [T] leads to is at most [getNDF(n)]; (2) [getNDF()] without a
    start level is at least [getNDF(i)] for every level [i] of nonzero
    start probability; (3) in any call of [genDecayChain], whatever its
    outcome, the [getNDF()] of the transitions fired sum to at most
    [getNDF] at the start level given to the call; (4) when every
    transition goes to a level of lower energy, [getNDF(n)] returns for
    every level, and without a start level too when the start selector has
    a nonzero total. *)
Theorem getNDF_bounds_chain (s : NucDecaySystem.t) :
  constructed s ->
  (forall fuel n tout T tb r r',
     NucDecaySystem.transOut s !! n = Some tout -> T ∈ tout ->
     NucDecaySystem.transitions s !! T = Some tb ->
     NucDecaySystem.getNDF fuel s n = Done r ->
     NucDecaySystem.getNDF fuel s (TransitionBase.to tb) = Done r' ->
     (TransitionBase.getNDF tb + r' <= r)%nat)
  /\ (forall fuel top i p r0 ri,
        (length (NucDecaySystem.levels s) <= top)%nat ->
        (i < length (NucDecaySystem.levels s))%nat ->
        PSelector.getProb (NucDecaySystem.lStart s) i = Done p -> p <> 0 ->
        NucDecaySystem.getNDF fuel s top = Done r0 ->
        NucDecaySystem.getNDF fuel s i = Done ri ->
        (ri <= r0)%nat)
  /\ (forall (w : World NucDecaySystem.t) fuel rnd n F r,
        sys w = s -> NucDecaySystem.getNDF F s n = Done r ->
        exists o w' new,
          NucDecaySystem.genDecayChain fuel rnd n w = (o, w')
          /\ trace w' = trace w ++ new
          /\ (advance s (fired new) <= r)%nat)
  /\ (downhill s ->
      (forall n, (n < length (NucDecaySystem.levels s))%nat ->
         exists r, NucDecaySystem.getNDF (S (length (NucDecaySystem.levels s))) s n
                   = Done r)
      /\ (PSelector.getCumProb (NucDecaySystem.lStart s) <> 0 ->
          forall top, (length (NucDecaySystem.levels s) <= top)%nat ->
            exists r0, NucDecaySystem.getNDF (S (length (NucDecaySystem.levels s))) s top
                       = Done r0)).
Proof.
  intros C. apply constructed_ready in C as Rd. pose proof Rd as [[G _ _ _] _ _].
  split; [|split; [|split]].
  - intros fuel n tout T tb r r' Hn Hin HT Hr Hr'.
    destruct fuel as [|fuel]; [done|].
    destruct (getNDF_level_step s fuel n r tout T tb G Hn Hin HT Hr) as (r1 & Hr1 & Hle).
    apply getNDF_more_fuel in Hr1. rewrite Hr1 in Hr'. injection Hr' as <-. exact Hle.
  - intros fuel top i p r0 ri Htop Hi Hp Hp0 Hr0 Hri.
    destruct fuel as [|fuel]; [done|].
    destruct (getNDF_top_step s fuel top i r0 p Htop Hi Hp Hp0 Hr0) as (r1 & Hr1 & Hle).
    apply getNDF_more_fuel in Hr1. rewrite Hr1 in Hri. injection Hri as <-. exact Hle.
  - intros w fuel rnd n F r <- Hr.
    pose proof (genDecayChain_post fuel rnd n w Rd) as [_ (new & Htr & [_ _ _ F4 _])].
    destruct (NucDecaySystem.genDecayChain fuel rnd n w) as [o w'] eqn:E. cbn in *.
    exists o, w', new. split; [done|]. split; [done|].
    destruct F4 as (n0 & Hlt & Hge & Hp).
    destruct (decide (n < length (NucDecaySystem.levels (sys w)))%nat) as [Hn|Hn].
    + rewrite (Hlt Hn) in Hp. by apply (path_advance (sys w) _ G F n r).
    + destruct (fired new) as [|T Ts] eqn:Ef; [cbn; lia|].
      assert (Hw : 0 < PSelector.weight (NucDecaySystem.lStart (sys w)) n0)
        by (apply Hge; [lia|done]).
      pose proof (path_start (sys w) n0 T Ts Rd Hp) as Hn0.
      destruct F as [|F]; [done|].
      destruct (getNDF_top_weight (sys w) F n n0 r ltac:(lia) Hn0 Hw Hr)
        as (ri & Hri & Hle).
      pose proof (path_advance (sys w) _ G F n0 ri Hp Hri). lia.
  - intros Dh. split.
    + intros n Hn. destruct (getNDF_level_defined s Rd Dh n Hn) as (r & Hr).
      exists r. by apply (getNDF_fuel_le s (S n)); [lia|].
    + intros Hl top Htop. by apply getNDF_top_defined.
Qed.

Lemma getNDF_bounds_chain_witness :
  constructed (sys (cascade_world half cascade_buffer))
  /\ exists o w' new,
       NucDecaySystem.genDecayChain 3 (Some 0%nat) 99 (cascade_world half cascade_buffer)
       = (o, w')
       /\ trace w' = trace (cascade_world half cascade_buffer) ++ new
       /\ (advance (sys (cascade_world half cascade_buffer)) (fired new) <= 4)%nat.
Proof.
  assert (C : constructed (sys (cascade_world half cascade_buffer))).
  { apply (constructed_make example_quantiles cascade_input example_BEL 1).
    vm_compute. reflexivity. }
  assert (H : NucDecaySystem.getNDF 4 (sys (cascade_world half cascade_buffer)) 99
              = Done 4%nat).
  { vm_compute. reflexivity. }
  split; [exact C|].
  exact (proj1 (proj2 (proj2
           (getNDF_bounds_chain (sys (cascade_world half cascade_buffer)) C)))
           (cascade_world half cascade_buffer) 3%nat (Some 0%nat) 99%nat 4%nat 4%nat
           eq_refl H).
Defined.

(** * What the events of a chain depend on *)

Section Respects.

Import NucDecaySystem TransitionBase.

Lemma respects_ret {A : Type} (a : A) : respects (ret a).
Proof. by intros w1 w2 H. Qed.

Lemma respects_lift {A : Type} (o : outcome A) : respects (lift o).
Proof. by intros w1 w2 H. Qed.

Lemma respects_bind {A B : Type} (m : M NucDecaySystem.t A)
    (f : A -> M NucDecaySystem.t B) :
  respects m -> (forall a, respects (f a)) -> respects (bind m f).
Proof.
  intros Hm Hf w1 w2 H. unfold bind. destruct (Hm w1 w2 H) as [Ho Hw].
  destruct (m w1) as [o1 w1'], (m w2) as [o2 w2']. cbn in *. subst o2.
  destruct o1 as [a|e| |]; [by apply Hf|done..].
Qed.

Lemma respects_get_sys : respects get_sys.
Proof. intros w1 w2 H. cbn. by rewrite (si_sys _ _ H). Qed.

Lemma respects_put_sys (s : NucDecaySystem.t) : respects (put_sys s).
Proof. intros w1 w2 [H1 H2 H3 H4]. by split. Qed.

Lemma respects_put_rnd_tmp (x : Qc) : respects (put_rnd_tmp x).
Proof. intros w1 w2 [H1 H2 H3 H4]. by split. Qed.

Lemma respects_note (m : mark) : respects (note m).
Proof. intros w1 w2 [H1 H2 H3 H4]. by split. Qed.

Lemma respects_push_back (evt : NucDecayEvent.t) : respects (push_back evt).
Proof. intros w1 w2 [H1 H2 H3 H4]. split; [done|]. split; cbn; congruence. Qed.

Lemma respects_load (rnd i : nat) : respects (load rnd i).
Proof. intros w1 w2 H. unfold load; cbn. by rewrite (si_mem _ _ H). Qed.

Lemma respects_store (rnd i : nat) (x : Qc) : respects (store rnd i x).
Proof.
  intros w1 w2 H. pose proof H as [H1 H2 H3 H4]. unfold store. rewrite H3.
  destruct (mem w2 !! _); [|done]. split; [done|]. split; cbn; congruence.
Qed.

Lemma respects_Uniform (x1 x2 : Qc) : respects (Uniform x1 x2).
Proof.
  intros w1 w2 [H1 H2 H3 H4]. unfold Uniform; cbn. rewrite H2. split; [done|].
  by split.
Qed.

Ltac respects_step :=
  first
    [ apply respects_ret | apply respects_lift | apply respects_get_sys
    | apply respects_put_sys | apply respects_put_rnd_tmp | apply respects_note
    | apply respects_push_back | apply respects_load | apply respects_store
    | apply respects_Uniform
    | apply respects_bind; [|intros ?] ].

Lemma respects_select (s : PSelector.t) (x : option nat) :
  respects (PSelector.select s x).
Proof. unfold PSelector.select. destruct x; repeat respects_step. Qed.

Lemma respects_randp (evt : NucDecayEvent.t) (rnd : option nat) :
  respects (randp evt rnd).
Proof. unfold randp, randomDirection. destruct rnd; repeat respects_step. Qed.

Lemma respects_the_transition (T : nat) : respects (the_transition T).
Proof. unfold the_transition. repeat respects_step. Qed.

Lemma respects_the_atom (Z : nat) : respects (the_atom Z).
Proof. unfold the_atom. repeat respects_step. Qed.

Lemma respects_put_kind (T : nat) (k : variant) : respects (put_kind T k).
Proof. unfold put_kind. repeat respects_step. Qed.

Lemma respects_genAuger (Z : nat) : respects (genAuger Z).
Proof.
  unfold genAuger.
  apply respects_bind; [apply respects_the_atom|]. intros a.
  apply respects_bind; [apply respects_Uniform|]. intros u.
  case_decide; [apply respects_ret|].
  apply respects_bind; [apply respects_randp|]. intros evt.
  apply respects_push_back.
Qed.

Lemma respects_run (T : nat) (rnd : option nat) : respects (run T rnd).
Proof.
  unfold run. apply respects_bind; [apply respects_the_transition|]. intros tb.
  destruct (kind tb) as [g|b|e].
  - unfold ConversionGamma_run.
    apply respects_bind; [apply respects_select|]. intros sel.
    apply respects_bind; [apply respects_put_kind|]. intros _.
    apply respects_bind.
    { case_decide; [|apply respects_ret].
      apply respects_bind; [apply respects_lift|]. intros ss.
      apply respects_bind; [apply respects_select|]. intros sub.
      apply respects_ret. }
    intros g'. apply respects_bind; [apply respects_put_kind|]. intros _.
    apply respects_bind.
    { case_decide; [apply respects_ret|].
      apply respects_bind; [apply respects_the_transition|]. intros tb'.
      apply respects_bind; [apply respects_the_atom|]. intros a.
      apply respects_ret. }
    intros evt. apply respects_bind; [apply respects_randp|]. intros evt'.
    apply respects_push_back.
  - unfold BetaDecayTrans_run.
    apply respects_bind; [apply respects_randp|]. intros evt.
    apply respects_bind; [destruct rnd; repeat respects_step|]. intros e.
    apply respects_push_back.
  - unfold ECapture_run.
    apply respects_bind; [apply respects_the_transition|]. intros tb'.
    apply respects_bind; [apply respects_Uniform|]. intros u.
    apply respects_bind; [apply respects_the_atom|]. intros a.
    apply respects_put_kind.
Qed.

Lemma respects_repeat {A : Type} (k : nat) (m : M NucDecaySystem.t A) :
  respects m -> respects (repeat_ k m).
Proof.
  intros Hm. induction k as [|k IH]; cbn [repeat_]; [apply respects_ret|].
  by apply respects_bind.
Qed.

Lemma respects_genDecayChain (fuel : nat) :
  forall rnd n, respects (genDecayChain fuel rnd n).
Proof.
  induction fuel as [|fuel IH]; intros rnd n; [apply respects_lift|].
  rewrite genDecayChain_unfold.
  apply respects_bind; [apply respects_note|]. intros _.
  apply respects_bind; [apply respects_get_sys|]. intros s. cbv zeta.
  apply respects_bind.
  { destruct (bool_decide _); [apply respects_select|apply respects_ret]. }
  intros n0. unfold chain_body.
  apply respects_bind; [apply respects_lift|]. intros lev.
  destruct (_ || _); [apply respects_ret|].
  apply respects_bind; [apply respects_lift|]. intros ld.
  apply respects_bind; [apply respects_select|]. intros k.
  apply respects_bind; [apply respects_lift|]. intros tout.
  apply respects_bind; [apply respects_lift|]. intros T.
  apply respects_bind; [apply respects_note|]. intros _.
  apply respects_bind; [apply respects_run|]. intros _.
  apply respects_bind; [apply respects_the_transition|]. intros tb. cbv zeta.
  apply respects_bind.
  { apply respects_repeat.
    apply respects_bind; [apply respects_get_sys|]. intros s1.
    apply respects_bind; [apply respects_lift|]. intros lto1.
    apply respects_bind; [apply respects_lift|]. intros s2.
    apply respects_bind; [apply respects_put_sys|]. intros _.
    apply respects_genAuger. }
  intros _.
  apply respects_bind; [apply respects_get_sys|]. intros s5.
  apply respects_bind; [apply respects_lift|]. intros lto.
  apply IH.
Qed.

End Respects.

(** C1. Two calls of [genDecayChain] with the same start level and the
    same [rnd], on the same system, with arrays of uniform values of the
    same content, the same output vectors and the same state of the
    ambient source [gRandom], have the same outcome and leave the same
    output vector, the same array, the same system and the same state of
    the ambient source. *)
Theorem genDecayChain_same_inputs (fuel : nat) (rnd : option nat) (n : nat)
    (w1 w2 : World NucDecaySystem.t) :
  sys w1 = sys w2 -> gRandom w1 = gRandom w2 -> mem w1 = mem w2 -> v w1 = v w2 ->
  (NucDecaySystem.genDecayChain fuel rnd n w1).1
  = (NucDecaySystem.genDecayChain fuel rnd n w2).1
  /\ v (NucDecaySystem.genDecayChain fuel rnd n w1).2
     = v (NucDecaySystem.genDecayChain fuel rnd n w2).2
  /\ mem (NucDecaySystem.genDecayChain fuel rnd n w1).2
     = mem (NucDecaySystem.genDecayChain fuel rnd n w2).2
  /\ sys (NucDecaySystem.genDecayChain fuel rnd n w1).2
     = sys (NucDecaySystem.genDecayChain fuel rnd n w2).2
  /\ gRandom (NucDecaySystem.genDecayChain fuel rnd n w1).2
     = gRandom (NucDecaySystem.genDecayChain fuel rnd n w2).2.
Proof.
  intros H1 H2 H3 H4.
  destruct (respects_genDecayChain fuel rnd n w1 w2) as [Ho [R1 R2 R3 R4]]; [by split|].
  done.
Qed.

Lemma genDecayChain_same_inputs_witness :
  let w1 := cascade_world half cascade_buffer in
  let w2 := mkworld cascade (mkrandom (fun _ => half) 0) 1 cascade_buffer []
              [Entering 7] in
  (NucDecaySystem.genDecayChain 3 (Some 0%nat) 99 w1).1
  = (NucDecaySystem.genDecayChain 3 (Some 0%nat) 99 w2).1
  /\ v (NucDecaySystem.genDecayChain 3 (Some 0%nat) 99 w1).2
     = v (NucDecaySystem.genDecayChain 3 (Some 0%nat) 99 w2).2
  /\ mem (NucDecaySystem.genDecayChain 3 (Some 0%nat) 99 w1).2
     = mem (NucDecaySystem.genDecayChain 3 (Some 0%nat) 99 w2).2
  /\ sys (NucDecaySystem.genDecayChain 3 (Some 0%nat) 99 w1).2
     = sys (NucDecaySystem.genDecayChain 3 (Some 0%nat) 99 w2).2
  /\ gRandom (NucDecaySystem.genDecayChain 3 (Some 0%nat) 99 w1).2
     = gRandom (NucDecaySystem.genDecayChain 3 (Some 0%nat) 99 w2).2.
Proof.
  intros w1 w2.
  assert (H1 : sys w1 = sys w2)
    by (unfold w1, w2; cbn [sys cascade_world]; reflexivity).
  assert (H2 : gRandom w1 = gRandom w2)
    by (unfold w1, w2; cbn [gRandom cascade_world]; reflexivity).
  assert (H3 : mem w1 = mem w2)
    by (unfold w1, w2; cbn [mem cascade_world]; reflexivity).
  assert (H4 : v w1 = v w2)
    by (unfold w1, w2; cbn [v cascade_world]; reflexivity).
  exact (genDecayChain_same_inputs 3 (Some 0%nat) 99 w1 w2 H1 H2 H3 H4).
Defined.

(** With a non-null [rnd], the same array of uniform values, the same
    system, start level and output vector, two calls differ in the number
    of events they emit when the ambient source differs: the Auger
    electron of the K conversion of the first gamma is drawn from
    [gRandom]. *)
Lemma ambient_source_changes_chain :
  let w1 := cascade_world (Q2Qc (1 # 10)) cascade_buffer in
  let w2 := cascade_world (Q2Qc (9 # 10)) cascade_buffer in
  sys w1 = sys w2 /\ mem w1 = mem w2 /\ v w1 = v w2
  /\ (NucDecaySystem.genDecayChain 3 (Some 0%nat) 99 w1).1 = Done tt
  /\ (NucDecaySystem.genDecayChain 3 (Some 0%nat) 99 w2).1 = Done tt
  /\ length (v (NucDecaySystem.genDecayChain 3 (Some 0%nat) 99 w1).2) = 3%nat
  /\ length (v (NucDecaySystem.genDecayChain 3 (Some 0%nat) 99 w2).2) = 2%nat.
Proof.
  cbv zeta. cbn [sys mem v cascade_world].
  split; [reflexivity|]. split; [reflexivity|]. split; [reflexivity|].
  repeat split; vm_compute; reflexivity.
Qed.

(** * Further properties *)

(** ** Particle names *)

(** X1. [particleType] undoes [particleName] on every decay type, and
    [particleName] undoes [particleType] exactly on the five names
    [particleName] can return; every other string reads as [D_NONEVENT]
    and is written back as ["UNKNOWN"]. *)
Theorem particle_names_round_trip :
  (forall t, particleType (particleName t) = t)
  /\ (forall s, particleName (particleType s) = s
               <-> s ∈ ["gamma"; "e-"; "e+"; "neutrino"; "UNKNOWN"])
  /\ (forall s, s ∉ ["gamma"; "e-"; "e+"; "neutrino"] ->
                particleType s = D_NONEVENT
                /\ particleName (particleType s) = "UNKNOWN").
Proof.
  split; [by intros []|]. split.
  - intros s. rewrite !elem_of_cons, elem_of_nil. split.
    + destruct (particleType s); cbn; intros <-; tauto.
    + intros [->|[->|[->|[->|[->|[]]]]]]; reflexivity.
  - intros s Hs. rewrite !elem_of_cons, elem_of_nil in Hs.
    assert (Ht : particleType s = D_NONEVENT).
    { unfold particleType. repeat case_decide; try done; exfalso; apply Hs; tauto. }
    by rewrite Ht.
Qed.

(** ** Selectors at their edges *)

Section PSelectorEdges.

Import PSelector.

Lemma upper_bound_all (l : list Qc) (x : Qc) :
  (forall i, (i < length l)%nat -> at_ l i <= x) -> upper_bound l x = length l.
Proof.
  induction l as [|c l IH]; intros H; [done|]. cbn [upper_bound length].
  pose proof (H 0%nat ltac:(cbn; lia)) as H0. unfold at_ in H0. cbn in H0.
  rewrite decide_False by (intros Hlt; revert H0 Hlt; qc_to_q; intros; lra).
  f_equal. apply IH. intros i Hi. apply (H (S i)). cbn. lia.
Qed.

Lemma locate_at_total (s : t) (x : Qc) :
  wf s -> getCumProb s <= x ->
  locate s x = Raise (AssertionFailure "selected<cumprob.size()-1").
Proof.
  intros [[l Hl] Hm] Hx. unfold locate.
  rewrite upper_bound_all.
  - rewrite Hl. cbn [length]. rewrite decide_False by (cbn; lia). done.
  - intros i Hi. unfold getCumProb in Hx. rewrite back_at in Hx.
    pose proof (Hm i (length (cumprob s) - 1)%nat ltac:(lia)) as Hle.
    revert Hle Hx. qc_to_q. intros. lra.
Qed.




End PSelectorEdges.

(** X2. [select(&x)] with [x = 1]: the first assertion lets it through
    ([*x <= 1]), [upper_bound] finds no cumulative weight above the total,
    and the second assertion fails.  So does every scaled value at or
    above the total. *)
Theorem select_at_one_raises (s : PSelector.t) :
  PSelector.wf s ->
  PSelector.select_x s 1 = Raise (AssertionFailure "selected<cumprob.size()-1")
  /\ forall v, PSelector.getCumProb s <= v ->
       PSelector.locate s v = Raise (AssertionFailure "selected<cumprob.size()-1").
Proof.
  intros Hwf. split; [|intros v Hv; by apply locate_at_total].
  unfold PSelector.select_x. rewrite decide_True by done.
  apply locate_at_total; [done|]. unfold PSelector.getCumProb.
  rewrite Qcmult_1_l. apply Qcle_refl.
Qed.

Lemma select_at_one_raises_witness :
  PSelector.wf example_selector
  /\ PSelector.select_x example_selector 1
     = Raise (AssertionFailure "selected<cumprob.size()-1").
Proof.
  assert (W : PSelector.wf example_selector).
  { apply wf_addProb; [apply wf_addProb; [apply wf_new|done]|done]. }
  split; [exact W|]. exact (proj1 (select_at_one_raises example_selector W)).
Defined.

(** X3. On a selector whose total is zero (no bin, or bins of weight zero
    only), [select] returns no bin: with a supplied [x] it fails one of
    its two assertions, and with none it draws from [Uniform(0,0)] and
    fails the second. *)
Theorem select_on_zero_total_raises (s : PSelector.t) :
  PSelector.wf s -> PSelector.getCumProb s = 0 ->
  (forall x, exists e, PSelector.select_x s x = Raise e)
  /\ (forall x, 0 <= x -> x <= 1 ->
        PSelector.select_x s x = Raise (AssertionFailure "selected<cumprob.size()-1"))
  /\ (forall w : World NucDecaySystem.t,
        (PSelector.select s None w).1
        = Raise (AssertionFailure "selected<cumprob.size()-1")).
Proof.
  intros Hwf H0.
  assert (Hx : forall x, 0 <= x -> x <= 1 ->
            PSelector.select_x s x
            = Raise (AssertionFailure "selected<cumprob.size()-1")).
  { intros x Hx0 Hx1. unfold PSelector.select_x. rewrite decide_True by done.
    apply locate_at_total; [done|]. unfold PSelector.getCumProb in *.
    rewrite H0, Qcmult_0_r. apply Qcle_refl. }
  split; [|split; [exact Hx|]].
  - intros x. destruct (decide (0 <= x /\ x <= 1)) as [[? ?]|Hn].
    + eexists. by apply Hx.
    + eexists. unfold PSelector.select_x. by rewrite decide_False.
  - intros w. unfold PSelector.select, bind, note, Uniform, put_rnd_tmp, lift. cbn.
    unfold PSelector.getCumProb in H0. rewrite H0.
    rewrite (locate_at_total s); [done|done|].
    unfold PSelector.getCumProb. rewrite H0. by vm_compute.
Qed.

Lemma select_on_zero_total_raises_witness :
  PSelector.wf PSelector.new /\ PSelector.getCumProb PSelector.new = 0
  /\ PSelector.select_x PSelector.new (Q2Qc (1 # 2))
     = Raise (AssertionFailure "selected<cumprob.size()-1").
Proof.
  split; [exact wf_new|]. split; [reflexivity|].
  exact (proj1 (proj2 (select_on_zero_total_raises PSelector.new wf_new eq_refl))
           (Q2Qc (1 # 2)) ltac:(by vm_compute) ltac:(by vm_compute)).
Defined.



(** ** Atoms, names and levels *)

(** X5. [getAtom(Z)] creates an atom once: after a call that returns,
    the atom of [Z] exists, a second call changes nothing, every atom that
    existed is still there, unchanged, and nothing but [atoms] differs;
    when the atom exists already the system is left as it is. *)
Theorem getAtom_creates_once (s s' : NucDecaySystem.t) (Z : nat) :
  NucDecaySystem.getAtom s Z = Done s' ->
  is_Some (NucDecaySystem.atoms s' !! Z)
  /\ NucDecaySystem.getAtom s' Z = Done s'
  /\ (forall Z' a, NucDecaySystem.atoms s !! Z' = Some a ->
        NucDecaySystem.atoms s' !! Z' = Some a)
  /\ (forall Z', Z' <> Z ->
        NucDecaySystem.atoms s' !! Z' = NucDecaySystem.atoms s !! Z')
  /\ (is_Some (NucDecaySystem.atoms s !! Z) -> s' = s)
  /\ s' = NucDecaySystem.set_atoms s (NucDecaySystem.atoms s').
Proof.
  unfold NucDecaySystem.getAtom.
  destruct (NucDecaySystem.atoms s !! Z) as [a|] eqn:Ha.
  - intros [= <-]. rewrite Ha. split; [by eexists|]. split; [done|]. split; [done|].
    split; [done|]. split; [done|]. by destruct s.
  - destruct (NucDecaySystem.BEL s Z) as [B|] eqn:HB; [|done]. intros [= <-]. cbn.
    rewrite lookup_insert_eq. split; [by eexists|]. split; [done|]. split.
    + intros Z' a Ha'. rewrite lookup_insert_ne; [done|]. intros ->. congruence.
    + split; [intros Z' Hne; by rewrite lookup_insert_ne|].
      split; [by intros [? ?]|done].
Qed.

Lemma getAtom_creates_once_witness :
  NucDecaySystem.getAtom cascade_empty 28 =
    Done (NucDecaySystem.set_atoms cascade_empty
            (<[28%nat := DecayAtom.make (mkBET 28 (fun _ _ => 1))]> ∅))
  /\ is_Some (NucDecaySystem.atoms
                (NucDecaySystem.set_atoms cascade_empty
                   (<[28%nat := DecayAtom.make (mkBET 28 (fun _ _ => 1))]> ∅)) !! 28%nat).
Proof.
  split; [reflexivity|].
  exact (proj1 (getAtom_creates_once cascade_empty _ 28 eq_refl)).
Defined.

(** X6. In the system the constructor returns, [levIndex] and the
    levels are inverse to each other: the name of the level at position
    [i] is mapped to [i], a position [levIndex] returns holds a level of
    that name, and a name no level record has throws [UnknownLevel] with
    that name. *)
Theorem levIndex_round_trip (q : BetaSpectrumGenerator -> Qc -> Qc) (Q : SMFile)
    (B : BindingEnergyLibrary) (tc : Qc) (s : NucDecaySystem.t) :
  NucDecaySystem.make q Q B tc = Done s ->
  (forall i l, NucDecaySystem.levels s !! i = Some l ->
     NucDecaySystem.levIndex s (NucLevel.name l) = Done i)
  /\ (forall nm i, NucDecaySystem.levIndex s nm = Done i ->
        exists l, NucDecaySystem.levels s !! i = Some l /\ NucLevel.name l = nm)
  /\ (forall nm, nm ∉ level_names Q ->
        NucDecaySystem.levIndex s nm = Raise (UnknownLevel nm)).
Proof.
  intros E. pose proof (make_post Q B q tc) as P. rewrite E in P.
  destruct P as (_ & F & _). pose proof (bt_index s (fi_built Q B s F)) as Ix.
  split; [|split].
  - intros i l Hl. unfold NucDecaySystem.levIndex.
    assert (H : NucDecaySystem.levelIndex s !! NucLevel.name l = Some i)
      by (apply Ix; by exists l).
    by rewrite H.
  - intros nm i H. by destruct (levIndex_Done Q B s nm i F H) as [_ ?].
  - intros nm Hnm. unfold NucDecaySystem.levIndex.
    destruct (NucDecaySystem.levelIndex s !! nm) as [i|] eqn:Hi; [|done].
    exfalso. apply Hnm.
    assert (H : NucDecaySystem.levIndex s nm = Done i)
      by (unfold NucDecaySystem.levIndex; by rewrite Hi).
    by destruct (levIndex_Done Q B s nm i F H) as [? _].
Qed.

Lemma levIndex_round_trip_witness :
  NucDecaySystem.make example_quantiles cascade_input example_BEL 1 = Done cascade
  /\ (forall nm, nm ∉ level_names cascade_input ->
        NucDecaySystem.levIndex cascade nm = Raise (UnknownLevel nm)).
Proof.
  assert (E : NucDecaySystem.make example_quantiles cascade_input example_BEL 1
              = Done cascade) by (vm_compute; reflexivity).
  split; [exact E|].
  exact (proj2 (proj2 (levIndex_round_trip example_quantiles cascade_input
                         example_BEL 1 cascade E))).
Defined.

(** X7. The constructor keeps every level record as one level and
    sorts the levels by energy: the levels of the system it returns are
    those of the records (name, A, Z and E) in some order, in ascending
    order of energy, each carrying its own position as [n], whatever the
    third field of its name was. *)
Theorem constructor_sorts_levels (q : BetaSpectrumGenerator -> Qc -> Qc) (Q : SMFile)
    (B : BindingEnergyLibrary) (tc : Qc) (s : NucDecaySystem.t) :
  NucDecaySystem.make q Q B tc = Done s ->
  lv_static <$> NucDecaySystem.levels s ≡ₚ lv_static <$> (level_of <$> sm_level Q)
  /\ length (NucDecaySystem.levels s) = length (sm_level Q)
  /\ (forall i j li lj, (i <= j)%nat ->
        NucDecaySystem.levels s !! i = Some li ->
        NucDecaySystem.levels s !! j = Some lj ->
        NucLevel.E li <= NucLevel.E lj)
  /\ (forall i l, NucDecaySystem.levels s !! i = Some l -> NucLevel.n l = i).
Proof.
  intros E. pose proof (make_post Q B q tc) as P. rewrite E in P.
  destruct P as (_ & [[G _ So _] _ Hl] & _).
  split; [done|]. split.
  - apply Permutation_length in Hl. by rewrite !length_fmap in Hl.
  - split; [exact So|]. exact (g_n s G).
Qed.

Lemma constructor_sorts_levels_witness :
  NucDecaySystem.make example_quantiles cascade_input example_BEL 1 = Done cascade
  /\ length (NucDecaySystem.levels cascade) = length (sm_level cascade_input).
Proof.
  assert (E : NucDecaySystem.make example_quantiles cascade_input example_BEL 1
              = Done cascade) by (vm_compute; reflexivity).
  split; [exact E|].
  exact (proj1 (proj2 (constructor_sorts_levels example_quantiles cascade_input
                         example_BEL 1 cascade E))).
Defined.

(** ** How [setCutoff] and [scale] compose *)

Section Compose.

Import NucDecaySystem.

Lemma after_setCutoff_twice (s : NucDecaySystem.t) (t1 t2 : Qc) :
  after_setCutoff (after_setCutoff s t1) t2 = after_setCutoff s t2.
Proof. reflexivity. Qed.





End Compose.

(** X8. Of two calls of [setCutoff] on a constructed system only the
    last one counts: [setCutoff(t1); setCutoff(t2)] leaves the system that
    [setCutoff(t2)] alone leaves.  In particular a second call with the
    same cutoff changes nothing. *)
Theorem setCutoff_last_wins (s : NucDecaySystem.t) (t1 t2 : Qc) :
  constructed s ->
  exists s1 s2,
    NucDecaySystem.setCutoff s t1 = Done s1
    /\ NucDecaySystem.setCutoff s1 t2 = Done s2
    /\ NucDecaySystem.setCutoff s t2 = Done s2
    /\ NucDecaySystem.setCutoff s1 t1 = Done s1.
Proof.
  intros C. apply constructed_ready in C as [Bs _ _].
  pose proof (after_setCutoff_built s t1 Bs) as [[G1 _ _ _] _].
  exists (after_setCutoff s t1), (after_setCutoff s t2).
  split; [apply setCutoff_closed, Bs|]. split.
  - rewrite (setCutoff_closed _ t2 G1). by rewrite after_setCutoff_twice.
  - split; [apply setCutoff_closed, Bs|].
    rewrite (setCutoff_closed _ t1 G1). by rewrite after_setCutoff_twice.
Qed.

Lemma setCutoff_last_wins_witness :
  constructed (sys (cascade_world half cascade_buffer))
  /\ exists s1 s2,
       NucDecaySystem.setCutoff (sys (cascade_world half cascade_buffer)) 0 = Done s1
       /\ NucDecaySystem.setCutoff s1 1 = Done s2
       /\ NucDecaySystem.setCutoff (sys (cascade_world half cascade_buffer)) 1 = Done s2
       /\ NucDecaySystem.setCutoff s1 0 = Done s1.
Proof.
  assert (C : constructed (sys (cascade_world half cascade_buffer))).
  { apply (constructed_make example_quantiles cascade_input example_BEL 1).
    vm_compute. reflexivity. }
  split; [exact C|].
  exact (setCutoff_last_wins (sys (cascade_world half cascade_buffer)) 0 1 C).
Defined.



(** ** What a chain leaves alone *)

Section Keeps.

Import NucDecaySystem TransitionBase.

Variable I : World NucDecaySystem.t -> World NucDecaySystem.t -> Prop.

(** The pointers into the caller's array a write may go through. *)
Variable ok : nat -> Prop.

Hypothesis I_refl : forall w, I w w.
Hypothesis I_trans : forall w1 w2 w3, I w1 w2 -> I w2 w3 -> I w1 w3.
Hypothesis ok_add : forall r k, ok r -> ok (r + k)%nat.

Hypothesis I_note : forall m, keeps I (note m).
Hypothesis I_put_sys : forall s, keeps I (put_sys s).
Hypothesis I_put_rnd_tmp : forall x, keeps I (put_rnd_tmp x).
Hypothesis I_push_back : forall evt, keeps I (push_back evt).
Hypothesis I_Uniform : forall x1 x2, keeps I (Uniform x1 x2).
Hypothesis I_store : forall r x, ok r -> keeps I (store r 0 x).

Lemma keeps_ret {A : Type} (a : A) : keeps I (ret a).
Proof. intros w. apply I_refl. Qed.

Lemma keeps_lift {A : Type} (o : outcome A) : keeps I (lift o).
Proof. intros w. apply I_refl. Qed.

Lemma keeps_bind {A B : Type} (m : M NucDecaySystem.t A)
    (f : A -> M NucDecaySystem.t B) :
  keeps I m -> (forall a, keeps I (f a)) -> keeps I (bind m f).
Proof.
  intros Hm Hf w. unfold bind. specialize (Hm w).
  destruct (m w) as [[a|e| |] w1]; cbn in *; try done.
  eapply I_trans; [exact Hm|]. apply Hf.
Qed.

Lemma keeps_get_sys : keeps I get_sys.
Proof. intros w. apply I_refl. Qed.

Lemma keeps_load (rnd i : nat) : keeps I (load rnd i).
Proof. intros w. apply I_refl. Qed.

Lemma keeps_select (s : PSelector.t) (x : option nat) :
  ok_ptr ok x -> keeps I (PSelector.select s x).
Proof.
  intros Hx. unfold PSelector.select.
  apply keeps_bind; [apply I_note|]. intros _. destruct x as [r|].
  - specialize (Hx r eq_refl).
    apply keeps_bind; [apply keeps_load|]. intros x0.
    apply keeps_bind; [apply keeps_lift|]. intros _.
    apply keeps_bind; [by apply I_store|]. intros _.
    apply keeps_bind; [apply keeps_lift|]. intros sr.
    apply keeps_bind; [by apply I_store|]. intros _. apply keeps_ret.
  - apply keeps_bind; [apply I_Uniform|]. intros r.
    apply keeps_bind; [apply I_put_rnd_tmp|]. intros _.
    apply keeps_bind; [apply keeps_lift|]. intros sr.
    apply keeps_bind; [apply I_put_rnd_tmp|]. intros _. apply keeps_ret.
Qed.

Lemma keeps_randp (evt : NucDecayEvent.t) (rnd : option nat) :
  keeps I (randp evt rnd).
Proof.
  unfold randp, randomDirection.
  apply keeps_bind; [|intros; apply keeps_ret].
  apply keeps_bind; [destruct rnd; [apply keeps_load|apply I_Uniform]|]. intros u1.
  apply keeps_bind; [destruct rnd; [apply keeps_load|apply I_Uniform]|]. intros u0.
  apply keeps_ret.
Qed.

Lemma keeps_the_transition (T : nat) : keeps I (the_transition T).
Proof.
  unfold the_transition. apply keeps_bind; [apply keeps_get_sys|]. intros s.
  apply keeps_lift.
Qed.

Lemma keeps_the_atom (Z : nat) : keeps I (the_atom Z).
Proof.
  unfold the_atom. apply keeps_bind; [apply keeps_get_sys|]. intros s.
  apply keeps_lift.
Qed.

Lemma keeps_put_kind (T : nat) (k : variant) : keeps I (put_kind T k).
Proof.
  unfold put_kind. apply keeps_bind; [apply keeps_get_sys|]. intros s.
  apply keeps_bind; [apply keeps_lift|]. intros tb. apply I_put_sys.
Qed.

Lemma keeps_genAuger (Z : nat) : keeps I (genAuger Z).
Proof.
  unfold genAuger.
  apply keeps_bind; [apply keeps_the_atom|]. intros a.
  apply keeps_bind; [apply I_Uniform|]. intros u.
  case_decide; [apply keeps_ret|].
  apply keeps_bind; [apply keeps_randp|]. intros evt. apply I_push_back.
Qed.

Lemma keeps_run (T : nat) (rnd : option nat) : ok_ptr ok rnd -> keeps I (run T rnd).
Proof.
  intros Hr. unfold run. apply keeps_bind; [apply keeps_the_transition|]. intros tb.
  destruct (kind tb) as [g|b|e].
  - unfold ConversionGamma_run.
    apply keeps_bind; [by apply keeps_select|]. intros sel.
    apply keeps_bind; [apply keeps_put_kind|]. intros _.
    apply keeps_bind.
    { case_decide; [|apply keeps_ret].
      apply keeps_bind; [apply keeps_lift|]. intros ss.
      apply keeps_bind; [by apply keeps_select|]. intros sub. apply keeps_ret. }
    intros g'. apply keeps_bind; [apply keeps_put_kind|]. intros _.
    apply keeps_bind.
    { case_decide; [apply keeps_ret|].
      apply keeps_bind; [apply keeps_the_transition|]. intros tb'.
      apply keeps_bind; [apply keeps_the_atom|]. intros a. apply keeps_ret. }
    intros evt. apply keeps_bind; [apply keeps_randp|]. intros evt'.
    apply I_push_back.
  - unfold BetaDecayTrans_run.
    apply keeps_bind; [apply keeps_randp|]. intros evt.
    apply keeps_bind.
    { destruct rnd.
      - apply keeps_bind; [apply keeps_load|]. intros x. apply keeps_ret.
      - apply keeps_bind; [apply I_Uniform|]. intros x. apply keeps_ret. }
    intros e. apply I_push_back.
  - unfold ECapture_run.
    apply keeps_bind; [apply keeps_the_transition|]. intros tb'.
    apply keeps_bind; [apply I_Uniform|]. intros u.
    apply keeps_bind; [apply keeps_the_atom|]. intros a. apply keeps_put_kind.
Qed.

Lemma keeps_repeat {A : Type} (k : nat) (m : M NucDecaySystem.t A) :
  keeps I m -> keeps I (repeat_ k m).
Proof.
  intros Hm. induction k as [|k IH]; cbn [repeat_]; [apply keeps_ret|].
  by apply keeps_bind.
Qed.

Lemma keeps_genDecayChain (fuel : nat) :
  forall rnd n, ok_ptr ok rnd -> keeps I (genDecayChain fuel rnd n).
Proof.
  induction fuel as [|fuel IH]; intros rnd n Hr; [apply keeps_lift|].
  rewrite genDecayChain_unfold.
  apply keeps_bind; [apply I_note|]. intros _.
  apply keeps_bind; [apply keeps_get_sys|]. intros s. cbv zeta.
  apply keeps_bind.
  { destruct (bool_decide _); [by apply keeps_select|apply keeps_ret]. }
  intros n0. unfold chain_body.
  apply keeps_bind; [apply keeps_lift|]. intros lev.
  destruct (_ || _); [apply keeps_ret|].
  apply keeps_bind; [apply keeps_lift|]. intros ld.
  apply keeps_bind; [by apply keeps_select|]. intros k.
  apply keeps_bind; [apply keeps_lift|]. intros tout.
  apply keeps_bind; [apply keeps_lift|]. intros T.
  apply keeps_bind; [apply I_note|]. intros _.
  apply keeps_bind; [by apply keeps_run|]. intros _.
  apply keeps_bind; [apply keeps_the_transition|]. intros tb. cbv zeta.
  apply keeps_bind.
  { apply keeps_repeat.
    apply keeps_bind; [apply keeps_get_sys|]. intros s1.
    apply keeps_bind; [apply keeps_lift|]. intros lto1.
    apply keeps_bind; [apply keeps_lift|]. intros s2.
    apply keeps_bind; [apply I_put_sys|]. intros _. apply keeps_genAuger. }
  intros _.
  apply keeps_bind; [apply keeps_get_sys|]. intros s5.
  apply keeps_bind; [apply keeps_lift|]. intros lto.
  apply IH. intros r Hr'. destruct rnd as [r0|]; [|done].
  cbn in Hr'. injection Hr' as <-. apply ok_add. by apply Hr.
Qed.

End Keeps.

(** X10. Whatever its outcome, a call of [genDecayChain] only appends to
    the caller's vector: the events that were in [v] are still there, in
    the same order, before the new ones. *)
Theorem genDecayChain_appends (fuel : nat) (rnd : option nat) (n : nat)
    (w : World NucDecaySystem.t) :
  exists evs, v (NucDecaySystem.genDecayChain fuel rnd n w).2 = v w ++ evs.
Proof.
  apply (keeps_genDecayChain
           (fun w w' => exists evs, v w' = v w ++ evs) (fun _ => True));
    try done.
  - intros w0. exists []. by rewrite app_nil_r.
  - intros w1 w2 w3 [e1 H1] [e2 H2]. exists (e1 ++ e2). by rewrite H2, H1, app_assoc.
  - intros m w0. exists []. by rewrite app_nil_r.
  - intros s w0. exists []. by rewrite app_nil_r.
  - intros x w0. exists []. by rewrite app_nil_r.
  - intros evt w0. by exists [evt].
  - intros x1 x2 w0. exists []. by rewrite app_nil_r.
  - intros r x _ w0. unfold store. destruct (mem w0 !! _); exists []; by rewrite app_nil_r.
Qed.

(** X11. A call of [genDecayChain] never changes the length of the
    caller's array of uniform values, and with a null [rnd] it leaves the
    array as it is. *)
Theorem genDecayChain_array_frame (fuel : nat) (rnd : option nat) (n : nat)
    (w : World NucDecaySystem.t) :
  length (mem (NucDecaySystem.genDecayChain fuel rnd n w).2) = length (mem w)
  /\ (rnd = None -> mem (NucDecaySystem.genDecayChain fuel rnd n w).2 = mem w).
Proof.
  split.
  - apply (keeps_genDecayChain
             (fun w w' => length (mem w') = length (mem w)) (fun _ => True));
      try done.
    + intros w1 w2 w3 H1 H2. by rewrite H2.
    + intros r x _ w0. unfold store. destruct (mem w0 !! _); [|done]. cbn.
      by rewrite length_insert.
  - intros ->.
    apply (keeps_genDecayChain (fun w w' => mem w' = mem w) (fun _ => False));
      try done.
    intros w1 w2 w3 H1 H2. by rewrite H2.
Qed.

Lemma genDecayChain_array_frame_witness :
  mem (NucDecaySystem.genDecayChain 3 None 99 (cascade_world half cascade_buffer)).2
  = mem (cascade_world half cascade_buffer).
Proof.
  exact (proj2 (genDecayChain_array_frame 3 None 99 (cascade_world half cascade_buffer))
           eq_refl).
Defined.

(** X12. With [rnd] pointing at position [r] of the array, a call of
    [genDecayChain] writes at [r] or beyond only: every value before [r]
    is left as it was. *)
Theorem genDecayChain_writes_from_rnd (fuel : nat) (r n : nat)
    (w : World NucDecaySystem.t) :
  forall j, (j < r)%nat ->
    mem (NucDecaySystem.genDecayChain fuel (Some r) n w).2 !! j = mem w !! j.
Proof.
  apply (keeps_genDecayChain
           (fun w w' => forall j, (j < r)%nat -> mem w' !! j = mem w !! j)
           (fun r' => (r <= r')%nat)); try done.
  - intros w1 w2 w3 H1 H2 j Hj. by rewrite H2, H1.
  - intros r' k Hr'. lia.
  - intros r' x Hr' w0 j Hj. unfold store. destruct (mem w0 !! _); [|done]. cbn.
    apply list_lookup_insert_ne. lia.
  - by intros r' [= <-].
Qed.

Lemma genDecayChain_writes_from_rnd_witness :
  mem (NucDecaySystem.genDecayChain 3 (Some 2%nat) 99
         (cascade_world half cascade_buffer)).2 !! 1%nat
  = mem (cascade_world half cascade_buffer) !! 1%nat.
Proof.
  exact (genDecayChain_writes_from_rnd 3 2 99 (cascade_world half cascade_buffer)
           1%nat ltac:(lia)).
Defined.

(** X13. A call of [genDecayChain] only draws from the ambient source:
    the sequence of values [gRandom] returns is the same afterwards, and
    the number of values taken has not gone down. *)
Theorem genDecayChain_draws_forward (fuel : nat) (rnd : option nat) (n : nat)
    (w : World NucDecaySystem.t) :
  draws (gRandom (NucDecaySystem.genDecayChain fuel rnd n w).2) = draws (gRandom w)
  /\ (taken (gRandom w)
      <= taken (gRandom (NucDecaySystem.genDecayChain fuel rnd n w).2))%nat.
Proof.
  apply (keeps_genDecayChain
           (fun w w' => draws (gRandom w') = draws (gRandom w)
                        /\ (taken (gRandom w) <= taken (gRandom w'))%nat)
           (fun _ => True)); try done.
  - intros w1 w2 w3 [H1 H1'] [H2 H2']. split; [congruence|lia].
  - intros x1 x2 w0. cbn. split; [done|lia].
  - intros r x _ w0. unfold store. by destruct (mem w0 !! _).
Qed.

(** X14. A call of [genDecayChain] at a given level ([n] below the
    number of levels) that has no outgoing flux, or whose half-life
    exceeds the cutoff, returns at once: no event, no value read or drawn,
    the system as it was. *)
Theorem genDecayChain_stops_at_once (fuel : nat) (rnd : option nat) (n : nat)
    (w : World NucDecaySystem.t) (lev : NucLevel.t) :
  NucDecaySystem.levels (sys w) !! n = Some lev ->
  NucLevel.fluxOut lev = 0 \/ NucDecaySystem.tcut (sys w) < NucLevel.hl lev ->
  NucDecaySystem.genDecayChain (S fuel) rnd n w
  = (Done tt, mkworld (sys w) (gRandom w) (rnd_tmp w) (mem w) (v w)
                (trace w ++ [Entering n])).
Proof.
  intros Hlev Hstop. rewrite genDecayChain_unfold.
  unfold bind at 1. unfold note at 1. unfold bind at 1. unfold get_sys at 1. cbn [sys].
  cbv zeta. rewrite bool_decide_eq_false_2 by (apply lookup_lt_Some in Hlev; lia).
  unfold bind at 1. unfold ret at 1. unfold chain_body.
  unfold bind at 1. unfold lift at 1. unfold idx at 1. rewrite Hlev.
  destruct Hstop as [H0|Hhl].
  - by rewrite (bool_decide_eq_true_2 _ H0).
  - rewrite (bool_decide_eq_true_2 _ Hhl). cbn [negb andb]. by rewrite orb_true_r.
Qed.

Lemma genDecayChain_stops_at_once_witness :
  exists lev,
    NucDecaySystem.levels (sys (cascade_world half cascade_buffer)) !! 0%nat = Some lev
    /\ NucDecaySystem.genDecayChain 1 (Some 0%nat) 0 (cascade_world half cascade_buffer)
       = (Done tt,
          mkworld (sys (cascade_world half cascade_buffer))
            (gRandom (cascade_world half cascade_buffer))
            (rnd_tmp (cascade_world half cascade_buffer))
            (mem (cascade_world half cascade_buffer))
            (v (cascade_world half cascade_buffer))
            (trace (cascade_world half cascade_buffer) ++ [Entering 0])).
Proof.
  destruct (NucDecaySystem.levels (sys (cascade_world half cascade_buffer)) !! 0%nat)
    as [lev|] eqn:E; [|by vm_compute in E].
  exists lev. split; [reflexivity|].
  apply (genDecayChain_stops_at_once 0 (Some 0%nat) 0 _ lev E).
  left. assert (H : (NucLevel.fluxOut <$> Some lev) = Some 0).
  { rewrite <- E. vm_compute. reflexivity. }
  by injection H.
Defined.

(** ** Atoms and transitions as they are built *)

Section Parts.

Import NucDecaySystem.

Lemma bump_fluxIn (I : Qc) (f t_ i : nat) (l : NucLevel.t) :
  NucLevel.fluxIn (bump I f t_ i l)
  = NucLevel.fluxIn l + (if decide (i = t_) then I else 0).
Proof. unfold bump. repeat case_decide; cbn; ring. Qed.

End Parts.

(** X15. [addTransition(T)] on a system with well-formed adjacency
    lists, when it returns: [T] is the new last transition, with its atom
    set to the element of the level it leads to; its position is appended
    to [transOut] of the level it leaves and to [transIn] of the level it
    reaches; [levelDecays] of the level it leaves gets a bin of weight
    [Itotal]; [Itotal] is added to the [fluxOut] of the one level and to
    the [fluxIn] of the other (to both fluxes of the same level when the
    two are one), and no other flux changes. *)
Theorem addTransition_books (s s' : NucDecaySystem.t) (T : TransitionBase.t) :
  graph_ok s -> NucDecaySystem.addTransition s T = Done s' ->
  (exists lto,
     NucDecaySystem.levels s !! TransitionBase.to T = Some lto
     /\ NucDecaySystem.transitions s'
        = NucDecaySystem.transitions s ++ [TransitionBase.set_toAtom T (NucLevel.Z lto)]
     /\ is_Some (NucDecaySystem.atoms s' !! NucLevel.Z lto))
  /\ NucDecaySystem.transOut s'
     = alter (fun l => l ++ [length (NucDecaySystem.transitions s)])
         (TransitionBase.from T) (NucDecaySystem.transOut s)
  /\ NucDecaySystem.transIn s'
     = alter (fun l => l ++ [length (NucDecaySystem.transitions s)])
         (TransitionBase.to T) (NucDecaySystem.transIn s)
  /\ NucDecaySystem.levelDecays s'
     = alter (fun ld => PSelector.addProb ld (TransitionBase.Itotal T))
         (TransitionBase.from T) (NucDecaySystem.levelDecays s)
  /\ length (NucDecaySystem.levels s') = length (NucDecaySystem.levels s)
  /\ (forall i l, NucDecaySystem.levels s !! i = Some l ->
        exists l', NucDecaySystem.levels s' !! i = Some l'
          /\ NucLevel.fluxOut l'
             = NucLevel.fluxOut l
               + (if decide (i = TransitionBase.from T) then TransitionBase.Itotal T else 0)
          /\ NucLevel.fluxIn l'
             = NucLevel.fluxIn l
               + (if decide (i = TransitionBase.to T) then TransitionBase.Itotal T else 0)
          /\ NucLevel.name l' = NucLevel.name l /\ NucLevel.n l' = NucLevel.n l
          /\ NucLevel.E l' = NucLevel.E l /\ NucLevel.hl l' = NucLevel.hl l).
Proof.
  intros G E.
  destruct (addTransition_Done s s' T G E) as (lto & atoms' & Hlto & Hf & Ha & Hm & ->).
  split; [exists lto; by split|]. unfold after_addTransition. cbn.
  split; [done|]. split; [done|]. split; [done|].
  split; [apply add_flux_length|].
  intros i l Hl. exists (bump (TransitionBase.Itotal T) (TransitionBase.from T)
                           (TransitionBase.to T) i l).
  split; [by rewrite add_flux_lookup, Hl|].
  split; [apply bump_fluxOut|]. split; [apply bump_fluxIn|].
  unfold bump. by repeat case_decide.
Qed.

Lemma addTransition_books_witness :
  graph_ok (sys (cascade_world half cascade_buffer))
  /\ exists s',
       NucDecaySystem.addTransition (sys (cascade_world half cascade_buffer))
         example_capture = Done s'
       /\ length (NucDecaySystem.levels s')
          = length (NucDecaySystem.levels (sys (cascade_world half cascade_buffer))).
Proof.
  assert (C : constructed (sys (cascade_world half cascade_buffer))).
  { apply (constructed_make example_quantiles cascade_input example_BEL 1).
    vm_compute. reflexivity. }
  assert (G : graph_ok (sys (cascade_world half cascade_buffer)))
    by apply (constructed_ready _ C).
  assert (HN : length (NucDecaySystem.levels (sys (cascade_world half cascade_buffer)))
               = 3%nat) by (vm_compute; reflexivity).
  assert (is_Some (NucDecaySystem.levels (sys (cascade_world half cascade_buffer))
                     !! TransitionBase.to example_capture)) as [lto Hlto].
  { apply lookup_lt_is_Some. rewrite HN. cbn. lia. }
  destruct (addTransition_progress (sys (cascade_world half cascade_buffer))
              example_capture lto G) as [s' E].
  { rewrite HN. cbn. lia. }
  { exact Hlto. }
  { right. assert (HB : NucDecaySystem.BEL (sys (cascade_world half cascade_buffer))
                        = example_BEL) by (vm_compute; reflexivity).
    rewrite HB. by eexists. }
  split; [exact G|]. exists s'. split; [exact E|].
  exact (proj1 (proj2 (proj2 (proj2 (proj2
           (addTransition_books _ s' example_capture G E)))))).
Defined.

Section AtomLoad.

Lemma Qc_percent_nonneg (x : Qc) : 0 <= x -> 0 <= x / Q2Qc 100%Q.
Proof.
  intros Hx. revert Hx. qc_to_q. intros Hx.
  apply Qmult_le_0_compat; [exact Hx|]. by vm_compute.
Qed.

Lemma Qc_sum_nonzero (x y : Qc) : 0 < x -> 0 <= y -> x + y <> 0.
Proof. intros Hx Hy Hz. qc_to_q. lra. Qed.

Lemma Qc_share (x y : Qc) : 0 < x -> 0 <= y -> 0 <= x / (x + y) /\ x / (x + y) <= 1.
Proof.
  intros Hx Hy. revert Hx Hy. qc_to_q. intros Hx Hy.
  assert (Hxy : (0 < this x + this y)%Q) by lra. split.
  - apply Qle_shift_div_l; [exact Hxy|]. lra.
  - apply Qle_shift_div_r; [exact Hxy|]. lra.
Qed.

Lemma load_loop (a : DecayAtom.t) (dat : list (string * Qc)) :
  0 <= DecayAtom.Ikxr a ->
  Forall (fun kv => (0 < String.length (fst kv))%nat /\ 0 <= snd kv) dat ->
  exists a1,
    ofold (fun a kv =>
             let! _ := smassert (bool_decide (0 < String.length (fst kv))%nat)
                                "it->first.size()" in
             if DecayAtom.first_is "a" (fst kv)
             then Done (DecayAtom.set_Iauger a
                          (DecayAtom.Iauger a + snd kv / Q2Qc 100%Q))
             else if DecayAtom.first_is "k" (fst kv)
             then Done (DecayAtom.set_Ikxr a (DecayAtom.Ikxr a + snd kv / Q2Qc 100%Q))
             else Done a)
          dat a = Done a1
    /\ 0 <= DecayAtom.Ikxr a1
    /\ DecayAtom.BET a1 = DecayAtom.BET a /\ DecayAtom.Eauger a1 = DecayAtom.Eauger a
    /\ DecayAtom.ICEK a1 = DecayAtom.ICEK a.
Proof.
  intros Hk Hdat. revert a Hk. induction Hdat as [|kv dat [Hlen Hv] _ IH]; intros a Hk.
  - exists a. by cbn.
  - cbn [ofold]. unfold smassert. rewrite bool_decide_eq_true_2 by done. cbn [obind].
    destruct (DecayAtom.first_is "a" (fst kv)); cbn [obind].
    + destruct (IH (DecayAtom.set_Iauger a (DecayAtom.Iauger a + snd kv / Q2Qc 100%Q)))
        as (a1 & E & H1 & H2 & H3 & H4); [done|]. by exists a1.
    + destruct (DecayAtom.first_is "k" (fst kv)); cbn [obind].
      * destruct (IH (DecayAtom.set_Ikxr a (DecayAtom.Ikxr a + snd kv / Q2Qc 100%Q)))
          as (a1 & E & H1 & H2 & H3 & H4); [|by exists a1].
        cbn. pose proof (Qc_percent_nonneg _ Hv) as Hp.
        revert Hk Hp. generalize (snd kv / Q2Qc 100%Q). intros p.
        qc_to_q. intros. lra.
      * destruct (IH a Hk) as (a1 & E & H1 & H2 & H3 & H4). by exists a1.
Qed.

End AtomLoad.

(** X16. [DecayAtom::load] on a record whose keys are not empty and whose
    values are not negative returns, and leaves a probability in
    [pAuger]: it lies between 0 and 1.  [Iauger] is the hundredth of the
    record's ["Iauger"], whatever the keys that begin with [a] held; when
    it is zero both [pAuger] and [IMissing] are zero.  The binding
    energies, the Auger energy and [ICEK] are kept. *)
Theorem DecayAtom_load_probability (a : DecayAtom.t) (m : AugerRec) :
  0 <= DecayAtom.Ikxr a ->
  Forall (fun kv => (0 < String.length (fst kv))%nat /\ 0 <= snd kv) (a_dat m) ->
  0 <= a_Iauger m ->
  exists a',
    DecayAtom.load a m = Done a'
    /\ 0 <= DecayAtom.pAuger a' /\ DecayAtom.pAuger a' <= 1
    /\ DecayAtom.Iauger a' = a_Iauger m / Q2Qc 100%Q
    /\ (a_Iauger m = 0 -> DecayAtom.pAuger a' = 0 /\ DecayAtom.IMissing a' = 0)
    /\ DecayAtom.BET a' = DecayAtom.BET a
    /\ DecayAtom.Eauger a' = DecayAtom.Eauger a
    /\ DecayAtom.ICEK a' = DecayAtom.ICEK a.
Proof.
  intros Hk Hdat HI. unfold DecayAtom.load.
  destruct (load_loop a (a_dat m) Hk Hdat) as (a1 & E & Hk1 & HB & HE & HC).
  rewrite E. cbn [obind]. cbv zeta.
  cbn [DecayAtom.Iauger DecayAtom.Ikxr DecayAtom.ICEK DecayAtom.set_Iauger
       DecayAtom.set_IMissing].
  destruct (decide (a_Iauger m / Q2Qc 100%Q = 0)) as [H0|H0].
  - eexists. split; [reflexivity|]. cbn. split; [done|]. split; [done|].
    split; [done|]. split; [done|]. done.
  - pose proof (Qc_percent_nonneg _ HI) as Hnn.
    set (x := a_Iauger m / Q2Qc 100%Q) in *. set (y := DecayAtom.Ikxr a1) in *.
    assert (Hpos : 0 < x).
    { destruct (Qclt_le_dec 0 x) as [?|Hle]; [done|].
      exfalso. apply H0. by apply Qcle_antisym. }
    assert (Hd : x + y <> 0) by (by apply Qc_sum_nonzero).
    unfold fdiv. rewrite decide_False by exact Hd. cbn [obind].
    eexists. split; [reflexivity|]. cbn.
    destruct (Qc_share x y Hpos Hk1) as [Hs0 Hs1].
    split; [exact Hs0|]. split; [exact Hs1|]. split; [done|]. split; [|done].
    intros Hz. exfalso. apply H0. unfold x. rewrite Hz. unfold Qcdiv. ring.
Qed.

Lemma DecayAtom_load_probability_witness :
  0 <= DecayAtom.Ikxr example_atom
  /\ 0 <= a_Iauger example_auger
  /\ exists a',
       DecayAtom.load example_atom example_auger = Done a'
       /\ 0 <= DecayAtom.pAuger a' /\ DecayAtom.pAuger a' <= 1.
Proof.
  assert (H1 : 0 <= DecayAtom.Ikxr example_atom) by (by vm_compute).
  assert (H2 : Forall (fun kv => (0 < String.length (fst kv))%nat /\ 0 <= snd kv)
                 (a_dat example_auger)).
  { repeat constructor; cbn; try lia; by vm_compute. }
  assert (H3 : 0 <= a_Iauger example_auger) by (by vm_compute).
  split; [exact H1|]. split; [exact H3|].
  destruct (DecayAtom_load_probability example_atom example_auger H1 H2 H3)
    as (a' & E & Hp0 & Hp1 & _).
  exists a'. split; [exact E|]. split; [exact Hp0|exact Hp1].
Defined.

Section GammaMake.

Lemma fold_addProb_total (ws : list Qc) :
  PSelector.getCumProb (fold_left PSelector.addProb ws PSelector.new) = Qc_sum ws.
Proof. rewrite getCumProb_fold, getCumProb_new. ring. Qed.

End GammaMake.

(** X17. [ConversionGamma::ConversionGamma]: the gamma energy is the
    difference of the level energies; [Igamma] is the hundredth of the
    record's; [shells] has one bin per conversion shell and a last one for
    the photon, and there is one subshell selector per conversion shell;
    [Itotal] is the total of [shells], that is [Igamma] times one plus the
    sum of the conversion coefficients. *)
Theorem ConversionGamma_make_total (f t_ : NucLevel.t) (m : GammaRec) :
  let g := fst (ConversionGamma.make f t_ m) in
  let Itotal := snd (ConversionGamma.make f t_ m) in
  ConversionGamma.Egamma g = NucLevel.E f - NucLevel.E t_
  /\ ConversionGamma.Igamma g = g_Igamma m / Q2Qc 100%Q
  /\ PSelector.getN (ConversionGamma.shells g) = S (length (g_CE m))
  /\ length (ConversionGamma.subshells g) = length (g_CE m)
  /\ Itotal = PSelector.getCumProb (ConversionGamma.shells g)
  /\ Itotal = g_Igamma m / Q2Qc 100%Q * (1 + Qc_sum (ce_x <$> g_CE m)).
Proof.
  cbv zeta. unfold ConversionGamma.make.
  pose proof (add_shell_fold (g_Igamma m / Q2Qc 100%Q) (g_CE m) (PSelector.new, [], []))
    as [Hsh Hsub].
  destruct (fold_left _ (g_CE m) _) as [[shs unc] subs]. cbn in Hsh, Hsub. subst shs subs.
  cbn [fst snd ConversionGamma.Egamma ConversionGamma.Igamma ConversionGamma.shells
       ConversionGamma.subshells].
  split; [done|]. split; [done|]. split; [|split; [by rewrite length_fmap|split; [done|]]].
  - unfold PSelector.getN, PSelector.scale, PSelector.addProb. cbn [PSelector.cumprob].
    rewrite length_fmap, length_app, length_cumprob_fold, length_fmap. cbn. lia.
  - unfold PSelector.getCumProb, PSelector.scale. cbn [PSelector.cumprob].
    rewrite back_fmap_mul.
    change (PSelector.back (PSelector.cumprob
              (PSelector.addProb
                 (fold_left PSelector.addProb (ce_x <$> g_CE m) PSelector.new) 1)))
      with (PSelector.getCumProb
              (PSelector.addProb
                 (fold_left PSelector.addProb (ce_x <$> g_CE m) PSelector.new) 1)).
    rewrite getCumProb_addProb, fold_addProb_total. ring.
Qed.

(** ** The library of decay systems *)

Section Library.

Lemma getGenerator_stored
    (q : BetaSpectrumGenerator -> Qc -> Qc) (disk : string -> option SMFile)
    (L L' : NucDecayLibrary.t) (nm : string) (s : NucDecaySystem.t) :
  NucDecayLibrary.getGenerator q disk L nm = NucDecayLibrary.Ok (s, L') ->
  NucDecayLibrary.NDs L' !! nm = Some s
  /\ NucDecayLibrary.cantdothis L' = NucDecayLibrary.cantdothis L.
Proof.
  unfold NucDecayLibrary.getGenerator.
  destruct (NucDecayLibrary.NDs L !! nm) as [s0|] eqn:E0.
  - by intros [= <- <-].
  - destruct (disk _) as [Q|]; [|done].
    destruct (NucDecaySystem.make q Q _ _) as [s1| | |]; try done.
    intros [= <- <-]. cbn. by rewrite lookup_insert_eq.
Qed.

Lemma getGenerator_again (L : NucDecayLibrary.t) (nm : string) (s : NucDecaySystem.t)
    (q : BetaSpectrumGenerator -> Qc -> Qc) (disk : string -> option SMFile) :
  NucDecayLibrary.NDs L !! nm = Some s ->
  NucDecayLibrary.getGenerator q disk L nm = NucDecayLibrary.Ok (s, L).
Proof. intros H. unfold NucDecayLibrary.getGenerator. by rewrite H. Qed.

End Library.

(** X18. [getGenerator(nm)] builds a system once: when it returns, the
    system is stored under [nm], every later call returns it and leaves
    the library as it is, whatever the files have become; the systems of
    the other names and the refused names are untouched; and a system that
    was not stored before was built from the file of that name.  When the
    system is not stored and the file does not exist the exception is
    [MissingDecayData] with the path. *)
Theorem getGenerator_builds_once
    (q : BetaSpectrumGenerator -> Qc -> Qc) (disk : string -> option SMFile)
    (L L' : NucDecayLibrary.t) (nm : string) (s : NucDecaySystem.t) :
  NucDecayLibrary.getGenerator q disk L nm = NucDecayLibrary.Ok (s, L') ->
  NucDecayLibrary.NDs L' !! nm = Some s
  /\ (forall q' disk',
        NucDecayLibrary.getGenerator q' disk' L' nm = NucDecayLibrary.Ok (s, L'))
  /\ (forall nm', nm' <> nm ->
        NucDecayLibrary.NDs L' !! nm' = NucDecayLibrary.NDs L !! nm')
  /\ NucDecayLibrary.cantdothis L' = NucDecayLibrary.cantdothis L
  /\ (NucDecayLibrary.NDs L !! nm = None ->
      exists Q,
        disk (NucDecayLibrary.datpath L ++ "/" ++ nm ++ ".txt")%string = Some Q
        /\ NucDecaySystem.make q Q (NucDecayLibrary.BEL L) (NucDecayLibrary.tcut L)
           = Done s).
Proof.
  unfold NucDecayLibrary.getGenerator.
  destruct (NucDecayLibrary.NDs L !! nm) as [s0|] eqn:E0.
  - intros [= <- <-]. rewrite E0. by repeat split.
  - destruct (disk _) as [Q|] eqn:Ed; [|done].
    destruct (NucDecaySystem.make q Q _ _) as [s1| | |] eqn:Em; try done.
    intros [= <- <-]. cbn. rewrite lookup_insert_eq. split; [done|]. split; [done|].
    split; [intros nm' Hne; by rewrite lookup_insert_ne|]. split; [done|].
    intros _. by exists Q.
Qed.

Lemma getGenerator_builds_once_witness :
  exists s L',
    NucDecayLibrary.getGenerator example_quantiles example_disk example_library "Ni60"
    = NucDecayLibrary.Ok (s, L')
    /\ NucDecayLibrary.NDs L' !! "Ni60" = Some s.
Proof.
  destruct (NucDecayLibrary.getGenerator example_quantiles example_disk
              example_library "Ni60") as [[s L']|e| |] eqn:E;
    [|exfalso; vm_compute in E; discriminate E..].
  exists s, L'. split; [reflexivity|].
  exact (proj1 (getGenerator_builds_once example_quantiles example_disk
                  example_library L' "Ni60" s E)).
Defined.

(** X19. [hasGenerator(nm)] throws nothing.  When it answers [false] the
    name is among the refused ones, and every later call answers [false]
    and changes nothing, whatever the files have become and even when a
    system is stored under the name; a refused name is never looked up. *)
Theorem hasGenerator_refuses_for_good
    (q : BetaSpectrumGenerator -> Qc -> Qc) (disk : string -> option SMFile)
    (L : NucDecayLibrary.t) (nm : string) :
  (forall e, NucDecayLibrary.hasGenerator q disk L nm <> NucDecayLibrary.Throw e)
  /\ (forall L',
        NucDecayLibrary.hasGenerator q disk L nm = NucDecayLibrary.Ok (false, L') ->
        nm ∈ NucDecayLibrary.cantdothis L'
        /\ NucDecayLibrary.NDs L' = NucDecayLibrary.NDs L
        /\ forall q' disk',
             NucDecayLibrary.hasGenerator q' disk' L' nm
             = NucDecayLibrary.Ok (false, L'))
  /\ (nm ∈ NucDecayLibrary.cantdothis L ->
      NucDecayLibrary.hasGenerator q disk L nm = NucDecayLibrary.Ok (false, L)).
Proof.
  unfold NucDecayLibrary.hasGenerator. split; [|split].
  - intros e. case_decide; [done|].
    by destruct (NucDecayLibrary.getGenerator q disk L nm) as [[? ?]|? | |].
  - intros L'. destruct (decide (nm ∈ NucDecayLibrary.cantdothis L)) as [Hin|Hout].
    + intros [= <-]. split; [done|]. split; [done|]. intros q' disk'.
      by rewrite decide_True.
    + destruct (NucDecayLibrary.getGenerator q disk L nm) as [[? ?]|? | |]; try done.
      intros [= <-]. cbn. split; [set_solver|]. split; [done|]. intros q' disk'.
      rewrite decide_True; [done|]. cbn. set_solver.
  - intros Hin. by rewrite decide_True.
Qed.

Lemma hasGenerator_refuses_for_good_witness :
  exists L',
    NucDecayLibrary.hasGenerator example_quantiles example_disk example_library "Co60"
    = NucDecayLibrary.Ok (false, L')
    /\ "Co60" ∈ NucDecayLibrary.cantdothis L'.
Proof.
  exists (NucDecayLibrary.set_cantdothis example_library
            ({["Co60"]} ∪ NucDecayLibrary.cantdothis example_library)).
  assert (E : NucDecayLibrary.hasGenerator example_quantiles example_disk
                example_library "Co60"
              = NucDecayLibrary.Ok
                  (false,
                   NucDecayLibrary.set_cantdothis example_library
                     ({["Co60"]} ∪ NucDecayLibrary.cantdothis example_library))).
  { unfold NucDecayLibrary.hasGenerator. rewrite decide_False by set_solver.
    reflexivity. }
  split; [exact E|].
  destruct (hasGenerator_refuses_for_good example_quantiles example_disk
              example_library "Co60") as (_ & H & _).
  exact (proj1 (H _ E)).
Defined.

(** X20. When [hasGenerator(nm)] answers [true] the system is stored
    under [nm], [getGenerator(nm)] returns it from then on without
    reading any file, and no name was added to the refused ones. *)
Theorem hasGenerator_true_is_stored
    (q : BetaSpectrumGenerator -> Qc -> Qc) (disk : string -> option SMFile)
    (L L' : NucDecayLibrary.t) (nm : string) :
  NucDecayLibrary.hasGenerator q disk L nm = NucDecayLibrary.Ok (true, L') ->
  (nm ∉ NucDecayLibrary.cantdothis L)
  /\ NucDecayLibrary.cantdothis L' = NucDecayLibrary.cantdothis L
  /\ exists s,
       NucDecayLibrary.NDs L' !! nm = Some s
       /\ forall q' disk',
            NucDecayLibrary.getGenerator q' disk' L' nm = NucDecayLibrary.Ok (s, L').
Proof.
  unfold NucDecayLibrary.hasGenerator. case_decide as Hin; [done|].
  destruct (NucDecayLibrary.getGenerator q disk L nm) as [[s L1]|? | |] eqn:E; try done.
  intros [= <-]. destruct (getGenerator_stored q disk L L1 nm s E) as [H1 H2].
  split; [done|]. split; [done|]. exists s. split; [done|].
  intros q' disk'. by apply getGenerator_again.
Qed.

Lemma hasGenerator_true_is_stored_witness :
  exists L',
    NucDecayLibrary.hasGenerator example_quantiles example_disk example_library "Ni60"
    = NucDecayLibrary.Ok (true, L')
    /\ exists s, NucDecayLibrary.NDs L' !! "Ni60" = Some s.
Proof.
  destruct (NucDecayLibrary.hasGenerator example_quantiles example_disk
              example_library "Ni60") as [[[|] L']|e| |] eqn:E;
    [|exfalso; vm_compute in E; discriminate E..].
  exists L'. split; [reflexivity|].
  destruct (hasGenerator_true_is_stored example_quantiles example_disk
              example_library L' "Ni60" E) as (_ & _ & s & Hs & _).
  by exists s.
Defined.

(** ** Steps of the constructor *)

Section Normalise.

Import NucDecaySystem.


End Normalise.




